(** * NumPy-style indexing and assignment over dense tensors

    A shallow embedding of [aten/src/ATen/native/TensorIndexing.cpp]
    (namespace [at::indexing]): the dimension counter, the slicing applier,
    the advanced index dispatcher and the two entry points [get_item] and
    [set_item].

    A C++ [Tensor] is a handle to a [TensorImpl]; two handles are "the same"
    ([is_same]) when they point to one [TensorImpl].  The embedding keeps
    that identity as a number, keeps the view metadata (storage, offset,
    sizes, strides, dtype, device) in a record, and keeps the storages in a
    store that every operation threads explicitly.  A C++ exception is an
    error result that carries the store reached so far. *)

From stdpp Require Import prelude gmap strings pretty.
From Stdlib Require Import ZArith Lia.

#[local] Open Scope Z_scope.

(** ** Data model

    The tensor type, its dtypes, devices and options, and the descriptor
    types of [ATen/native/TensorIndexing.h] are declared outside the file
    under verification. *)

(** Modelled from the spec: [c10::ScalarType], the "dtype system"; not in
    the sources.  The file names [kByte], [kBool], [kLong] and [kFloat] and
    asks for the integral and the quantized dtypes. *)
Inductive ScalarType : Type :=
| kByte | kChar | kShort | kInt | kLong
| kHalf | kFloat | kDouble
| kComplexHalf | kComplexFloat | kComplexDouble
| kBool | kQInt8 | kQUInt8 | kQInt32 | kBFloat16.

#[global] Instance ScalarType_eq_dec : EqDecision ScalarType.
Proof. solve_decision. Defined.

(** Modelled from the spec: [c10::Device], the "device placement" of a
    tensor; not in the sources. *)
Inductive Device : Type :=
| kCPU
| kCUDA (index : nat).

#[global] Instance Device_eq_dec : EqDecision Device.
Proof. solve_decision. Defined.

(** Modelled from the spec: [c10::TensorOptions], the "dtype/placement" a
    factory or a conversion is given; not in the sources. *)
Record TensorOptions : Type := mkOptions {
  opt_dtype : ScalarType;
  opt_device : Device
}.

#[global] Instance TensorOptions_eq_dec : EqDecision TensorOptions.
Proof. solve_decision. Defined.

(** Modelled from the spec: the object a defined [Tensor] handle points to,
    "a view type carrying a reference to shared storage plus shape/stride
    metadata" with an identity of its own; not in the sources.  [impl_id]
    is the identity of the object; element values are kept as integers. *)
Record TensorImpl : Type := mkTensor {
  impl_id : nat;
  storage_id : nat;
  storage_offset : Z;
  sizes : list Z;
  strides : list Z;
  scalar_type : ScalarType;
  device : Device
}.

#[global] Instance TensorImpl_eq_dec : EqDecision TensorImpl.
Proof. solve_decision. Defined.

(** Modelled from the spec: a [Tensor] handle; [None] is the undefined
    tensor [Tensor()], "left unset".  Handles that the code dereferences
    (the indexed tensor, the assigned value, the array of an index-array
    descriptor) are taken as [TensorImpl]; the undefined tensor occurs as a
    hole of the pending index list and as the absent backing tensor of an
    integer or a slice bound. *)
Definition Tensor : Type := option TensorImpl.

(** Modelled from the spec: [c10::Scalar], the assigned "scalar", as an
    integer value; not in the sources. *)
Definition Scalar : Type := Z.

(** Modelled from the spec: [at::indexing::Slice], "Range{start, stop,
    step}", each bound with its optional 0-d index array; declared in
    [TensorIndexing.h], not in the sources. *)
Record Slice : Type := mkSlice {
  start : Z;
  stop : Z;
  step : Z;
  start_tensor : Tensor;
  stop_tensor : Tensor;
  step_tensor : Tensor
}.

(** Modelled from the spec: [at::indexing::TensorIndex], the "Index
    Descriptor (sum type, one case active)"; declared in [TensorIndexing.h],
    not in the sources.  An integer carries its "optional backing
    index-array" ([is_integer_with_tensor]).  The sum type has no invalid
    case, so the final [TORCH_INTERNAL_ASSERT] of [applySlicing] has no
    counterpart. *)
Inductive TensorIndex : Type :=
| TI_None
| TI_Ellipsis
| TI_Integer (integer : Z) (tensor : Tensor)
| TI_Boolean (boolean : bool)
| TI_Slice (slice : Slice)
| TI_Tensor (tensor : TensorImpl).

(** The store of the embedding: the next unused identity (shared by tensor
    objects and storages) and the contents of every storage. *)
Record World : Type := mkWorld {
  next_id : nat;
  storages : gmap nat (list Z)
}.

(** ** Errors and the store-passing monad *)

(** The error taxonomy: the indexing-arity error (more dimensions are
    specified than the source has), the broadcast failure of an assignment,
    the internal assertion, and whatever an underlying primitive raises. *)
Inductive Error : Type :=
| IndexingArityError
| ShapeBroadcastError
| InternalAssertFailed
| PrimitiveError.

Inductive Res (A : Type) : Type :=
| Ok (a : A)
| Fail (e : Error).
Arguments Ok {A} a.
Arguments Fail {A} e.

Definition M (A : Type) : Type := World -> Res A * World.

Definition ret {A} (a : A) : M A := fun w => (Ok a, w).

Definition throw {A} (e : Error) : M A := fun w => (Fail e, w).

Definition bind {A B} (m : M A) (k : A -> M B) : M B :=
  fun w =>
    match m w with
    | (Ok a, w') => k a w'
    | (Fail e, w') => (Fail e, w')
    end.

Notation "'let*' x ':=' c 'in' k" := (bind c (fun x => k))
  (at level 10, x pattern, c at level 100, k at level 200).

Definition get_world : M World := fun w => (Ok w, w).

(** A primitive that cannot produce its result raises. *)
Definition lift_option {A} (o : option A) : M A :=
  match o with
  | Some a => ret a
  | None => throw PrimitiveError
  end.

(** Hands out the next unused identity. *)
Definition fresh : M nat :=
  fun w => (Ok (next_id w), mkWorld (S (next_id w)) (storages w)).

(** Allocates a storage with the given contents. *)
Definition new_storage (data : list Z) : M nat :=
  fun w => (Ok (next_id w), mkWorld (S (next_id w)) (<[next_id w := data]> (storages w))).

(** ** Shapes, positions and elements *)

(** Modelled from the spec: [Tensor::dim], the rank; not in the sources. *)
Definition dim (t : TensorImpl) : Z := Z.of_nat (length (sizes t)).

(** Modelled from the spec: [Tensor::is_same], "reference-identical"; not
    in the sources. *)
Definition is_same (a b : TensorImpl) : bool := Nat.eqb (impl_id a) (impl_id b).

(** Modelled from the spec: [Tensor::options], the dtype and placement of
    a tensor; not in the sources. *)
Definition options (t : TensorImpl) : TensorOptions :=
  mkOptions (scalar_type t) (device t).

(** Modelled from the spec: [TensorOptions::dtype], not in the sources. *)
Definition with_dtype (o : TensorOptions) (d : ScalarType) : TensorOptions :=
  mkOptions d (opt_device o).

(** Modelled from the spec: [TensorOptions::device], not in the sources. *)
Definition with_device (o : TensorOptions) (d : Device) : TensorOptions :=
  mkOptions (opt_dtype o) d.

(** The number of elements of a shape. *)
Definition numel (shape : list Z) : Z := foldr Z.mul 1 shape.

(** Every position of a shape, in row-major order. *)
Fixpoint all_indices (shape : list Z) : list (list Z) :=
  match shape with
  | [] => [[]]
  | n :: rest => i ← seqZ 0 n; (i ::.) <$> all_indices rest
  end.

(** Row-major strides of a shape. *)
Fixpoint contiguous_strides (shape : list Z) : list Z :=
  match shape with
  | [] => []
  | _ :: rest => numel rest :: contiguous_strides rest
  end.

(** The offset of a position under the given strides. *)
Fixpoint dot (idx strides : list Z) : Z :=
  match idx, strides with
  | i :: idx', s :: strides' => i * s + dot idx' strides'
  | _, _ => 0
  end.

(** The storage cell a position of a view refers to. *)
Definition location (t : TensorImpl) (idx : list Z) : Z :=
  storage_offset t + dot idx (strides t).

(** The contents of a storage cell, if the storage has it. *)
Definition read_cell (w : World) (sid : nat) (loc : Z) : option Z :=
  if decide (0 <= loc) then l ← storages w !! sid; l !! Z.to_nat loc else None.

(** The element of a view at a position. *)
Definition read_at (w : World) (t : TensorImpl) (idx : list Z) : option Z :=
  read_cell w (storage_id t) (location t idx).

(** The elements of a view in row-major order. *)
Definition elements (w : World) (t : TensorImpl) : option (list Z) :=
  mapM (read_at w t) (all_indices (sizes t)).

(** Overwrites a storage cell, if the storage has it. *)
Definition write_cell (sid : nat) (loc : Z) (v : Z) (w : World) : option World :=
  if decide (0 <= loc) then
    l ← storages w !! sid;
    if decide (Z.to_nat loc < length l)%nat
    then Some (mkWorld (next_id w) (<[sid := <[Z.to_nat loc := v]> l]> (storages w)))
    else None
  else None.

(** Writes the given cells one after the other. *)
Fixpoint write_cells (sid : nat) (cells : list (Z * Z)) (w : World) : option World :=
  match cells with
  | [] => Some w
  | (loc, v) :: rest => w' ← write_cell sid loc v w; write_cells sid rest w'
  end.

(** Two's-complement wrap-around to [bits] bits. *)
Definition wrap_signed (bits : Z) (v : Z) : Z :=
  (v + 2 ^ (bits - 1)) mod 2 ^ bits - 2 ^ (bits - 1).

(** Modelled from the spec: conversion of an element value to a dtype ("v
    cast to D"); not in the sources.  The fixed-width integer types wrap,
    [kBool] keeps the truth value, and the remaining types keep the integer
    values the model stores. *)
Definition cast_to (d : ScalarType) (v : Z) : Z :=
  match d with
  | kBool => if decide (v = 0) then 0 else 1
  | kByte => v mod 256
  | kChar => wrap_signed 8 v
  | kShort => wrap_signed 16 v
  | kInt => wrap_signed 32 v
  | kLong => wrap_signed 64 v
  | _ => v
  end.

(** Modelled from the spec: [at::isIntegralType(type, includeBool)], the
    "integral" dtypes; not in the sources. *)
Definition isIntegralType (t : ScalarType) (includeBool : bool) : bool :=
  match t with
  | kByte | kChar | kShort | kInt | kLong => true
  | kBool => includeBool
  | _ => false
  end.

(** Modelled from the spec: [at::isQIntType], the "quantized" dtypes; not
    in the sources. *)
Definition isQIntType (t : ScalarType) : bool :=
  match t with
  | kQInt8 | kQUInt8 | kQInt32 => true
  | _ => false
  end.

(** ** The tensor primitives

    The tensor library itself ([select], [slice], [unsqueeze], [alias],
    [view], [expand], [copy_], [to], [index], [index_put_], the factories)
    and the helpers of [ATen/native/TensorIndexing.h] and
    [ATen/ExpandUtils.h] are not part of the file under verification; they
    are modelled on strided views from their interface contracts. *)

(** [l] with [x] inserted before position [n]. *)
Definition insert_at {A} (n : nat) (x : A) (l : list A) : list A :=
  take n l ++ x :: drop n l.

(** [l] without position [n]. *)
Definition remove_at {A} (n : nat) (l : list A) : list A :=
  take n l ++ drop (S n) l.

(** Modelled from the spec: the "modular/negative-index rules" of the
    primitives, not in the sources.  A dimension or an index counts from the
    front, or from the back when negative; [n] is the number of admissible
    values. *)
Definition wrap_index (d n : Z) : option nat :=
  if decide (0 <= d < n) then Some (Z.to_nat d)
  else if decide (- n <= d < 0) then Some (Z.to_nat (d + n))
  else None.

(** Modelled from the spec: [alias], the primitive "alias(view): a new view
    object sharing storage, distinct identity"; not in the sources. *)
Definition alias (t : TensorImpl) : M TensorImpl :=
  let* id := fresh in
  ret (mkTensor id (storage_id t) (storage_offset t) (sizes t) (strides t)
         (scalar_type t) (device t)).

(** Modelled from the spec: [unsqueeze], the primitive "unsqueeze(view,
    dim): view with a size-1 dimension inserted at dim"; not in the sources.
    The stride of the inserted dimension is never multiplied by a non-zero
    index. *)
Definition unsqueeze (t : TensorImpl) (d : Z) : M TensorImpl :=
  let* k := lift_option (wrap_index d (dim t + 1)) in
  let* id := fresh in
  ret (mkTensor id (storage_id t) (storage_offset t)
         (insert_at k 1 (sizes t)) (insert_at k 1 (strides t))
         (scalar_type t) (device t)).

(** Modelled from the spec: [select], the primitive "select(view, dim,
    index): view with dim removed", with "modular/negative-index rules" and
    out-of-range indices raised as a primitive error; not in the sources. *)
Definition select (t : TensorImpl) (d : Z) (index : Z) : M TensorImpl :=
  let* k := lift_option (wrap_index d (dim t)) in
  let* size := lift_option (sizes t !! k) in
  let* i := lift_option (Z.of_nat <$> wrap_index index size) in
  let* id := fresh in
  ret (mkTensor id (storage_id t)
         (storage_offset t + i * default 0 (strides t !! k))
         (remove_at k (sizes t)) (remove_at k (strides t))
         (scalar_type t) (device t)).

(** Modelled from the spec: [applySelect] of [TensorIndexing.h], not in the
    sources: "apply select at dim on result (removes that dimension,
    indexing by the integer ...)".  On a source without dimensions the
    descriptor specifies a dimension the source does not have: "count of
    explicitly specified dimensions exceeds source rank", the indexing-arity
    error of the error taxonomy; every other failure is the one of the
    select primitive.  The backing tensor and the position of the
    descriptor only serve tracing and error messages. *)
Definition applySelect (self : TensorImpl) (d : Z) (index : Z)
    (index_tensor : Tensor) (real_dim : Z) : M TensorImpl :=
  if decide (dim self = 0) then throw IndexingArityError
  else select self d index.

(** Modelled from the spec: [slice], the primitive "slice(view, dim, start,
    stop, step): view with dim narrowed", half-open, with a positive step;
    bounds count from the back when negative and are clamped to the
    dimension.  Not in the sources. *)
Definition slice_view (t : TensorImpl) (d : Z) (start stop step : Z) : M TensorImpl :=
  let* k := lift_option (wrap_index d (dim t)) in
  let* size := lift_option (sizes t !! k) in
  if decide (step <= 0) then throw PrimitiveError else
  let lo := Z.max 0 (Z.min size (if decide (start < 0) then start + size else start)) in
  let hi := Z.max lo (Z.min size (if decide (stop < 0) then stop + size else stop)) in
  let stride := default 0 (strides t !! k) in
  let* id := fresh in
  ret (mkTensor id (storage_id t) (storage_offset t + lo * stride)
         (<[k := (hi - lo + step - 1) `div` step]> (sizes t))
         (<[k := stride * step]> (strides t))
         (scalar_type t) (device t)).

(** Modelled from the spec: [applySlice] of [TensorIndexing.h], not in the
    sources: "apply slice at dim with (start, stop, step) semantics of the
    underlying primitive".  As for [applySelect], a source without
    dimensions gives the indexing-arity error.  The bound tensors only
    serve tracing.  The last argument is the flag that the
    single-descriptor read passes; every caller obtains the narrowed view
    of [slice]. *)
Definition applySlice (self : TensorImpl) (d : Z) (start stop step : Z)
    (start_tensor stop_tensor step_tensor : Tensor) (ensure_view : bool) : M TensorImpl :=
  if decide (dim self = 0) then throw IndexingArityError
  else slice_view self d start stop step.

(** Modelled from the spec: part of [view]; the row-major layout test, in
    which dimensions of size 1 carry no constraint. *)
Fixpoint is_contiguous (sz st : list Z) : bool :=
  match sz with
  | [] => true
  | s :: sz' =>
    (bool_decide (s = 1) || bool_decide (hd 0 st = numel sz')) && is_contiguous sz' (tail st)
  end.

(** Modelled from the spec: [view], the zero-copy "reshape the value into
    that ... shape"; not in the sources.  The model decides two cases:
    leading dimensions of size 1 are dropped (the only request this file
    makes), or the tensor is laid out row-major. *)
Definition view (t : TensorImpl) (shape : list Z) : M TensorImpl :=
  let k := (length (sizes t) - length shape)%nat in
  if decide (drop k (sizes t) = shape /\ Forall (eq 1) (take k (sizes t))) then
    let* id := fresh in
    ret (mkTensor id (storage_id t) (storage_offset t) shape (drop k (strides t))
           (scalar_type t) (device t))
  else if decide (numel shape = numel (sizes t) /\ is_contiguous (sizes t) (strides t) = true) then
    let* id := fresh in
    ret (mkTensor id (storage_id t) (storage_offset t) shape (contiguous_strides shape)
           (scalar_type t) (device t))
  else throw PrimitiveError.

(** Modelled from the spec: part of [expand]; the strides that broadcast
    sizes [sz] to a target of the same length: a dimension keeps its stride
    when the sizes agree and is repeated with stride 0 when its size is 1. *)
Fixpoint expand_aligned (sz st target : list Z) : option (list Z) :=
  match sz, target with
  | [], [] => Some []
  | s :: sz', t :: target' =>
    rest ← expand_aligned sz' (tail st) target';
    if decide (s = t) then Some (hd 0 st :: rest)
    else if decide (s = 1) then Some (0 :: rest)
    else None
  | _, _ => None
  end.

(** Modelled from the spec: part of [expand]; new leading dimensions are
    repeated with stride 0. *)
Definition expand_strides (sz st target : list Z) : option (list Z) :=
  let k := (length target - length sz)%nat in
  if decide (length sz <= length target)%nat
  then (replicate k 0 ++.) <$> expand_aligned sz st (drop k target)
  else None.

(** Modelled from the spec: [expand], the primitive "expand(value, shape):
    broadcast view, no copy; fails if incompatible"; not in the sources.
    Shapes are aligned at their last dimension. *)
Definition expand (t : TensorImpl) (shape : list Z) : M TensorImpl :=
  match expand_strides (sizes t) (strides t) shape with
  | Some st =>
    let* id := fresh in
    ret (mkTensor id (storage_id t) (storage_offset t) shape st
           (scalar_type t) (device t))
  | None => throw ShapeBroadcastError
  end.

(** Modelled from the spec: [expand_inplace] of [ATen/ExpandUtils.h], not in
    the sources: "expand it (broadcast, no copy) against the destination
    view's shape". *)
Definition expand_inplace (tensor to_expand : TensorImpl) : M TensorImpl :=
  if decide (sizes tensor = sizes to_expand) then ret to_expand
  else expand to_expand (sizes tensor).

(** Modelled from the spec: [copy_], the primitive "copy(dst_view,
    src_view): element-wise in-place write"; not in the sources.  The
    source is read in full, converted to the destination's dtype and then
    written position by position. *)
Definition copy_ (dst src : TensorImpl) : M TensorImpl :=
  let* b := expand_inplace dst src in
  fun w =>
    match
      vals ← elements w b;
      write_cells (storage_id dst)
        (zip (location dst <$> all_indices (sizes dst)) (cast_to (scalar_type dst) <$> vals)) w
    with
    | Some w' => (Ok dst, w')
    | None => (Fail PrimitiveError, w)
    end.

(** Modelled from the spec: what the factories and conversions share, a
    new row-major tensor on a new storage with the given elements. *)
Definition new_tensor (shape : list Z) (data : list Z) (o : TensorOptions) : M TensorImpl :=
  let* sid := new_storage data in
  let* id := fresh in
  ret (mkTensor id sid 0 shape (contiguous_strides shape) (opt_dtype o) (opt_device o)).

(** Modelled from the spec: [to], the primitive "to(array,
    dtype/placement): converted array, identity if already matching"; not in
    the sources. *)
Definition to (t : TensorImpl) (o : TensorOptions) : M TensorImpl :=
  if decide (options t = o) then ret t
  else
    let* w := get_world in
    let* vals := lift_option (elements w t) in
    new_tensor (sizes t)
      (if decide (opt_dtype o = scalar_type t) then vals else cast_to (opt_dtype o) <$> vals) o.

(** Modelled from the spec: [at::native::scalar_tensor], "scalar-to-array
    conversion" to "a 0-dimensional array"; not in the sources. *)
Definition scalar_tensor (v : Scalar) (o : TensorOptions) : M TensorImpl :=
  new_tensor [] [cast_to (opt_dtype o) v] o.

(** Modelled from the spec: [at::native::zeros], not in the sources. *)
Definition zeros (shape : list Z) (o : TensorOptions) : M TensorImpl :=
  new_tensor shape (replicate (Z.to_nat (numel shape)) 0) o.

(** Modelled from the spec: [at::native::empty], not in the sources.  The
    contents are unspecified; this file only asks for zero elements. *)
Definition empty (shape : list Z) (o : TensorOptions) : M TensorImpl :=
  new_tensor shape (replicate (Z.to_nat (numel shape)) 0) o.

(** Modelled from the spec: [Tensor::item], the value of a one-element
    tensor; not in the sources. *)
Definition item (t : TensorImpl) : M Z :=
  if decide (numel (sizes t) = 1) then
    let* w := get_world in
    lift_option (read_at w t (replicate (length (sizes t)) 0))
  else throw PrimitiveError.

(** *** Gather and scatter

    The definitions up to [index_put_] make up the model of the two
    primitives [index] and [index_put_] of advanced indexing. *)

(** Modelled from the spec: part of [index]; an index array read out of
    its storage, row-major. *)
Record IndexData : Type := mkIndexData {
  ix_shape : list Z;
  ix_values : list Z
}.

(** Modelled from the spec: part of [index]; the row-major rank of a
    position in a shape. *)
Fixpoint linear_from (acc : Z) (shape idx : list Z) : Z :=
  match shape, idx with
  | n :: shape', i :: idx' => linear_from (acc * n + i) shape' idx'
  | _, _ => acc
  end.

(** Modelled from the spec: part of [index]; the value an index array
    contributes at position [mb] of the broadcast shape: shapes are aligned
    at the last dimension and a dimension of size 1 is repeated. *)
Definition read_broadcast (ix : IndexData) (mb : list Z) : option Z :=
  let k := (length mb - length (ix_shape ix))%nat in
  let pos := zip_with (fun n i => if decide (n = 1) then 0 else i) (ix_shape ix) (drop k mb) in
  ix_values ix !! Z.to_nat (linear_from 0 (ix_shape ix) pos).

(** Modelled from the spec: part of [index]; broadcasting of two shapes
    given last dimension first. *)
Fixpoint broadcast_rev (a b : list Z) : option (list Z) :=
  match a, b with
  | [], _ => Some b
  | _, [] => Some a
  | x :: a', y :: b' =>
    r ← broadcast_rev a' b';
    if decide (x = y) then Some (x :: r)
    else if decide (x = 1) then Some (y :: r)
    else if decide (y = 1) then Some (x :: r)
    else None
  end.

(** Modelled from the spec: part of [index]; the common shape of two
    broadcast operands. *)
Definition infer_size (a b : list Z) : option (list Z) :=
  reverse <$> broadcast_rev (reverse a) (reverse b).

(** Modelled from the spec: part of [index]; the common shape of all index
    arrays. *)
Definition broadcast_shape (shapes : list (list Z)) : option (list Z) :=
  foldr (fun s acc => acc ≫= infer_size s) (Some []) shapes.

(** Modelled from the spec: part of [index]; the positions at which a mask
    is set, row-major. *)
Definition nonzero (shape : list Z) (vals : list Z) : list (list Z) :=
  (filter (fun p => p.2 <> 0) (zip (all_indices shape) vals)).*1.

(** The dtypes of "mask indexing": byte and boolean. *)
Definition is_mask_type (t : ScalarType) : bool :=
  bool_decide (t = kByte) || bool_decide (t = kBool).

(** Modelled from the spec: part of [index]; reads the index arrays.  A
    byte or boolean mask, "consuming as many source dimensions as the mask
    has" and of their shape, becomes one long index array per dimension. *)
Fixpoint expand_indices (w : World) (self_sizes : list Z) (indices : list Tensor)
    : option (list (option IndexData)) :=
  match indices with
  | [] => Some []
  | None :: rest => (None ::.) <$> expand_indices w (tail self_sizes) rest
  | Some t :: rest =>
    vals ← elements w t;
    if decide (scalar_type t = kLong) then
      (Some (mkIndexData (sizes t) vals) ::.) <$> expand_indices w (tail self_sizes) rest
    else if is_mask_type (scalar_type t) then
      let k := length (sizes t) in
      let coords := nonzero (sizes t) vals in
      if decide (take k self_sizes = sizes t) then
        (((fun j => Some (mkIndexData [Z.of_nat (length coords)]
                            ((fun c => default 0 (c !! j)) <$> coords))) <$> seq 0 k) ++.)
          <$> expand_indices w (drop k self_sizes) rest
      else None
    else None
  end.

(** Modelled from the spec: part of [index]; a source dimension without
    index array ("no constraint on this dimension"). *)
Definition is_hole (d : Z * option IndexData) : bool :=
  match d.2 with None => true | Some _ => false end.

(** Modelled from the spec: part of [index]; the number of dimensions in
    front of the first indexed one. *)
Fixpoint leading_holes (dims : list (Z * option IndexData)) : nat :=
  match dims with
  | d :: rest => if is_hole d then S (leading_holes rest) else 0%nat
  | [] => 0%nat
  end.

(** Modelled from the spec: part of [index]; skips a run of indexed
    dimensions. *)
Fixpoint drop_indexed (dims : list (Z * option IndexData)) : list (Z * option IndexData) :=
  match dims with
  | d :: rest => if is_hole d then dims else drop_indexed rest
  | [] => []
  end.

(** Modelled from the spec: part of [index]; the indexed dimensions are
    next to each other. *)
Definition adjacent (dims : list (Z * option IndexData)) : bool :=
  forallb is_hole (drop_indexed (drop (leading_holes dims) dims)).

(** Modelled from the spec: part of [index]; the source position for one
    result position: an indexed dimension takes the value of its index
    array at [mb] (counting from the back when negative, checked against
    the size), any other dimension takes the next coordinate of [q]. *)
Fixpoint source_index (dims : list (Z * option IndexData)) (mb q : list Z) : option (list Z) :=
  match dims with
  | [] => Some []
  | (_, None) :: rest =>
    match q with
    | i :: q' => (i ::.) <$> source_index rest mb q'
    | [] => None
    end
  | (size, Some ix) :: rest =>
    v ← read_broadcast ix mb;
    i ← wrap_index v size;
    (Z.of_nat i ::.) <$> source_index rest mb q
  end.

(** Modelled from the spec: what [index] and [index_put_] share: the
    dimensions of the source with their index arrays, the broadcast shape of
    the index arrays, the number of source dimensions that stay in front of
    it, and the shape of the result.  The indexed dimensions are replaced
    in place when they are adjacent and moved to the front otherwise
    ("advanced-indexed dimensions interleaved with basic dimensions"). *)
Record IndexPlan : Type := mkPlan {
  plan_dims : list (Z * option IndexData);
  plan_bshape : list Z;
  plan_front : nat;
  plan_shape : list Z
}.

(** Modelled from the spec: part of [index]; the plan for a source and its
    ordered index arrays. *)
Definition index_plan (w : World) (self : TensorImpl) (indices : list Tensor)
    : option IndexPlan :=
  ixs ← expand_indices w (sizes self) indices;
  if decide (length ixs <= length (sizes self))%nat then
    let dims := zip (sizes self) (ixs ++ replicate (length (sizes self) - length ixs) None) in
    bshape ← broadcast_shape (ix_shape <$> omap id ixs);
    let front := if adjacent dims then leading_holes dims else 0%nat in
    let kept := (filter (fun d => is_hole d = true) dims).*1 in
    Some (mkPlan dims bshape front (take front kept ++ bshape ++ drop front kept))
  else None.

(** Modelled from the spec: part of [index]; the source position for the
    result position [m]. *)
Definition plan_source (p : IndexPlan) (m : list Z) : option (list Z) :=
  source_index (plan_dims p)
    (take (length (plan_bshape p)) (drop (plan_front p) m))
    (take (plan_front p) m ++ drop (plan_front p + length (plan_bshape p)) m).

(** Modelled from the spec: [Tensor::index], the primitive "gather(view,
    ordered_index_arrays): new array" of advanced indexing, where an unset
    entry is "no constraint on this dimension"; not in the sources. *)
Definition index (self : TensorImpl) (indices : list Tensor) : M TensorImpl :=
  let* w := get_world in
  let* p := lift_option (index_plan w self indices) in
  let* vals := lift_option
    (mapM (fun m => plan_source p m ≫= read_at w self) (all_indices (plan_shape p))) in
  new_tensor (plan_shape p) vals (options self).

(** Modelled from the spec: [Tensor::index_put_], the primitive
    "scatter(view, ordered_index_arrays, value): in-place write"; not in the
    sources.  The value is broadcast to the shape a gather would return. *)
Definition index_put_ (self : TensorImpl) (indices : list Tensor) (value : TensorImpl)
    : M TensorImpl :=
  let* w := get_world in
  let* p := lift_option (index_plan w self indices) in
  let* b := (if decide (sizes value = plan_shape p) then ret value
             else expand value (plan_shape p)) in
  fun w' =>
    match
      vals ← elements w' b;
      locs ← mapM (fun m => location self <$> plan_source p m) (all_indices (plan_shape p));
      write_cells (storage_id self) (zip locs (cast_to (scalar_type self) <$> vals)) w'
    with
    | Some w'' => (Ok self, w'')
    | None => (Fail PrimitiveError, w')
    end.

(** ** The indexing code of [TensorIndexing.cpp]

    Line numbers refer to [aten/src/ATen/native/TensorIndexing.cpp].  The
    counters and the cursor are [int64_t] in the source; they are bounded by
    the number of descriptors and the ranks involved, far from the 64-bit
    range, and are kept in [Z].  The [OptionalDeviceGuard]s have no
    counterpart: the store has no current device. *)

(** [count_specified_dimensions] (lines 47-65): the number of indexed
    dimensions (everything but ellipsis, None and booleans), accumulated
    from left to right as by the loop. *)
Definition count_specified_dimensions (indices : list TensorIndex) : Z :=
  foldl
    (fun count obj =>
       match obj with
       | TI_Tensor tensor =>
         if bool_decide (scalar_type tensor = kByte) || bool_decide (scalar_type tensor = kBool)
         then count + dim tensor
         else count + 1
       | TI_None | TI_Ellipsis | TI_Boolean _ => count
       | TI_Integer _ _ | TI_Slice _ => count + 1
       end)
    0 indices.

(** [valueToTensor] (lines 68-70). *)
Definition valueToTensor (options : TensorOptions) (v : Scalar) : M TensorImpl :=
  scalar_tensor v options.

(** [boolToIndexingTensor] (lines 73-80): booleans add a dimension of size
    1; true indexes this dimension as if [0:], false as empty. *)
Definition boolToIndexingTensor (self : TensorImpl) (value : bool) : M TensorImpl :=
  if value
  then zeros [1] (with_dtype (options self) kLong)
  else empty [0] (with_dtype (options self) kLong).

(** The lambda [handle_tensor] of [applySlicing] (lines 88-93); it captures
    the cursor [dim] and the vector [outIndices] by reference, so it maps
    their values before the call to their values after it:
    [outIndices.resize(dim + 1); outIndices[dim] = tensor; dim++].  The
    vector is cut or padded with undefined tensors by [resize]. *)
Definition handle_tensor (tensor : TensorImpl) (d : Z) (outIndices : list Tensor)
    : Z * list Tensor :=
  (d + 1, <[Z.to_nat d := Some tensor]> (resize (Z.to_nat (d + 1)) None outIndices)).

(** The body of the loop of [applySlicing] (lines 99-145) for the
    descriptor [obj] at position [i], on the running [result], the cursor
    [dim] (here [d]) and the pending index list [outIndices]. *)
Definition applySlicing_step (self : TensorImpl) (specified_dims : Z) (i : Z)
    (obj : TensorIndex) (st : TensorImpl * Z * list Tensor)
    : M (TensorImpl * Z * list Tensor) :=
  let '(result, d, outIndices) := st in
  match obj with
  | TI_Integer integer tensor =>
    let* result := applySelect result d integer tensor i in
    ret (result, d, outIndices)
  | TI_Slice s =>
    let* result := applySlice result d (start s) (stop s) (step s)
                     (start_tensor s) (stop_tensor s) (step_tensor s) false in
    ret (result, d + 1, outIndices)
  | TI_Ellipsis =>
    ret (result, d + (dim self - specified_dims), outIndices)
  | TI_None =>
    let* result := unsqueeze result d in
    ret (result, d + 1, outIndices)
  | TI_Boolean boolean =>
    let* result := unsqueeze result d in
    let* ix := boolToIndexingTensor result boolean in
    let '(d, outIndices) := handle_tensor ix d outIndices in
    ret (result, d, outIndices)
  | TI_Tensor tensor =>
    let scalar_type := scalar_type tensor in
    if bool_decide (dim tensor = 0) && isIntegralType scalar_type true then
      if bool_decide (scalar_type <> kByte) && bool_decide (scalar_type <> kBool) then
        let* v := item tensor in
        let* result := applySelect result d v (Some tensor) i in
        ret (result, d, outIndices)
      else
        let* result := unsqueeze result d in
        let* v := item tensor in
        let* ix := boolToIndexingTensor result (bool_decide (v <> 0)) in
        let '(d, outIndices) := handle_tensor ix d outIndices in
        ret (result, d, outIndices)
    else
      let '(d, outIndices) := handle_tensor tensor d outIndices in
      ret (result, d, outIndices)
  end.

(** The loop [for (int64_t i = 0; i < size; i++)] (line 98) from position
    [i] on. *)
Fixpoint applySlicing_loop (self : TensorImpl) (specified_dims : Z) (i : Z)
    (indices : list TensorIndex) (st : TensorImpl * Z * list Tensor)
    : M (TensorImpl * Z * list Tensor) :=
  match indices with
  | [] => ret st
  | obj :: rest =>
    let* st := applySlicing_step self specified_dims i obj st in
    applySlicing_loop self specified_dims (i + 1) rest st
  end.

(** [applySlicing] (lines 83-148): returns the basic view together with the
    final value of the reference parameter [outIndices]; the arity check is
    the [TORCH_CHECK_INDEX] of line 95. *)
Definition applySlicing (self : TensorImpl) (indices : list TensorIndex)
    (outIndices : list Tensor) : M (TensorImpl * list Tensor) :=
  let specified_dims := count_specified_dimensions indices in
  if decide (specified_dims <= dim self) then
    let* (result, _, outIndices) :=
      applySlicing_loop self specified_dims 0 indices (self, 0, outIndices) in
    ret (result, outIndices)
  else throw IndexingArityError.

(** [typeConvertIndices] (lines 151-162), position by position. *)
Fixpoint typeConvertIndices (self : TensorImpl) (indices : list Tensor) : M (list Tensor) :=
  match indices with
  | [] => ret []
  | ind :: rest =>
    let* converted :=
      match ind with
      | Some t =>
        let* c := to t (with_device (options t) (device self)) in
        ret (Some c)
      | None => ret None
      end in
    let* converted_inds := typeConvertIndices self rest in
    ret (converted :: converted_inds)
  end.

(** [dispatch_index] (lines 165-169). *)
Definition dispatch_index (self : TensorImpl) (indices : list Tensor) : M TensorImpl :=
  let* converted_indices := typeConvertIndices self indices in
  index self converted_indices.

(** [dispatch_index_put_] (lines 172-176). *)
Definition dispatch_index_put_ (self : TensorImpl) (indices : list Tensor)
    (value : TensorImpl) : M TensorImpl :=
  let* converted_indices := typeConvertIndices self indices in
  index_put_ self converted_indices value.

(** [get_item] (lines 179-217): the fast path for a single None, Ellipsis,
    integer or slice, and the general path [general] for every other
    descriptor list. *)
Definition get_item (self : TensorImpl) (indices : list TensorIndex) : M TensorImpl :=
  let general :=
    let* (sliced, tensorIndices) := applySlicing self indices [] in
    match tensorIndices with
    | [] => if is_same sliced self then alias sliced else ret sliced
    | _ => dispatch_index sliced tensorIndices
    end in
  match indices with
  | [TI_None] => unsqueeze self 0
  | [TI_Ellipsis] => alias self
  | [TI_Integer integer tensor] => applySelect self 0 integer tensor 0
  | [TI_Slice s] =>
    applySlice self 0 (start s) (stop s) (step s)
      (start_tensor s) (stop_tensor s) (step_tensor s) true
  | _ => general
  end.

(** The loop of [slicePrefix1sSize] (lines 225-231): the first position
    that does not hold 1, or the length. *)
Fixpoint first_non1_src (sizes : list Z) : nat :=
  match sizes with
  | [] => 0%nat
  | s :: rest => if decide (s <> 1) then 0%nat else S (first_non1_src rest)
  end.

(** [slicePrefix1sSize] (lines 224-234): strips away unit dimensions from
    the left. *)
Definition slicePrefix1sSize (sizes : list Z) : list Z :=
  drop (first_non1_src sizes) sizes.

(** [copy_to] (lines 237-242). *)
Definition copy_to (dst src : TensorImpl) : M unit :=
  let sliced_src_sizes := slicePrefix1sSize (sizes src) in
  let* v := view src sliced_src_sizes in
  let* b_src := expand_inplace dst v in
  let* _ := copy_ dst b_src in
  ret tt.

(** [set_item], the overload for an assigned tensor (lines 246-295): the
    fast path for a single boolean, Ellipsis, None, integer or slice, and
    the general path [general] for every other descriptor list. *)
Definition set_item (self : TensorImpl) (indices : list TensorIndex) (value : TensorImpl)
    : M unit :=
  let general :=
    let* (sliced, tensorIndices) := applySlicing self indices [] in
    match tensorIndices with
    | [] => copy_to sliced value
    | _ =>
      let slicedValueSizes := slicePrefix1sSize (sizes value) in
      let* valuesSliced :=
        (if decide (sizes value <> slicedValueSizes) then view value slicedValueSizes
         else ret value) in
      let* _ := dispatch_index_put_ sliced tensorIndices valuesSliced in
      ret tt
    end in
  match indices with
  | [TI_Boolean false] => ret tt
  | [TI_Ellipsis] => copy_to self value
  | [TI_None] | [TI_Boolean true] =>
    let* u := unsqueeze self 0 in
    copy_to u value
  | [TI_Integer integer tensor] =>
    let* s := applySelect self 0 integer tensor 0 in
    copy_to s value
  | [TI_Slice s] =>
    let* v := applySlice self 0 (start s) (stop s) (step s)
                (start_tensor s) (stop_tensor s) (step_tensor s) false in
    copy_to v value
  | _ => general
  end.

(** [set_item], the overload for an assigned scalar (lines 299-311). *)
Definition set_item_scalar (self : TensorImpl) (indices : list TensorIndex) (v : Scalar)
    : M unit :=
  let* value :=
    (if isQIntType (scalar_type self)
     then valueToTensor (mkOptions kFloat kCPU) v
     else valueToTensor (options self) v) in
  set_item self indices value.

(** [Tensor::index] (lines 315-320); the overload for an initializer list
    forwards to this one. *)
Definition Tensor_index (self : TensorImpl) (indices : list TensorIndex) : M TensorImpl :=
  get_item self indices.

(** [Tensor::index_put_] for an assigned tensor (lines 322-329, 334-339):
    [set_item] and then [return *this]. *)
Definition Tensor_index_put_ (self : TensorImpl) (indices : list TensorIndex)
    (rhs : TensorImpl) : M TensorImpl :=
  let* _ := set_item self indices rhs in
  ret self.

(** [Tensor::index_put_] for an assigned scalar (lines 330-333, 340-342). *)
Definition Tensor_index_put_scalar (self : TensorImpl) (indices : list TensorIndex)
    (v : Scalar) : M TensorImpl :=
  let* _ := set_item_scalar self indices v in
  ret self.

(** The general path of [get_item] (lines 205-216) on its own, as it runs
    for a descriptor list that the fast path does not answer. *)
Definition get_item_general_path (self : TensorImpl) (indices : list TensorIndex)
    : M TensorImpl :=
  let* (sliced, tensorIndices) := applySlicing self indices [] in
  match tensorIndices with
  | [] => if is_same sliced self then alias sliced else ret sliced
  | _ => dispatch_index sliced tensorIndices
  end.

(** *** Rendering of descriptors

    The three [operator<<] of lines 14-44 append to a stream; the embedding
    returns the text they append.  Integers are written in decimal.  The
    text of a tensor is produced by the tensor library and is a parameter
    [print_tensor]. *)

(** 64-bit unsigned wrap-around ([size_t]). *)
Definition wrap_size_t (n : Z) : Z := n mod 2 ^ 64.

(** [operator<<] for a [Slice] (lines 14-17). *)
Definition print_Slice (s : Slice) : string :=
  pretty (start s) +:+ ":" +:+ pretty (stop s) +:+ ":" +:+ pretty (step s).

(** [operator<<] for a [TensorIndex] (lines 19-34); an integer with a
    backing tensor is an integer.  Booleans are written with
    [std::boolalpha]. *)
Definition print_TensorIndex (print_tensor : TensorImpl -> string) (tensor_index : TensorIndex)
    : string :=
  match tensor_index with
  | TI_None => "None"
  | TI_Ellipsis => "..."
  | TI_Integer integer _ => pretty integer
  | TI_Boolean boolean => if boolean then "true" else "false"
  | TI_Slice slice => print_Slice slice
  | TI_Tensor tensor => print_tensor tensor
  end.

(** The loop of [operator<<] for a vector of descriptors (lines 38-41) from
    position [i] on; [size] is [tensor_indices.size()], and the bound
    [size - 1] of the separator test is computed in [size_t]. *)
Fixpoint print_indices_loop (print_tensor : TensorImpl -> string) (size i : Z)
    (rest : list TensorIndex) : string :=
  match rest with
  | [] => ""
  | tensor_index :: rest =>
    print_TensorIndex print_tensor tensor_index
    +:+ (if decide (i < wrap_size_t (size - 1)) then ", " else "")
    +:+ print_indices_loop print_tensor size (i + 1) rest
  end.

(** [operator<<] for a vector of descriptors (lines 36-44). *)
Definition print_indices (print_tensor : TensorImpl -> string)
    (tensor_indices : list TensorIndex) : string :=
  "(" +:+ print_indices_loop print_tensor (Z.of_nat (length tensor_indices)) 0 tensor_indices
  +:+ ")".

(** ** Notions used by the statements *)

(** The store [w'] is [w] after allocations only: identities are handed out
    in increasing order and what was allocated in [w] is left as it was. *)
Definition extends (w w' : World) : Prop :=
  (next_id w <= next_id w')%nat /\
  forall sid, (sid < next_id w)%nat -> storages w' !! sid = storages w !! sid.

(** A computation that only allocates, whatever its outcome. *)
Definition allocates_only {A} (m : M A) : Prop :=
  forall w r w', m w = (r, w') -> extends w w'.

(** The tensor lives in the store and all its elements can be read. *)
Definition readable (w : World) (t : TensorImpl) : Prop :=
  (storage_id t < next_id w)%nat /\ is_Some (elements w t).

(** The rule of the specification for the dimension counter: the source
    dimensions one descriptor consumes. *)
Definition spec_consumed (obj : TensorIndex) : Z :=
  match obj with
  | TI_None | TI_Ellipsis | TI_Boolean _ => 0
  | TI_Tensor t => if is_mask_type (scalar_type t) then dim t else 1
  | TI_Integer _ _ | TI_Slice _ => 1
  end.

(** The rule of the specification summed over a descriptor list. *)
Definition spec_count (indices : list TensorIndex) : Z :=
  foldr (fun obj acc => spec_consumed obj + acc) 0 indices.

(** The descriptor lists that [get_item] and [set_item] both answer on a
    fast path although they consume a dimension: one integer or one slice. *)
Definition single_basic (indices : list TensorIndex) : bool :=
  match indices with
  | [TI_Integer _ _] | [TI_Slice _] => true
  | _ => false
  end.

(** The descriptor lists that [get_item] answers on its fast path. *)
Definition get_fast_path (indices : list TensorIndex) : bool :=
  match indices with
  | [TI_None] | [TI_Ellipsis] | [TI_Integer _ _] | [TI_Slice _] => true
  | _ => false
  end.

(** The descriptor lists that [set_item] answers on its fast path. *)
Definition set_fast_path (indices : list TensorIndex) : bool :=
  match indices with
  | [TI_Boolean _] | [TI_Ellipsis] | [TI_None] | [TI_Integer _ _] | [TI_Slice _] => true
  | _ => false
  end.

(** Shape [sz] broadcasts to [target]: aligned at the last dimension, every
    size either agrees with the target's or is 1. *)
Definition broadcastable (sz target : list Z) : Prop :=
  (length sz <= length target)%nat /\
  Forall2 (fun s t => s = t \/ s = 1) sz (drop (length target - length sz) target).

(** A descriptor that puts an entry on the pending index list: a boolean,
    or an index array other than a 0-dimensional array of an integral,
    non-mask dtype (which is processed as an integer). *)
Definition is_advanced (obj : TensorIndex) : bool :=
  match obj with
  | TI_Boolean _ => true
  | TI_Tensor t =>
    negb (bool_decide (dim t = 0) && isIntegralType (scalar_type t) true
          && (bool_decide (scalar_type t <> kByte) && bool_decide (scalar_type t <> kBool)))
  | _ => false
  end.

(** The number of defined entries of a pending index list. *)
Definition defined_count (outIndices : list Tensor) : nat :=
  length (omap id outIndices).

(** The store [w'] is [w] after allocations and writes to the storage
    [sid]: no cell of another storage that existed in [w] has changed, and
    no storage that existed in [w] has changed its size. *)
Definition touches_only (sid : nat) (w w' : World) : Prop :=
  (next_id w <= next_id w')%nat /\
  forall s, (s < next_id w)%nat ->
    (s <> sid -> storages w' !! s = storages w !! s) /\
    length <$> storages w' !! s = length <$> storages w !! s.

(** A computation that, whatever its outcome, only allocates and writes to
    the storage [sid]. *)
Definition writes_only {A} (sid : nat) (m : M A) : Prop :=
  forall w r w', m w = (r, w') -> touches_only sid w w'.

(** The change of rank one descriptor brings about in the basic view:
    None and a boolean (also as a 0-dimensional mask) insert a dimension, an
    integer (also as a 0-dimensional integer array) removes one. *)
Definition rank_change (obj : TensorIndex) : Z :=
  match obj with
  | TI_None | TI_Boolean _ => 1
  | TI_Integer _ _ => -1
  | TI_Ellipsis | TI_Slice _ => 0
  | TI_Tensor t =>
    if bool_decide (dim t = 0) && isIntegralType (scalar_type t) true then
      if bool_decide (scalar_type t <> kByte) && bool_decide (scalar_type t <> kBool)
      then -1 else 1
    else 0
  end.

(** The change of rank of a descriptor list. *)
Definition rank_changes (indices : list TensorIndex) : Z :=
  foldr (fun obj acc => rank_change obj + acc) 0 indices.

(** Two tensor objects that are the same view: they differ in identity at
    most. *)
Definition same_view (r r' : TensorImpl) : Prop :=
  storage_id r = storage_id r' /\ storage_offset r = storage_offset r' /\
  sizes r = sizes r' /\ strides r = strides r' /\
  scalar_type r = scalar_type r' /\ device r = device r'.

(** A descriptor that is processed without looking at any tensor: None,
    Ellipsis, an integer or a slice. *)
Definition is_plain (obj : TensorIndex) : bool :=
  match obj with
  | TI_None | TI_Ellipsis | TI_Integer _ _ | TI_Slice _ => true
  | TI_Boolean _ | TI_Tensor _ => false
  end.

(** The number of Ellipsis descriptors of a descriptor list. *)
Definition ellipsis_count (indices : list TensorIndex) : nat :=
  sum_list_with (fun obj => match obj with TI_Ellipsis => 1%nat | _ => 0%nat end) indices.

(** ** Example stores and tensors *)

(** A store with four storages and six tensors: a 2 x 3 long tensor
    [ex_a], a long index array [ex_ix] holding [2, 0], a 0-dimensional
    tensor [ex_scalar], a 1 x 2 view [ex_value] of the storage of [ex_ix],
    the first row of [ex_a] as a 1 x 3 view [ex_row], all on the CPU, and a
    2 x 3 long tensor [ex_gpu] on a GPU. *)
Definition ex_world : World :=
  mkWorld 10
    {[ 0%nat := [10; 11; 12; 13; 14; 15]; 2%nat := [2; 0]; 4%nat := [7];
       8%nat := [20; 21; 22; 23; 24; 25] ]}.

Definition ex_a : TensorImpl := mkTensor 1 0 0 [2; 3] [3; 1] kLong kCPU.

Definition ex_ix : TensorImpl := mkTensor 3 2 0 [2] [1] kLong kCPU.

Definition ex_scalar : TensorImpl := mkTensor 5 4 0 [] [] kLong kCPU.

Definition ex_value : TensorImpl := mkTensor 6 2 0 [1; 2] [2; 1] kLong kCPU.

Definition ex_row : TensorImpl := mkTensor 7 0 0 [1; 3] [3; 1] kLong kCPU.

Definition ex_gpu : TensorImpl := mkTensor 9 8 0 [2; 3] [3; 1] kLong (kCUDA 0).

(** ** The store-passing monad *)

Lemma bind_ok {A B} (m : M A) (k : A -> M B) w a w' :
  m w = (Ok a, w') -> bind m k w = k a w'.
Proof. unfold bind. intros ->. reflexivity. Qed.

Lemma bind_fail {A B} (m : M A) (k : A -> M B) w e w' :
  m w = (Fail e, w') -> bind m k w = (Fail e, w').
Proof. unfold bind. intros ->. reflexivity. Qed.

Lemma bind_inv {A B} (m : M A) (k : A -> M B) w r w' :
  bind m k w = (r, w') ->
  (exists a w1, m w = (Ok a, w1) /\ k a w1 = (r, w')) \/
  (exists e, m w = (Fail e, w') /\ r = Fail e).
Proof.
  unfold bind. destruct (m w) as [[a|e] w1]; intros H.
  - left. eauto.
  - right. inversion H; subst. eauto.
Qed.

Lemma extends_refl w : extends w w.
Proof. split; [lia | auto]. Qed.

Lemma extends_trans w1 w2 w3 : extends w1 w2 -> extends w2 w3 -> extends w1 w3.
Proof.
  intros [H1 H2] [H3 H4]. split; [lia |].
  intros sid Hs. rewrite H4 by lia. auto.
Qed.

Lemma allocates_only_ret {A} (a : A) : allocates_only (ret a).
Proof. intros w r w' H. inversion H; subst. apply extends_refl. Qed.

Lemma allocates_only_throw {A} e : allocates_only (@throw A e).
Proof. intros w r w' H. inversion H; subst. apply extends_refl. Qed.

Lemma allocates_only_bind {A B} (m : M A) (k : A -> M B) :
  allocates_only m -> (forall a, allocates_only (k a)) -> allocates_only (bind m k).
Proof.
  intros Hm Hk w r w' H. apply bind_inv in H as [(a & w1 & H1 & H2) | (e & H1 & _)].
  - eapply extends_trans; [eapply Hm | eapply Hk]; eauto.
  - eapply Hm; eauto.
Qed.

Lemma allocates_only_lift_option {A} (o : option A) : allocates_only (lift_option o).
Proof. destruct o; [apply allocates_only_ret | apply allocates_only_throw]. Qed.

Lemma allocates_only_get_world : allocates_only get_world.
Proof. intros w r w' H. inversion H; subst. apply extends_refl. Qed.

Lemma allocates_only_fresh : allocates_only fresh.
Proof. intros w r w' H. inversion H; subst. split; simpl; [lia | auto]. Qed.

Lemma allocates_only_new_storage data : allocates_only (new_storage data).
Proof.
  intros w r w' H. inversion H; subst. split; simpl; [lia |].
  intros sid Hs. apply lookup_insert_ne. lia.
Qed.

Create HintDb alloc.

#[local] Hint Resolve allocates_only_ret allocates_only_throw allocates_only_lift_option
  allocates_only_get_world allocates_only_fresh allocates_only_new_storage : alloc.

Ltac alloc_steps :=
  repeat first
    [ apply allocates_only_bind; [| intros ? ]
    | progress eauto with alloc
    | match goal with
      | |- allocates_only (if ?c then _ else _) => destruct c
      | |- allocates_only (match ?x with _ => _ end) => destruct x
      | |- allocates_only (let '(_, _) := ?x in _) => destruct x
      end ].

Lemma allocates_only_new_tensor shape data o : allocates_only (new_tensor shape data o).
Proof. unfold new_tensor. alloc_steps. Qed.

Lemma allocates_only_alias t : allocates_only (alias t).
Proof. unfold alias. alloc_steps. Qed.

Lemma allocates_only_unsqueeze t d : allocates_only (unsqueeze t d).
Proof. unfold unsqueeze. alloc_steps. Qed.

Lemma allocates_only_applySelect t d i it rd : allocates_only (applySelect t d i it rd).
Proof. unfold applySelect, select. alloc_steps. Qed.

Lemma allocates_only_applySlice t d a b c ta tb tc f :
  allocates_only (applySlice t d a b c ta tb tc f).
Proof. unfold applySlice, slice_view. alloc_steps. Qed.

Lemma allocates_only_item t : allocates_only (item t).
Proof. unfold item. alloc_steps. Qed.

Lemma allocates_only_boolToIndexingTensor t b : allocates_only (boolToIndexingTensor t b).
Proof.
  unfold boolToIndexingTensor, zeros, empty.
  destruct b; apply allocates_only_new_tensor.
Qed.

Lemma allocates_only_to t o : allocates_only (to t o).
Proof. unfold to. pose proof allocates_only_new_tensor. alloc_steps. Qed.

#[local] Hint Resolve allocates_only_new_tensor allocates_only_alias allocates_only_unsqueeze
  allocates_only_applySelect allocates_only_applySlice allocates_only_item
  allocates_only_boolToIndexingTensor allocates_only_to : alloc.

Lemma allocates_only_applySlicing_step self sd i obj st :
  allocates_only (applySlicing_step self sd i obj st).
Proof.
  destruct st as [[result d] out]. unfold applySlicing_step, handle_tensor.
  destruct obj; alloc_steps.
Qed.

Lemma allocates_only_applySlicing_loop self sd indices :
  forall i st, allocates_only (applySlicing_loop self sd i indices st).
Proof.
  induction indices as [|obj rest IH]; intros i st; simpl.
  - apply allocates_only_ret.
  - apply allocates_only_bind; [apply allocates_only_applySlicing_step | intros; apply IH].
Qed.

Lemma allocates_only_applySlicing self indices out :
  allocates_only (applySlicing self indices out).
Proof.
  unfold applySlicing. pose proof allocates_only_applySlicing_loop. alloc_steps.
Qed.

(** ** The dimension counter *)

Lemma count_specified_dimensions_from (indices : list TensorIndex) : forall acc,
  foldl
    (fun count obj =>
       match obj with
       | TI_Tensor tensor =>
         if bool_decide (scalar_type tensor = kByte) || bool_decide (scalar_type tensor = kBool)
         then count + dim tensor
         else count + 1
       | TI_None | TI_Ellipsis | TI_Boolean _ => count
       | TI_Integer _ _ | TI_Slice _ => count + 1
       end)
    acc indices = acc + spec_count indices.
Proof.
  induction indices as [|obj rest IH]; intros acc; simpl.
  - lia.
  - rewrite IH. unfold spec_consumed, is_mask_type.
    destruct obj; try lia.
    destruct (bool_decide _ || bool_decide _); lia.
Qed.

Lemma count_specified_dimensions_spec indices :
  count_specified_dimensions indices = spec_count indices.
Proof. unfold count_specified_dimensions. rewrite count_specified_dimensions_from. lia. Qed.

Lemma applySlicing_too_many self indices out w :
  dim self < count_specified_dimensions indices ->
  applySlicing self indices out w = (Fail IndexingArityError, w).
Proof.
  intros H. unfold applySlicing.
  destruct (decide (count_specified_dimensions indices <= dim self)); [lia | reflexivity].
Qed.

Lemma get_item_general self indices :
  get_fast_path indices = false ->
  get_item self indices =
    (let* (sliced, tensorIndices) := applySlicing self indices [] in
     match tensorIndices with
     | [] => if is_same sliced self then alias sliced else ret sliced
     | _ => dispatch_index sliced tensorIndices
     end).
Proof.
  intros H. unfold get_item.
  destruct indices as [|[] [|]]; simpl in H; try discriminate; reflexivity.
Qed.

Lemma set_item_general self indices value :
  set_fast_path indices = false ->
  set_item self indices value =
    (let* (sliced, tensorIndices) := applySlicing self indices [] in
     match tensorIndices with
     | [] => copy_to sliced value
     | _ =>
       let slicedValueSizes := slicePrefix1sSize (sizes value) in
       let* valuesSliced :=
         (if decide (sizes value <> slicedValueSizes) then view value slicedValueSizes
          else ret value) in
       let* _ := dispatch_index_put_ sliced tensorIndices valuesSliced in
       ret tt
     end).
Proof.
  intros H. unfold set_item.
  destruct indices as [|[| | | [] | |] [|]]; simpl in H; try discriminate; reflexivity.
Qed.

Lemma count_positive_general indices :
  0 < count_specified_dimensions indices -> single_basic indices = false ->
  get_fast_path indices = false /\ set_fast_path indices = false.
Proof.
  intros Hc Hs. destruct indices as [|[] [|]]; simpl in *; try discriminate; auto;
    vm_compute in Hc; discriminate.
Qed.

(** The select and slice helpers on a source without dimensions. *)
Lemma applySelect_rank0 self d index it rd w :
  dim self = 0 -> applySelect self d index it rd w = (Fail IndexingArityError, w).
Proof. intros H. unfold applySelect. rewrite decide_True by exact H. reflexivity. Qed.

Lemma applySlice_rank0 self d a b c ta tb tc f w :
  dim self = 0 -> applySlice self d a b c ta tb tc f w = (Fail IndexingArityError, w).
Proof. intros H. unfold applySlice. rewrite decide_True by exact H. reflexivity. Qed.

(** A single integer or slice counts 1: the count exceeds the rank on a
    source without dimensions only. *)
Lemma single_basic_too_many self indices :
  single_basic indices = true -> dim self < count_specified_dimensions indices ->
  dim self = 0.
Proof.
  intros Hs Hc. rewrite count_specified_dimensions_spec in Hc.
  destruct indices as [|[] [|]]; try discriminate Hs;
    unfold spec_count in Hc; simpl in Hc; unfold dim in *; lia.
Qed.

Lemma get_item_too_many self indices w :
  dim self < count_specified_dimensions indices ->
  get_item self indices w = (Fail IndexingArityError, w).
Proof.
  intros Hc. destruct (single_basic indices) eqn:Hs.
  - pose proof (single_basic_too_many _ _ Hs Hc) as H0.
    destruct indices as [|[| | integer tensor | b | s | t] [|]]; try discriminate Hs;
      unfold get_item; [apply applySelect_rank0 | apply applySlice_rank0]; exact H0.
  - assert (0 < count_specified_dimensions indices) as H0 by (unfold dim in Hc; lia).
    destruct (count_positive_general _ H0 Hs) as [Hg _].
    rewrite get_item_general by assumption.
    erewrite bind_fail; [reflexivity | apply applySlicing_too_many; assumption].
Qed.

Lemma set_item_too_many self indices value w :
  dim self < count_specified_dimensions indices ->
  set_item self indices value w = (Fail IndexingArityError, w).
Proof.
  intros Hc. destruct (single_basic indices) eqn:Hs.
  - pose proof (single_basic_too_many _ _ Hs Hc) as H0.
    destruct indices as [|[| | integer tensor | b | s | t] [|]]; try discriminate Hs;
      unfold set_item; apply bind_fail;
      [apply applySelect_rank0 | apply applySlice_rank0]; exact H0.
  - assert (0 < count_specified_dimensions indices) as H0 by (unfold dim in Hc; lia).
    destruct (count_positive_general _ H0 Hs) as [_ Hm].
    rewrite set_item_general by assumption.
    erewrite bind_fail; [reflexivity | apply applySlicing_too_many; assumption].
Qed.

Lemma valueToTensor_run o v w :
  valueToTensor o v w =
    (Ok (mkTensor (S (next_id w)) (next_id w) 0 [] [] (opt_dtype o) (opt_device o)),
     mkWorld (S (S (next_id w))) (<[next_id w := [cast_to (opt_dtype o) v]]> (storages w))).
Proof. reflexivity. Qed.

Lemma extends_valueToTensor o v w :
  extends w (mkWorld (S (S (next_id w))) (<[next_id w := [cast_to (opt_dtype o) v]]> (storages w))).
Proof. split; simpl; [lia | intros; apply lookup_insert_ne; lia]. Qed.

(** C2.  The dimension counter follows the rule of the specification: a
    None, an Ellipsis and a Boolean count 0, a byte or boolean index array
    counts its own rank, every other descriptor counts 1.  When the count
    exceeds the rank of the indexed tensor, [get_item] and both overloads
    of [set_item] fail with the indexing-arity error, for every descriptor
    list: a list that takes the general path fails at the check of
    [applySlicing] before any primitive is called, and a single integer or
    slice, which the fast path hands over without counting, exceeds the
    rank of a source without dimensions only, where the select or slice
    helper fails.  The array-valued calls leave the store as it was, the
    scalar-valued call has only allocated the converted scalar. *)
Theorem count_specified_dimensions_arity self indices value v w :
  count_specified_dimensions indices = spec_count indices /\
  (dim self < count_specified_dimensions indices ->
   get_item self indices w = (Fail IndexingArityError, w) /\
   set_item self indices value w = (Fail IndexingArityError, w) /\
   exists w', set_item_scalar self indices v w = (Fail IndexingArityError, w') /\ extends w w').
Proof.
  split; [apply count_specified_dimensions_spec |].
  intros Hc. split; [| split].
  - apply get_item_too_many. exact Hc.
  - apply set_item_too_many. exact Hc.
  - unfold set_item_scalar.
    destruct (isQIntType (scalar_type self)); eexists;
      (split;
       [ erewrite bind_ok;
         [apply set_item_too_many; assumption | apply valueToTensor_run]
       | apply extends_valueToTensor ]).
Qed.

Lemma count_specified_dimensions_arity_witness :
  (dim ex_a = 2 /\
   count_specified_dimensions [TI_Integer 0 None; TI_Integer 0 None; TI_Integer 0 None] = 3 /\
   get_item ex_a [TI_Integer 0 None; TI_Integer 0 None; TI_Integer 0 None] ex_world
     = (Fail IndexingArityError, ex_world) /\
   set_item ex_a [TI_Integer 0 None; TI_Integer 0 None; TI_Integer 0 None] ex_value ex_world
     = (Fail IndexingArityError, ex_world) /\
   exists w',
     set_item_scalar ex_a [TI_Integer 0 None; TI_Integer 0 None; TI_Integer 0 None] 7 ex_world
     = (Fail IndexingArityError, w') /\ extends ex_world w') /\
  (dim ex_scalar = 0 /\
   count_specified_dimensions [TI_Slice (mkSlice 0 1 1 None None None)] = 1 /\
   get_item ex_scalar [TI_Slice (mkSlice 0 1 1 None None None)] ex_world
     = (Fail IndexingArityError, ex_world) /\
   set_item ex_scalar [TI_Slice (mkSlice 0 1 1 None None None)] ex_value ex_world
     = (Fail IndexingArityError, ex_world)).
Proof.
  split.
  - destruct (count_specified_dimensions_arity ex_a
                [TI_Integer 0 None; TI_Integer 0 None; TI_Integer 0 None] ex_value 7 ex_world)
      as [_ H].
    destruct H as (Hg & Hs & Hv); [vm_compute; reflexivity |].
    split; [reflexivity |]. split; [reflexivity |].
    split; [exact Hg |]. split; [exact Hs | exact Hv].
  - destruct (count_specified_dimensions_arity ex_scalar
                [TI_Slice (mkSlice 0 1 1 None None None)] ex_value 7 ex_world) as [_ H].
    destruct H as (Hg & Hs & _); [vm_compute; reflexivity |].
    split; [reflexivity |]. split; [reflexivity |]. split; [exact Hg | exact Hs].
Defined.

(** ** The slicing applier *)

Lemma handle_tensor_spec tensor d out :
  0 <= d ->
  let out' := (handle_tensor tensor d out).2 in
  (handle_tensor tensor d out).1 = d + 1 /\
  length out' = (Z.to_nat d + 1)%nat /\
  out' !! Z.to_nat d = Some (Some tensor) /\
  take (Z.to_nat d) out' = resize (Z.to_nat d) None out.
Proof.
  intros Hd. unfold handle_tensor. simpl.
  replace (Z.to_nat (d + 1)) with (S (Z.to_nat d)) by lia.
  split; [reflexivity |]. split; [| split].
  - rewrite length_insert, length_resize. lia.
  - apply list_lookup_insert_eq. rewrite length_resize. lia.
  - rewrite take_insert_ge by lia. apply take_resize_le. lia.
Qed.

(** C1 (as amended).  When the slicing applier processes an index array
    that is not 0-dimensional, the array is stored unmodified at position
    [dim] of the pending index list, which as a result has length [dim + 1]
    and keeps its entries below [dim] (holes where it was shorter); the
    running result is the same object, no primitive is called and the store
    is as before; the cursor [dim] advances by one. *)
Theorem applySlicing_step_index_array self specified_dims i tensor result d outIndices w :
  dim tensor <> 0 -> 0 <= d ->
  exists outIndices',
    applySlicing_step self specified_dims i (TI_Tensor tensor) (result, d, outIndices) w
      = (Ok (result, d + 1, outIndices'), w) /\
    length outIndices' = (Z.to_nat d + 1)%nat /\
    outIndices' !! Z.to_nat d = Some (Some tensor) /\
    take (Z.to_nat d) outIndices' = resize (Z.to_nat d) None outIndices.
Proof.
  intros Hrank Hd.
  exists (handle_tensor tensor d outIndices).2.
  destruct (handle_tensor_spec tensor d outIndices Hd) as (H1 & H2 & H3 & H4).
  split; [| auto].
  unfold applySlicing_step.
  rewrite bool_decide_eq_false_2 by assumption. simpl.
  reflexivity.
Qed.

Lemma applySlicing_step_index_array_witness :
  exists outIndices',
    applySlicing_step ex_a 1 0 (TI_Tensor ex_ix) (ex_a, 0, []) ex_world
      = (Ok (ex_a, 0 + 1, outIndices'), ex_world) /\
    length outIndices' = (Z.to_nat 0 + 1)%nat /\
    outIndices' !! Z.to_nat 0 = Some (Some ex_ix) /\
    take (Z.to_nat 0) outIndices' = resize (Z.to_nat 0) None [].
Proof.
  apply (applySlicing_step_index_array ex_a 1 0 ex_ix ex_a 0 [] ex_world).
  - vm_compute. discriminate.
  - lia.
Defined.

(** C1, as stated, fails: after a 1-dimensional index array is processed at
    cursor 0 the cursor is 1, not 0. *)
Lemma index_array_advances_cursor :
  dim ex_ix = 1 /\
  applySlicing_step ex_a 1 0 (TI_Tensor ex_ix) (ex_a, 0, []) ex_world
    = (Ok (ex_a, 1, [Some ex_ix]), ex_world) /\
  ~ (exists result outIndices w,
       applySlicing_step ex_a 1 0 (TI_Tensor ex_ix) (ex_a, 0, []) ex_world
         = (Ok (result, 0, outIndices), w)).
Proof.
  split; [reflexivity |]. split; [reflexivity |].
  intros (result & out & w & H). vm_compute in H. discriminate.
Qed.

(** *** What the view primitives return *)

Lemma unsqueeze_run t d w :
  0 <= d <= dim t ->
  unsqueeze t d w =
    (Ok (mkTensor (next_id w) (storage_id t) (storage_offset t)
           (insert_at (Z.to_nat d) 1 (sizes t)) (insert_at (Z.to_nat d) 1 (strides t))
           (scalar_type t) (device t)),
     mkWorld (S (next_id w)) (storages w)).
Proof.
  intros Hd. unfold unsqueeze, wrap_index.
  rewrite decide_True by lia. reflexivity.
Qed.

Lemma unsqueeze_front t w :
  unsqueeze t 0 w =
    (Ok (mkTensor (next_id w) (storage_id t) (storage_offset t)
           (1 :: sizes t) (1 :: strides t) (scalar_type t) (device t)),
     mkWorld (S (next_id w)) (storages w)).
Proof. rewrite unsqueeze_run by (unfold dim; lia). reflexivity. Qed.

Lemma alias_run t w :
  alias t w =
    (Ok (mkTensor (next_id w) (storage_id t) (storage_offset t) (sizes t) (strides t)
           (scalar_type t) (device t)),
     mkWorld (S (next_id w)) (storages w)).
Proof. reflexivity. Qed.

Lemma unsqueeze_storage t d w r w' :
  unsqueeze t d w = (Ok r, w') -> storage_id r = storage_id t.
Proof.
  unfold unsqueeze, bind, lift_option, fresh, ret, throw.
  destruct (wrap_index d (dim t + 1)); simpl; intros H; inversion H; reflexivity.
Qed.

Lemma applySelect_storage t d i it rd w r w' :
  applySelect t d i it rd w = (Ok r, w') -> storage_id r = storage_id t.
Proof.
  unfold applySelect, select, bind, lift_option, fresh, ret, throw.
  destruct (decide (dim t = 0)); [discriminate |].
  destruct (wrap_index d (dim t)) as [k|]; simpl; [| discriminate].
  destruct (sizes t !! k) as [size|]; simpl; [| discriminate].
  destruct (wrap_index i size); simpl; intros H; inversion H; reflexivity.
Qed.

Lemma applySlice_storage t d a b c ta tb tc f w r w' :
  applySlice t d a b c ta tb tc f w = (Ok r, w') -> storage_id r = storage_id t.
Proof.
  unfold applySlice, slice_view, bind, lift_option, fresh, ret, throw.
  destruct (decide (dim t = 0)); [discriminate |].
  destruct (wrap_index d (dim t)) as [k|]; simpl; [| discriminate].
  destruct (sizes t !! k) as [size|]; simpl; [| discriminate].
  destruct (decide (c <= 0)); simpl; intros H; inversion H; reflexivity.
Qed.

Ltac bind_inv_ok H :=
  let a := fresh "a" in
  let w1 := fresh "w" in
  let H1 := fresh "H" in
  let e := fresh "e" in
  apply bind_inv in H as [(a & w1 & H1 & H) | (e & H1 & H)]; [| discriminate].

Lemma applySlicing_step_storage self sd i obj result d out w result' d' out' w' :
  applySlicing_step self sd i obj (result, d, out) w = (Ok (result', d', out'), w') ->
  storage_id result' = storage_id result.
Proof.
  unfold applySlicing_step, handle_tensor, ret. intros H. destruct obj.
  - bind_inv_ok H. inversion H; subst. eapply unsqueeze_storage; eauto.
  - inversion H; reflexivity.
  - bind_inv_ok H. inversion H; subst. eapply applySelect_storage; eauto.
  - bind_inv_ok H. bind_inv_ok H. inversion H; subst. eapply unsqueeze_storage; eauto.
  - bind_inv_ok H. inversion H; subst. eapply applySlice_storage; eauto.
  - destruct (bool_decide (dim tensor = 0) && isIntegralType (scalar_type tensor) true).
    + destruct (bool_decide (scalar_type tensor <> kByte)
                && bool_decide (scalar_type tensor <> kBool)).
      * bind_inv_ok H. bind_inv_ok H. inversion H; subst. eapply applySelect_storage; eauto.
      * bind_inv_ok H. bind_inv_ok H. bind_inv_ok H. inversion H; subst.
        eapply unsqueeze_storage; eauto.
    + inversion H; reflexivity.
Qed.

Lemma applySlicing_loop_storage self sd indices :
  forall i result d out w result' d' out' w',
    applySlicing_loop self sd i indices (result, d, out) w = (Ok (result', d', out'), w') ->
    storage_id result' = storage_id result.
Proof.
  induction indices as [|obj rest IH]; intros i result d out w result' d' out' w' H; simpl in H.
  - inversion H; reflexivity.
  - bind_inv_ok H. destruct a as [[r1 d1] o1].
    apply IH in H. apply applySlicing_step_storage in H0. congruence.
Qed.

Lemma applySlicing_storage self indices out w sliced out' w' :
  applySlicing self indices out w = (Ok (sliced, out'), w') ->
  storage_id sliced = storage_id self.
Proof.
  unfold applySlicing. destruct (decide _); [| discriminate].
  intros H. bind_inv_ok H. destruct a as [[r1 d1] o1]. inversion H; subst.
  eapply applySlicing_loop_storage; eauto.
Qed.

Lemma is_same_fresh (r a : TensorImpl) w :
  (impl_id a < next_id w)%nat -> (next_id w <= impl_id r)%nat -> is_same r a = false.
Proof. intros H1 H2. unfold is_same. apply Nat.eqb_neq. lia. Qed.

(** ** The read path *)

(** C10.  With an empty descriptor list the slicing applier returns the
    source itself and no pending index (its loop does nothing), the result
    is the same object as the source, and [get_item] therefore succeeds with
    a fresh alias: an object with a new identity that has the storage,
    offset, sizes and strides of the source.  For a source that lives in the
    store, the alias is not the same object. *)
Theorem get_item_empty a w :
  (impl_id a < next_id w)%nat ->
  applySlicing a [] [] w = (Ok (a, []), w) /\
  is_same a a = true /\
  exists r,
    get_item a [] w = (Ok r, mkWorld (S (next_id w)) (storages w)) /\
    impl_id r = next_id w /\
    is_same r a = false /\
    storage_id r = storage_id a /\ storage_offset r = storage_offset a /\
    sizes r = sizes a /\ strides r = strides a.
Proof.
  intros Ha.
  assert (applySlicing a [] [] w = (Ok (a, []), w)) as Hs.
  { unfold applySlicing. simpl.
    rewrite decide_True by (unfold count_specified_dimensions, dim; simpl; lia).
    reflexivity. }
  assert (is_same a a = true) as Hsame by (unfold is_same; apply Nat.eqb_refl).
  split; [exact Hs |]. split; [exact Hsame |].
  eexists. split.
  - unfold get_item. erewrite bind_ok by exact Hs. cbv beta iota.
    rewrite Hsame. apply alias_run.
  - simpl. split; [reflexivity |]. split; [| auto].
    apply (is_same_fresh _ _ w); simpl; lia.
Qed.

Lemma get_item_empty_witness :
  applySlicing ex_a [] [] ex_world = (Ok (ex_a, []), ex_world) /\
  is_same ex_a ex_a = true /\
  exists r,
    get_item ex_a [] ex_world = (Ok r, mkWorld (S (next_id ex_world)) (storages ex_world)) /\
    impl_id r = next_id ex_world /\
    is_same r ex_a = false /\
    storage_id r = storage_id ex_a /\ storage_offset r = storage_offset ex_a /\
    sizes r = sizes ex_a /\ strides r = strides ex_a.
Proof. apply (get_item_empty ex_a ex_world). vm_compute. lia. Defined.

(** *** Reading through a view *)

(** The elements of a view only depend on the contents of its storage and
    on its offset, sizes and strides. *)
Lemma elements_same_view w w' t t' :
  storages w' !! storage_id t' = storages w !! storage_id t ->
  storage_offset t' = storage_offset t -> sizes t' = sizes t -> strides t' = strides t ->
  elements w' t' = elements w t.
Proof.
  intros Hs Ho Hz Hr. unfold elements. rewrite Hz.
  apply mapM_ext. intros idx. unfold read_at, location, read_cell.
  rewrite Hs, Ho, Hr. reflexivity.
Qed.

Lemma elements_extends w w' t :
  extends w w' -> (storage_id t < next_id w)%nat -> elements w' t = elements w t.
Proof. intros [_ H] Ht. apply elements_same_view; auto. Qed.

Lemma readable_extends w w' t : extends w w' -> readable w t -> readable w' t.
Proof.
  intros He [Ht Hr]. split.
  - destruct He. lia.
  - rewrite (elements_extends w w') by assumption. exact Hr.
Qed.

Lemma mapM_fmap_compose {A B C} (f : B -> option C) (g : A -> B) (l : list A) :
  mapM f (g <$> l) = mapM (f ∘ g) l.
Proof.
  induction l as [|x l IH]; csimpl; [reflexivity |].
  unfold compose at 1. destruct (f (g x)); csimpl; [| reflexivity].
  f_equal. exact IH.
Qed.

(** *** Row-major tensors *)

Lemma numel_nonneg shape : Forall (fun s => 0 <= s) shape -> 0 <= numel shape.
Proof.
  intros H. induction H as [|s shape Hs Hshape IH].
  - simpl. lia.
  - change (numel (s :: shape)) with (s * numel shape).
    apply Z.mul_nonneg_nonneg; assumption.
Qed.

Lemma seqZ_blocks N base (k : nat) :
  0 <= N ->
  seqZ 0 (Z.of_nat k) ≫= (fun i => seqZ (base + i * N) N) = seqZ base (Z.of_nat k * N).
Proof.
  intros HN. induction k as [|k IH].
  - reflexivity.
  - rewrite seqZ_S, bind_app, IH, bind_singleton.
    replace (Z.of_nat (S k) * N) with (Z.of_nat k * N + N) by lia.
    rewrite seqZ_app by nia. do 2 f_equal; lia.
Qed.

Lemma fmap_list_bind {A B C} (f : B -> C) (g : A -> list B) (l : list A) :
  f <$> (l ≫= g) = l ≫= (fun x => f <$> g x).
Proof.
  induction l as [|x l IH]; [reflexivity |].
  rewrite !bind_cons, fmap_app, IH. reflexivity.
Qed.

(** The positions of a row-major tensor are laid out one after the other. *)
Lemma locations_contiguous shape :
  Forall (fun s => 0 <= s) shape ->
  forall base,
    (fun m => base + dot m (contiguous_strides shape)) <$> all_indices shape
    = seqZ base (numel shape).
Proof.
  induction 1 as [|n rest Hn Hrest IH]; intros base.
  - simpl. rewrite seqZ_cons by lia. rewrite seqZ_nil by lia. f_equal. lia.
  - cbn [all_indices contiguous_strides]. rewrite fmap_list_bind.
    rewrite (list_bind_ext _ (fun i => seqZ (base + i * numel rest) (numel rest))
               _ (seqZ 0 n)); [| | reflexivity].
    + rewrite <- (Z2Nat.id n) at 1 by lia.
      rewrite seqZ_blocks by (apply numel_nonneg; assumption).
      rewrite Z2Nat.id by lia. reflexivity.
    + intros i. rewrite <- list_fmap_compose. rewrite <- IH.
      apply list_fmap_ext. intros ? m _. simpl. lia.
Qed.

Lemma all_indices_count shape :
  Forall (fun s => 0 <= s) shape -> length (all_indices shape) = Z.to_nat (numel shape).
Proof.
  intros H. rewrite <- (length_seqZ 0), <- (locations_contiguous shape H 0).
  rewrite length_fmap. reflexivity.
Qed.

Lemma elements_contiguous w sid shape data id dt dev :
  Forall (fun s => 0 <= s) shape ->
  storages w !! sid = Some data -> length data = Z.to_nat (numel shape) ->
  elements w (mkTensor id sid 0 shape (contiguous_strides shape) dt dev) = Some data.
Proof.
  intros Hshape Hsid Hlen. unfold elements. cbn [sizes].
  rewrite (mapM_ext _ ((fun loc => read_cell w sid loc)
                       ∘ (fun m => 0 + dot m (contiguous_strides shape)))) by reflexivity.
  rewrite <- mapM_fmap_compose, locations_contiguous by assumption.
  apply mapM_Some_2. apply Forall2_same_length_lookup_2.
  - rewrite length_seqZ. lia.
  - intros i x y Hx Hy. apply lookup_seqZ in Hx as [-> Hi].
    unfold read_cell. rewrite decide_True by lia. rewrite Hsid. simpl.
    replace (Z.to_nat (0 + Z.of_nat i)) with i by lia. exact Hy.
Qed.

Lemma elements_new_tensor shape data o w :
  Forall (fun s => 0 <= s) shape -> length data = Z.to_nat (numel shape) ->
  exists t w',
    new_tensor shape data o w = (Ok t, w') /\ extends w w' /\
    sizes t = shape /\ scalar_type t = opt_dtype o /\ device t = opt_device o /\
    (storage_id t < next_id w')%nat /\
    elements w' t = Some data.
Proof.
  intros Hshape Hlen. do 2 eexists. split; [reflexivity |].
  split; [split; simpl; [lia | intros; apply lookup_insert_ne; lia] |].
  do 3 (split; [reflexivity |]).
  split; [simpl; lia |].
  apply elements_contiguous; [assumption | | assumption].
  simpl. apply lookup_insert_eq.
Qed.

Lemma elements_length w t vals :
  Forall (fun s => 0 <= s) (sizes t) -> elements w t = Some vals ->
  length vals = Z.to_nat (numel (sizes t)).
Proof.
  intros Hs Hv. apply length_mapM in Hv. rewrite <- Hv. apply all_indices_count. assumption.
Qed.

(** ** The write path *)

(** C6.  [set_item] with the single descriptor Boolean(false) returns
    successfully.  With an assigned tensor the store is left exactly as it
    was.  With an assigned scalar the only effect is the allocation of the
    converted scalar: every storage that existed keeps its contents, so a
    tensor [a] that lives in the store keeps its storage and its elements. *)
Theorem set_item_false_noop a value v w :
  (storage_id a < next_id w)%nat ->
  set_item a [TI_Boolean false] value w = (Ok tt, w) /\
  exists w',
    set_item_scalar a [TI_Boolean false] v w = (Ok tt, w') /\
    extends w w' /\
    storages w' !! storage_id a = storages w !! storage_id a /\
    elements w' a = elements w a.
Proof.
  intros Ha. split; [reflexivity |].
  unfold set_item_scalar.
  destruct (isQIntType (scalar_type a)); eexists;
    (split; [erewrite bind_ok by apply valueToTensor_run; reflexivity |]);
    (split; [apply extends_valueToTensor |]);
    (split; [| apply elements_same_view; auto]); simpl; apply lookup_insert_ne; lia.
Qed.

Lemma set_item_false_noop_witness :
  set_item ex_a [TI_Boolean false] ex_value ex_world = (Ok tt, ex_world) /\
  exists w',
    set_item_scalar ex_a [TI_Boolean false] 9 ex_world = (Ok tt, w') /\
    extends ex_world w' /\
    storages w' !! storage_id ex_a = storages ex_world !! storage_id ex_a /\
    elements w' ex_a = elements ex_world ex_a.
Proof. apply (set_item_false_noop ex_a ex_value 9 ex_world). vm_compute. lia. Defined.

(** C8.  [set_item] with a scalar converts the scalar to a 0-dimensional
    tensor, holding the scalar converted to the dtype, and then runs the
    array-valued [set_item] with it.  The tensor has the dtype and the
    device of the destination, except for a destination of a quantized
    dtype, for which it is a float tensor on the CPU. *)
Theorem set_item_scalar_converts self indices v w :
  exists value w',
    (if isQIntType (scalar_type self)
     then valueToTensor (mkOptions kFloat kCPU) v w = (Ok value, w') /\
          scalar_type value = kFloat /\ device value = kCPU
     else valueToTensor (options self) v w = (Ok value, w') /\
          scalar_type value = scalar_type self /\ device value = device self) /\
    dim value = 0 /\
    elements w' value = Some [cast_to (scalar_type value) v] /\
    set_item_scalar self indices v w = set_item self indices value w'.
Proof.
  unfold set_item_scalar.
  destruct (isQIntType (scalar_type self)); do 2 eexists;
    (split; [split; [apply valueToTensor_run | split; reflexivity] |]);
    (split; [reflexivity |]);
    (split; [| erewrite bind_ok by apply valueToTensor_run; reflexivity]).
  - unfold elements, read_at, read_cell, location. simpl.
    rewrite lookup_insert_eq. reflexivity.
  - unfold elements, read_at, read_cell, location. simpl.
    rewrite lookup_insert_eq. reflexivity.
Qed.

(** *** New axis and select *)

Lemma select_front_unit t w :
  sizes t !! 0%nat = Some 1 ->
  select t 0 0 w =
    (Ok (mkTensor (next_id w) (storage_id t) (storage_offset t)
           (tail (sizes t)) (tail (strides t)) (scalar_type t) (device t)),
     mkWorld (S (next_id w)) (storages w)).
Proof.
  intros Hs. unfold select, wrap_index.
  assert (0 < dim t) as Hd.
  { unfold dim. destruct (sizes t); [discriminate | simpl; lia]. }
  rewrite decide_True by lia. simpl. unfold bind at 1. simpl.
  replace (sizes t !! Z.to_nat 0) with (Some 1) by (symmetry; exact Hs).
  simpl. unfold bind, fresh, ret. simpl.
  repeat f_equal. change (Z.to_nat 0) with 0%nat. simpl. lia.
Qed.

(** C9.  [get_item] with the single descriptor None returns a view of rank
    [a.rank + 1] whose sizes are a 1 followed by the sizes of [a]; selecting
    index 0 on dimension 0 of that view, by [get_item] with the single
    integer 0, returns a view of the storage of [a] with the offset, sizes,
    strides, dtype and device of [a], hence with the same elements. *)
Theorem get_item_none_select a w :
  exists u w1 r w2,
    get_item a [TI_None] w = (Ok u, w1) /\
    dim u = dim a + 1 /\ sizes u = 1 :: sizes a /\
    get_item u [TI_Integer 0 None] w1 = (Ok r, w2) /\
    sizes r = sizes a /\ strides r = strides a /\
    storage_id r = storage_id a /\ storage_offset r = storage_offset a /\
    scalar_type r = scalar_type a /\ device r = device a /\
    elements w2 r = elements w a.
Proof.
  do 4 eexists.
  split; [apply unsqueeze_front |].
  split; [unfold dim; simpl; lia |].
  split; [reflexivity |].
  split; [unfold get_item, applySelect; apply select_front_unit; reflexivity |].
  simpl. repeat (split; [reflexivity |]).
  apply elements_same_view; reflexivity.
Qed.

(** ** The advanced index dispatcher *)

Lemma to_same_options t o w : options t = o -> to t o w = (Ok t, w).
Proof. intros H. unfold to. rewrite decide_True by assumption. reflexivity. Qed.

(** Placement conversion of one index array: the result is on the wanted
    device, with the dtype, sizes and elements of the array, and it is the
    array itself when the array is already there. *)
Lemma to_device_spec t d w :
  readable w t -> Forall (fun s => 0 <= s) (sizes t) ->
  exists c w',
    to t (with_device (options t) d) w = (Ok c, w') /\ extends w w' /\
    device c = d /\ scalar_type c = scalar_type t /\ sizes c = sizes t /\
    readable w' c /\ elements w' c = elements w t /\
    (device t = d -> c = t /\ w' = w).
Proof.
  intros [Ht [vals Hv]] Hsizes.
  destruct (decide (options t = with_device (options t) d)) as [Heq | Hne].
  - exists t, w. rewrite to_same_options by assumption.
    unfold options, with_device in Heq. simpl in Heq. inversion Heq as [Hd].
    split; [reflexivity |]. split; [apply extends_refl |].
    do 3 (split; [auto |]). split; [split; eauto |]. auto.
  - destruct (elements_new_tensor (sizes t) vals (with_device (options t) d) w Hsizes)
      as (c & w' & Hnew & Hext & Hsz & Hdt & Hdev & Hsid & Hel).
    { eapply elements_length; eauto. }
    exists c, w'. split.
    + unfold to. rewrite decide_False by assumption.
      unfold bind, get_world, lift_option. rewrite Hv.
      unfold ret. rewrite decide_True by reflexivity. exact Hnew.
    + split; [exact Hext |]. do 3 (split; [assumption |]).
      split; [split; eauto |]. split; [congruence |].
      intros Hd. exfalso. apply Hne. unfold options, with_device. simpl. congruence.
Qed.

(** C7.  When every defined entry of the pending index list is a readable
    tensor, [typeConvertIndices] returns a list that matches the pending
    index list position by position (so it has the same length and order):
    a hole is returned as a hole, a defined index array is returned as an
    array on the device of the basic view with the same dtype, sizes and
    elements, and as the array itself when it is already on that device.
    The conversion only allocates, and [dispatch_index] and
    [dispatch_index_put_] call the gather and scatter primitives on the
    converted list. *)
Theorem typeConvertIndices_spec self indices w :
  Forall (fun ind => forall t, ind = Some t ->
            readable w t /\ Forall (fun s => 0 <= s) (sizes t)) indices ->
  exists converted w',
    typeConvertIndices self indices w = (Ok converted, w') /\
    extends w w' /\
    Forall2
      (fun ind c =>
         match ind with
         | None => c = None
         | Some t =>
           exists t', c = Some t' /\ device t' = device self /\
             scalar_type t' = scalar_type t /\ sizes t' = sizes t /\
             elements w' t' = elements w t /\
             (device t = device self -> t' = t)
         end)
      indices converted /\
    dispatch_index self indices w = index self converted w' /\
    forall value,
      dispatch_index_put_ self indices value w = index_put_ self converted value w'.
Proof.
  intros Hall.
  assert (forall w1, extends w w1 ->
    exists converted w',
      typeConvertIndices self indices w1 = (Ok converted, w') /\
      extends w1 w' /\
      Forall2
        (fun ind c =>
           match ind with
           | None => c = None
           | Some t =>
             exists t', c = Some t' /\ device t' = device self /\
               scalar_type t' = scalar_type t /\ sizes t' = sizes t /\
               elements w' t' = elements w t /\
               (device t = device self -> t' = t)
           end)
        indices converted) as Hgen.
  { induction indices as [|ind rest IH]; intros w1 Hw1.
    - exists [], w1. split; [reflexivity |]. split; [apply extends_refl | constructor].
    - inversion Hall as [|? ? Hind Hrest]; subst. cbn [typeConvertIndices].
      destruct ind as [t|].
      + destruct (Hind t eq_refl) as [Hread Hsizes].
        destruct (to_device_spec t (device self) w1
                    (readable_extends _ _ _ Hw1 Hread) Hsizes)
          as (c & w2 & Hto & He1 & Hd & Hs & Hz & [Hc _] & Hel & Hid).
        destruct (IH Hrest w2) as (cs & w3 & Hrun & He2 & Hf);
          [eapply extends_trans; eauto |].
        exists (Some c :: cs), w3. split; [| split].
        * rewrite (bind_ok _ _ w1 (Some c) w2)
            by (rewrite (bind_ok _ _ _ _ _ Hto); reflexivity).
          cbv beta. rewrite (bind_ok _ _ _ _ _ Hrun). reflexivity.
        * eapply extends_trans; eauto.
        * constructor; [| exact Hf].
          exists c. do 4 (split; [auto |]). split; [| apply Hid].
          rewrite (elements_extends w2 w3) by assumption. rewrite Hel.
          apply elements_extends; [assumption | apply Hread].
      + destruct (IH Hrest w1 Hw1) as (cs & w3 & Hrun & He2 & Hf).
        exists (None :: cs), w3. split; [| split]; auto.
        unfold bind at 1. simpl. rewrite (bind_ok _ _ _ _ _ Hrun). reflexivity. }
  destruct (Hgen w (extends_refl w)) as (converted & w' & Hrun & Hext & Hf).
  exists converted, w'. do 3 (split; [assumption |]). split.
  - unfold dispatch_index. rewrite (bind_ok _ _ _ _ _ Hrun). reflexivity.
  - intros value. unfold dispatch_index_put_. rewrite (bind_ok _ _ _ _ _ Hrun). reflexivity.
Qed.

Lemma typeConvertIndices_spec_witness :
  exists converted w',
    typeConvertIndices ex_gpu [None; Some ex_ix] ex_world = (Ok converted, w') /\
    extends ex_world w' /\
    Forall2
      (fun ind c =>
         match ind with
         | None => c = None
         | Some t =>
           exists t', c = Some t' /\ device t' = device ex_gpu /\
             scalar_type t' = scalar_type t /\ sizes t' = sizes t /\
             elements w' t' = elements ex_world t /\
             (device t = device ex_gpu -> t' = t)
         end)
      [None; Some ex_ix] converted /\
    dispatch_index ex_gpu [None; Some ex_ix] ex_world = index ex_gpu converted w' /\
    forall value,
      dispatch_index_put_ ex_gpu [None; Some ex_ix] value ex_world
        = index_put_ ex_gpu converted value w'.
Proof.
  apply (typeConvertIndices_spec ex_gpu [None; Some ex_ix] ex_world).
  constructor; [intros t H; discriminate |].
  constructor; [| constructor].
  intros t H. inversion H; subst. split.
  - split; [vm_compute; lia | vm_compute; eauto].
  - repeat constructor; vm_compute; discriminate.
Defined.

(** ** Broadcast-copy *)

Lemma first_non1_src_le l : (first_non1_src l <= length l)%nat.
Proof. induction l as [|s l IH]; simpl; [lia |]. destruct (decide (s <> 1)); simpl; lia. Qed.

Lemma take_first_non1_src l :
  take (first_non1_src l) l = replicate (first_non1_src l) 1.
Proof.
  induction l as [|s l IH]; simpl; [reflexivity |].
  destruct (decide (s <> 1)) as [|Hs]; simpl; [reflexivity |].
  rewrite IH. f_equal. lia.
Qed.

Lemma head_slicePrefix1sSize l : head (slicePrefix1sSize l) <> Some 1.
Proof.
  unfold slicePrefix1sSize. induction l as [|s l IH]; simpl; [discriminate |].
  destruct (decide (s <> 1)) as [Hs|Hs]; simpl; [congruence | exact IH].
Qed.

(** [slicePrefix1sSize] removes the longest run of leading 1s. *)
Lemma slicePrefix1sSize_spec l :
  l = replicate (first_non1_src l) 1 ++ slicePrefix1sSize l /\
  head (slicePrefix1sSize l) <> Some 1.
Proof.
  split; [| apply head_slicePrefix1sSize].
  unfold slicePrefix1sSize. rewrite <- take_first_non1_src. symmetry. apply take_drop.
Qed.

Lemma view_slicePrefix1sSize src w :
  view src (slicePrefix1sSize (sizes src)) w =
    (Ok (mkTensor (next_id w) (storage_id src) (storage_offset src)
           (slicePrefix1sSize (sizes src)) (drop (first_non1_src (sizes src)) (strides src))
           (scalar_type src) (device src)),
     mkWorld (S (next_id w)) (storages w)).
Proof.
  unfold view.
  pose proof (first_non1_src_le (sizes src)) as Hle.
  assert ((length (sizes src) - length (slicePrefix1sSize (sizes src)))%nat
          = first_non1_src (sizes src)) as ->.
  { unfold slicePrefix1sSize. rewrite length_drop. lia. }
  rewrite decide_True; [reflexivity |].
  split; [reflexivity |].
  rewrite take_first_non1_src. apply Forall_replicate. reflexivity.
Qed.

Lemma expand_aligned_is_Some sz : forall st target,
  is_Some (expand_aligned sz st target) <-> Forall2 (fun s t => s = t \/ s = 1) sz target.
Proof.
  induction sz as [|s sz IH]; intros st [|t target]; simpl.
  - split; [constructor | eauto].
  - split; [intros [? ?]; discriminate | inversion 1].
  - split; [intros [? ?]; discriminate | inversion 1].
  - specialize (IH (tail st) target).
    destruct (expand_aligned sz (tail st) target) as [rest|]; simpl.
    + destruct (decide (s = t)); [| destruct (decide (s = 1))].
      * split; [constructor; [auto | apply IH; eauto] | eauto].
      * split; [constructor; [auto | apply IH; eauto] | eauto].
      * split; [intros [? ?]; discriminate |].
        inversion 1; subst. tauto.
    + split; [intros [? ?]; discriminate |].
      inversion 1; subst. apply IH. assumption.
Qed.

Lemma expand_strides_is_Some sz st target :
  is_Some (expand_strides sz st target) <-> broadcastable sz target.
Proof.
  unfold expand_strides, broadcastable.
  destruct (decide (length sz <= length target)%nat) as [Hle|Hgt].
  - rewrite fmap_is_Some, expand_aligned_is_Some. tauto.
  - split; [intros [? ?]; discriminate | tauto].
Qed.

Lemma broadcastable_refl sz : broadcastable sz sz.
Proof.
  split; [lia |]. rewrite Nat.sub_diag. simpl.
  induction sz; constructor; auto.
Qed.

Lemma write_cell_read_eq sid loc v w w' :
  write_cell sid loc v w = Some w' -> read_cell w' sid loc = Some v.
Proof.
  unfold write_cell, read_cell.
  destruct (decide (0 <= loc)); [| discriminate].
  destruct (storages w !! sid) as [data|]; simpl; [| discriminate].
  destruct (decide (Z.to_nat loc < length data)%nat); [| discriminate].
  intros H. inversion H; subst. simpl.
  rewrite lookup_insert_eq. simpl. apply list_lookup_insert_eq. assumption.
Qed.

Lemma write_cell_read_ne sid loc v w w' loc' :
  write_cell sid loc v w = Some w' -> loc' <> loc ->
  read_cell w' sid loc' = read_cell w sid loc'.
Proof.
  unfold write_cell, read_cell.
  destruct (decide (0 <= loc)); [| discriminate].
  destruct (storages w !! sid) as [data|] eqn:Hl; simpl; [| discriminate].
  destruct (decide (Z.to_nat loc < length data)%nat); [| discriminate].
  intros H Hne. inversion H; subst. simpl.
  destruct (decide (0 <= loc')); [| reflexivity].
  rewrite lookup_insert_eq. simpl. apply list_lookup_insert_ne. lia.
Qed.

(** Cells that are not written keep their contents. *)
Lemma write_cells_frame sid cells : forall w w' loc,
  write_cells sid cells w = Some w' -> loc ∉ cells.*1 ->
  read_cell w' sid loc = read_cell w sid loc.
Proof.
  induction cells as [|[loc0 v0] cells IH]; intros w w' loc H Hnotin; simpl in H.
  - inversion H; reflexivity.
  - destruct (write_cell sid loc0 v0 w) as [w1|] eqn:H1; simpl in H; [| discriminate].
    rewrite fmap_cons in Hnotin. apply not_elem_of_cons in Hnotin as [Hne Hnotin].
    rewrite (IH _ _ _ H Hnotin). eapply write_cell_read_ne; eauto.
Qed.

(** Writing to pairwise distinct cells: afterwards every cell holds the
    value written to it. *)
Lemma write_cells_read sid locs : forall vals w w',
  length locs = length vals -> NoDup locs ->
  write_cells sid (zip locs vals) w = Some w' ->
  Forall2 (fun loc v => read_cell w' sid loc = Some v) locs vals.
Proof.
  induction locs as [|loc locs IH]; intros [|v vals] w w' Hlen Hnd H;
    simpl in Hlen; try discriminate.
  - constructor.
  - simpl in H.
    destruct (write_cell sid loc v w) as [w1|] eqn:H1; simpl in H; [| discriminate].
    apply NoDup_cons in Hnd as [Hnotin Hnd].
    constructor.
    + rewrite (write_cells_frame _ _ _ _ _ H).
      * eapply write_cell_read_eq; eauto.
      * rewrite fst_zip by lia. assumption.
    + eapply IH; eauto.
Qed.

(** The outcome of the final copy: when it succeeds on a destination whose
    positions are pairwise distinct cells, the destination holds the
    elements that were read, converted to its dtype. *)
Lemma copy_result_elements dst b w2 w' :
  sizes b = sizes dst ->
  match
    vals ← elements w2 b;
    write_cells (storage_id dst)
      (zip (location dst <$> all_indices (sizes dst))
           (cast_to (scalar_type dst) <$> vals)) w2
  with
  | Some w' => (Ok tt, w')
  | None => (Fail PrimitiveError, w2)
  end = (Ok tt, w') ->
  NoDup (location dst <$> all_indices (sizes dst)) ->
  exists vals,
    elements w2 b = Some vals /\
    elements w' dst = Some (cast_to (scalar_type dst) <$> vals).
Proof.
  intros Hsz H Hnd.
  destruct (elements w2 b) as [vals|] eqn:Hv; simpl in H; [| discriminate].
  destruct (write_cells _ _ w2) as [w1|] eqn:Hw; [| discriminate].
  inversion H; subst. exists vals. split; [reflexivity |].
  assert (length (all_indices (sizes dst)) = length vals) as Hlen.
  { rewrite <- Hsz. eapply length_mapM. exact Hv. }
  apply write_cells_read in Hw; [| rewrite !length_fmap; assumption | assumption].
  unfold elements.
  rewrite (mapM_ext _ ((fun loc => read_cell w' (storage_id dst) loc) ∘ location dst))
    by reflexivity.
  rewrite <- mapM_fmap_compose. apply mapM_Some_2. exact Hw.
Qed.

Lemma copy_same_sizes dst b w :
  sizes dst = sizes b ->
  copy_ dst b w =
    match
      vals ← elements w b;
      write_cells (storage_id dst)
        (zip (location dst <$> all_indices (sizes dst)) (cast_to (scalar_type dst) <$> vals)) w
    with
    | Some w' => (Ok dst, w')
    | None => (Fail PrimitiveError, w)
    end.
Proof.
  intros Hs. unfold copy_, expand_inplace. rewrite decide_True by assumption. reflexivity.
Qed.

(** C5.  [copy_to] strips the longest run of leading size-1 dimensions from
    the shape of the value ([slicePrefix1sSize]) and views the value in the
    trimmed shape; the view always exists, shares the storage of the value
    and writes nothing.  When the trimmed shape broadcasts to the shape of
    the destination, the view is expanded to the destination's shape, again
    on the storage of the value and without writing, and the elements of
    the expanded view, converted to the destination's dtype, are written to
    the positions of the destination one by one; when that succeeds on a
    destination whose positions are distinct cells, the destination holds
    exactly those elements.  When the trimmed shape does not broadcast,
    [copy_to] fails with the shape-broadcast error and has written
    nothing. *)
Theorem copy_to_spec dst src w :
  let trimmed := slicePrefix1sSize (sizes src) in
  (exists k, sizes src = replicate k 1 ++ trimmed /\ head trimmed <> Some 1) /\
  exists v w1,
    view src trimmed w = (Ok v, w1) /\
    sizes v = trimmed /\ storage_id v = storage_id src /\
    storage_offset v = storage_offset src /\ storages w1 = storages w /\
    (broadcastable trimmed (sizes dst) ->
     exists b w2,
       expand_inplace dst v w1 = (Ok b, w2) /\
       sizes b = sizes dst /\ storage_id b = storage_id src /\ storages w2 = storages w /\
       copy_to dst src w =
         match
           vals ← elements w2 b;
           write_cells (storage_id dst)
             (zip (location dst <$> all_indices (sizes dst))
                  (cast_to (scalar_type dst) <$> vals)) w2
         with
         | Some w' => (Ok tt, w')
         | None => (Fail PrimitiveError, w2)
         end /\
       forall w',
         copy_to dst src w = (Ok tt, w') ->
         NoDup (location dst <$> all_indices (sizes dst)) ->
         exists vals,
           elements w2 b = Some vals /\
           elements w' dst = Some (cast_to (scalar_type dst) <$> vals)) /\
    (~ broadcastable trimmed (sizes dst) ->
     exists w', copy_to dst src w = (Fail ShapeBroadcastError, w') /\ storages w' = storages w).
Proof.
  intros trimmed. subst trimmed.
  split; [eexists; apply slicePrefix1sSize_spec |].
  do 2 eexists. split; [apply view_slicePrefix1sSize |]. simpl.
  do 4 (split; [reflexivity |]).
  set (v := mkTensor (next_id w) (storage_id src) (storage_offset src)
              (slicePrefix1sSize (sizes src)) (drop (first_non1_src (sizes src)) (strides src))
              (scalar_type src) (device src)).
  set (w1 := mkWorld (S (next_id w)) (storages w)).
  assert (forall k : TensorImpl -> M unit,
            (let* v := view src (slicePrefix1sSize (sizes src)) in k v) w = k v w1) as Hview.
  { intros k. apply bind_ok. apply view_slicePrefix1sSize. }
  split.
  - intros Hb. unfold expand_inplace.
    destruct (decide (sizes dst = sizes v)) as [Heq | Hne].
    + exists v, w1. split; [reflexivity |]. split; [auto |]. do 2 (split; [reflexivity |]).
      match goal with |- ?eqn /\ _ => assert eqn as Hcopy end.
      { unfold copy_to. rewrite Hview.
        unfold expand_inplace at 1. rewrite decide_True by assumption.
        unfold bind at 1. unfold ret at 1.
        unfold bind. rewrite copy_same_sizes by assumption.
        destruct (elements w1 v ≫= _); reflexivity. }
      split; [exact Hcopy |].
      intros w' Hok Hnd. rewrite Hcopy in Hok.
      eapply copy_result_elements; eauto.
    + apply expand_strides_is_Some with (st := strides v) in Hb as [st Hst].
      exists (mkTensor (next_id w1) (storage_id v) (storage_offset v) (sizes dst) st
                (scalar_type v) (device v)),
             (mkWorld (S (next_id w1)) (storages w1)).
      assert (expand v (sizes dst) w1 =
              (Ok (mkTensor (next_id w1) (storage_id v) (storage_offset v) (sizes dst) st
                     (scalar_type v) (device v)),
               mkWorld (S (next_id w1)) (storages w1))) as Hexp.
      { unfold expand. simpl in Hst. simpl. rewrite Hst. reflexivity. }
      split; [exact Hexp |]. do 3 (split; [reflexivity |]).
      match goal with |- ?eqn /\ _ => assert eqn as Hcopy end.
      { unfold copy_to. rewrite Hview.
        unfold expand_inplace at 1. rewrite decide_False by assumption.
        rewrite (bind_ok _ _ _ _ _ Hexp).
        unfold bind. rewrite copy_same_sizes by reflexivity.
        destruct (elements _ _ ≫= _); reflexivity. }
      split; [exact Hcopy |].
      intros w' Hok Hnd. rewrite Hcopy in Hok.
      eapply copy_result_elements; eauto.
  - intros Hnb.
    assert (expand_strides (sizes v) (strides v) (sizes dst) = None) as Hnone.
    { apply eq_None_not_Some. intros H. apply Hnb. eapply expand_strides_is_Some. exact H. }
    assert (sizes dst <> sizes v) as Hne.
    { intros Heq. apply Hnb. simpl in Heq. rewrite Heq. apply broadcastable_refl. }
    exists w1. split; [| reflexivity].
    unfold copy_to. rewrite Hview.
    apply bind_fail. unfold expand_inplace. rewrite decide_False by assumption.
    unfold expand. rewrite Hnone. reflexivity.
Qed.

Lemma copy_to_spec_witness :
  (exists v w1 b w2,
     view ex_row (slicePrefix1sSize (sizes ex_row)) ex_world = (Ok v, w1) /\
     expand_inplace ex_a v w1 = (Ok b, w2) /\
     sizes b = sizes ex_a /\ storage_id b = storage_id ex_row /\
     storages w2 = storages ex_world /\
     copy_to ex_a ex_row ex_world =
       match
         vals ← elements w2 b;
         write_cells (storage_id ex_a)
           (zip (location ex_a <$> all_indices (sizes ex_a))
                (cast_to (scalar_type ex_a) <$> vals)) w2
       with
       | Some w' => (Ok tt, w')
       | None => (Fail PrimitiveError, w2)
       end /\
     exists w' vals,
       copy_to ex_a ex_row ex_world = (Ok tt, w') /\
       elements w2 b = Some vals /\
       elements w' ex_a = Some (cast_to (scalar_type ex_a) <$> vals)) /\
  (exists w',
     copy_to ex_a ex_value ex_world = (Fail ShapeBroadcastError, w') /\
     storages w' = storages ex_world).
Proof.
  split.
  - destruct (copy_to_spec ex_a ex_row ex_world) as (_ & v & w1 & Hv & _ & _ & _ & _ & Hyes & _).
    destruct Hyes as (b & w2 & Hb & H1 & H2 & H3 & H4 & H5).
    + split; [simpl; lia |]. simpl. constructor; [left; reflexivity | constructor].
    + exists v, w1, b, w2. do 6 (split; [assumption |]).
      destruct (copy_to ex_a ex_row ex_world) as [[[]|e] w'] eqn:Hrun;
        [| vm_compute in Hrun; discriminate].
      destruct (H5 w' eq_refl) as (vals & Hv1 & Hv2).
      * apply (bool_decide_unpack _). vm_compute. exact I.
      * exists w', vals. auto.
  - destruct (copy_to_spec ex_a ex_value ex_world) as (_ & v & w1 & _ & _ & _ & _ & _ & _ & Hno).
    apply Hno. intros [_ H]. simpl in H.
    inversion H as [|? ? ? ? [Hx | Hx]]; discriminate.
Defined.

(** ** Boolean descriptors *)

Lemma boolToIndexingTensor_run self b w :
  boolToIndexingTensor self b w =
    (Ok (mkTensor (S (next_id w)) (next_id w) 0 [if b then 1 else 0] [1] kLong (device self)),
     mkWorld (S (S (next_id w)))
       (<[next_id w := if b then [0] else []]> (storages w))).
Proof. destruct b; reflexivity. Qed.

Lemma elements_boolean_index (self : TensorImpl) (b : bool) (w : World) :
  elements
    (mkWorld (S (S (next_id w))) (<[next_id w := if b then [0] else []]> (storages w)))
    (mkTensor (S (next_id w)) (next_id w) 0 [if b then 1 else 0] [1] kLong (device self))
  = Some (if b then [0] else []).
Proof.
  unfold elements, read_at, read_cell, location. simpl.
  destruct b; simpl; [| reflexivity].
  rewrite lookup_insert_eq. reflexivity.
Qed.

Lemma applySlicing_step_boolean self sd i b result d out w :
  0 <= d <= dim result ->
  applySlicing_step self sd i (TI_Boolean b) (result, d, out) w =
    (Ok (mkTensor (next_id w) (storage_id result) (storage_offset result)
           (insert_at (Z.to_nat d) 1 (sizes result)) (insert_at (Z.to_nat d) 1 (strides result))
           (scalar_type result) (device result),
         d + 1,
         <[Z.to_nat d :=
             Some (mkTensor (S (S (next_id w))) (S (next_id w)) 0 [if b then 1 else 0] [1]
                     kLong (device result))]>
           (resize (Z.to_nat (d + 1)) None out)),
     mkWorld (S (S (S (next_id w))))
       (<[S (next_id w) := if b then [0] else []]> (storages w))).
Proof.
  intros Hd. unfold applySlicing_step.
  rewrite (bind_ok _ _ _ _ _ (unsqueeze_run result d w Hd)).
  rewrite (bind_ok _ _ _ _ _ (boolToIndexingTensor_run _ b _)).
  reflexivity.
Qed.

(** *** Gather with one long index array on the first dimension *)

Lemma all_indices_length shape :
  Forall (fun m => length m = length shape) (all_indices shape).
Proof.
  induction shape as [|n rest IH]; simpl.
  - repeat constructor.
  - apply Forall_forall. intros m Hm.
    apply list_elem_of_bind in Hm as (i & Hm & _).
    apply list_elem_of_fmap in Hm as (m' & -> & Hm').
    rewrite Forall_forall in IH. simpl. f_equal. apply IH. assumption.
Qed.

Lemma all_indices_unit rest : all_indices (1 :: rest) = (0 ::.) <$> all_indices rest.
Proof. simpl. apply app_nil_r. Qed.

Lemma holes_sizes (rest : list Z) :
  (filter (fun d => is_hole d = true) (zip rest (replicate (length rest) (@None IndexData)))).*1
  = rest.
Proof.
  induction rest as [|s rest IH]; [reflexivity |].
  cbn [length replicate zip_with].
  rewrite filter_cons_True by reflexivity. cbn [fmap list_fmap fst]. f_equal. exact IH.
Qed.

Lemma source_index_holes (rest : list Z) mb : forall q,
  length q = length rest ->
  source_index (zip rest (replicate (length rest) (@None IndexData))) mb q = Some q.
Proof.
  induction rest as [|s rest IH]; intros [|i q] Hq; simpl in *; try discriminate.
  - reflexivity.
  - rewrite IH by lia. reflexivity.
Qed.

Lemma index_plan_front_long w u ix s0 rest n ivals :
  sizes u = s0 :: rest ->
  scalar_type ix = kLong -> sizes ix = [n] -> elements w ix = Some ivals ->
  index_plan w u [Some ix] =
    Some (mkPlan ((s0, Some (mkIndexData [n] ivals))
                    :: zip rest (replicate (length rest) None))
            [n] 0 (n :: rest)).
Proof.
  intros Hu Hk Hs Hv. unfold index_plan. rewrite Hu. simpl.
  rewrite Hv. simpl. rewrite decide_True by assumption. simpl.
  rewrite Hs, Nat.sub_0_r.
  change (infer_size [n] []) with (Some [n]). cbn [mbind option_bind].
  rewrite filter_cons_False by (simpl; discriminate).
  rewrite holes_sizes.
  destruct (adjacent _); reflexivity.
Qed.

Lemma applySlicing_boolean a b w :
  applySlicing a [TI_Boolean b] [] w =
    (Ok (mkTensor (next_id w) (storage_id a) (storage_offset a)
           (1 :: sizes a) (1 :: strides a) (scalar_type a) (device a),
         [Some (mkTensor (S (S (next_id w))) (S (next_id w)) 0 [if b then 1 else 0] [1]
                  kLong (device a))]),
     mkWorld (S (S (S (next_id w))))
       (<[S (next_id w) := if b then [0] else []]> (storages w))).
Proof.
  unfold applySlicing.
  change (count_specified_dimensions [TI_Boolean b]) with 0.
  rewrite decide_True by (unfold dim; lia).
  cbn [applySlicing_loop].
  assert (0 <= 0 <= dim a) as Hd by (unfold dim; lia).
  rewrite (bind_ok _ _ _ _ _
             (bind_ok _ _ _ _ _ (applySlicing_step_boolean a 0 0 b a 0 [] w Hd))).
  reflexivity.
Qed.

Lemma read_at_unsqueezed_front w w' a u m :
  storages w' !! storage_id a = storages w !! storage_id a ->
  storage_id u = storage_id a -> storage_offset u = storage_offset a ->
  strides u = 1 :: strides a ->
  read_at w' u (0 :: m) = read_at w a m.
Proof.
  intros Hs Hi Ho Hr. unfold read_at, location, read_cell.
  rewrite Hi, Ho, Hr, Hs. simpl. reflexivity.
Qed.

Lemma index_run self indices w p vals :
  index_plan w self indices = Some p ->
  mapM (fun m => plan_source p m ≫= read_at w self) (all_indices (plan_shape p)) = Some vals ->
  index self indices w = new_tensor (plan_shape p) vals (options self) w.
Proof.
  intros Hp Hv. unfold index, bind, get_world, lift_option.
  rewrite Hp. simpl. rewrite Hv. reflexivity.
Qed.

Lemma get_item_boolean_run (a : TensorImpl) (b : bool) (w : World) (vals : list Z) :
  (storage_id a < next_id w)%nat ->
  (if b then elements w a else Some []) = Some vals ->
  get_item a [TI_Boolean b] w =
    new_tensor ((if b then 1 else 0) :: sizes a) vals (options a)
      (mkWorld (S (S (S (next_id w))))
         (<[S (next_id w) := if b then [0] else []]> (storages w))).
Proof.
  intros Ha Hv.
  rewrite get_item_general by reflexivity.
  rewrite (bind_ok _ _ _ _ _ (applySlicing_boolean a b w)). cbv beta iota.
  set (u := mkTensor (next_id w) (storage_id a) (storage_offset a)
              (1 :: sizes a) (1 :: strides a) (scalar_type a) (device a)).
  set (ix := mkTensor (S (S (next_id w))) (S (next_id w)) 0 [if b then 1 else 0] [1]
               kLong (device a)).
  set (w3 := mkWorld (S (S (S (next_id w))))
               (<[S (next_id w) := if b then [0] else []]> (storages w))).
  unfold dispatch_index.
  assert (typeConvertIndices u [Some ix] w3 = (Ok [Some ix], w3)) as Hconv.
  { cbn [typeConvertIndices].
    rewrite (bind_ok _ _ w3 (Some ix) w3).
    - reflexivity.
    - rewrite (bind_ok _ _ w3 ix w3); [reflexivity |].
      apply to_same_options. reflexivity. }
  rewrite (bind_ok _ _ _ _ _ Hconv).
  assert (elements w3 ix = Some (if b then [0] else [])) as Hix.
  { apply (elements_boolean_index a b (mkWorld (S (next_id w)) (storages w))). }
  pose proof (index_plan_front_long w3 u ix 1 (sizes a) (if b then 1 else 0)
                (if b then [0] else []) eq_refl eq_refl eq_refl Hix) as Hplan.
  rewrite (index_run _ _ _ _ vals Hplan); [reflexivity |].
  cbn [plan_shape]. destruct b.
  - rewrite all_indices_unit, mapM_fmap_compose.
    rewrite <- Hv. unfold elements.
    apply Forall_mapM_ext.
    eapply Forall_impl; [apply all_indices_length |].
    intros m Hm. unfold compose, plan_source. cbn [plan_dims plan_bshape plan_front].
    change (take (length [1]) (drop 0 (0 :: m))) with [0].
    change (take 0 (0 :: m) ++ drop (0 + length [1]) (0 :: m)) with m.
    cbn [source_index].
    change (read_broadcast {| ix_shape := [1]; ix_values := [0] |} [0]) with (Some 0).
    cbn [mbind option_bind].
    change (wrap_index 0 1) with (Some 0%nat).
    cbn [mbind option_bind].
    rewrite source_index_holes by assumption.
    cbn [fmap option_fmap option_map mbind option_bind].
    apply read_at_unsqueezed_front; try reflexivity.
    simpl. apply lookup_insert_ne. lia.
  - inversion Hv; subst. reflexivity.
Qed.

(** C4.  Processing a Boolean descriptor at a cursor [dim] inside the
    running result inserts a size-1 dimension at [dim] by a view on the
    same storage, stores at position [dim] of the pending index list a
    1-dimensional long index array of shape [1] (holding the index 0) for
    true and of shape [0] for false, and advances the cursor by one.  For a
    readable tensor [a], [get_item] with the single descriptor true returns
    a tensor with sizes [1 :: sizes a] and the elements of [a], and with the
    single descriptor false a tensor with sizes [0 :: sizes a] and no
    element. *)
Theorem boolean_descriptor_spec self specified_dims i (b : bool) result d outIndices a w :
  0 <= d <= dim result ->
  readable w a -> Forall (fun s => 0 <= s) (sizes a) ->
  (exists result' ix w',
     applySlicing_step self specified_dims i (TI_Boolean b) (result, d, outIndices) w
       = (Ok (result', d + 1,
              <[Z.to_nat d := Some ix]> (resize (Z.to_nat (d + 1)) None outIndices)), w') /\
     sizes result' = take (Z.to_nat d) (sizes result) ++ 1 :: drop (Z.to_nat d) (sizes result) /\
     storage_id result' = storage_id result /\
     sizes ix = [if b then 1 else 0] /\ scalar_type ix = kLong /\
     elements w' ix = Some (if b then [0] else []) /\
     extends w w') /\
  (exists r w',
     get_item a [TI_Boolean true] w = (Ok r, w') /\
     sizes r = 1 :: sizes a /\ elements w' r = elements w a) /\
  (exists r w',
     get_item a [TI_Boolean false] w = (Ok r, w') /\
     sizes r = 0 :: sizes a /\ elements w' r = Some []).
Proof.
  intros Hd [Ha [vals Hvals]] Hsizes. split; [| split].
  - do 3 eexists. split; [apply applySlicing_step_boolean; assumption |].
    cbn [sizes storage_id scalar_type].
    do 4 (split; [reflexivity |]).
    split.
    + apply (elements_boolean_index result b (mkWorld (S (next_id w)) (storages w))).
    + split; simpl; [lia | intros; apply lookup_insert_ne; lia].
  - rewrite (get_item_boolean_run a true w vals Ha Hvals).
    destruct (elements_new_tensor (1 :: sizes a) vals (options a)
                (mkWorld (S (S (S (next_id w)))) (<[S (next_id w) := [0]]> (storages w))))
      as (t & w' & Hnew & _ & Hsz & _ & _ & _ & Hel).
    + constructor; [lia | assumption].
    + rewrite (elements_length w a vals Hsizes Hvals).
      change (numel (1 :: sizes a)) with (1 * numel (sizes a)). f_equal. lia.
    + exists t, w'. split; [exact Hnew |]. split; [exact Hsz |]. congruence.
  - rewrite (get_item_boolean_run a false w [] Ha eq_refl).
    destruct (elements_new_tensor (0 :: sizes a) [] (options a)
                (mkWorld (S (S (S (next_id w)))) (<[S (next_id w) := []]> (storages w))))
      as (t & w' & Hnew & _ & Hsz & _ & _ & _ & Hel).
    + constructor; [lia | assumption].
    + reflexivity.
    + exists t, w'. auto.
Qed.

Lemma boolean_descriptor_spec_witness :
  (exists result' ix w',
     applySlicing_step ex_a 1 1 (TI_Boolean true) (ex_a, 1, []) ex_world
       = (Ok (result', 1 + 1,
              <[Z.to_nat 1 := Some ix]> (resize (Z.to_nat (1 + 1)) None [])), w') /\
     sizes result' = take (Z.to_nat 1) (sizes ex_a) ++ 1 :: drop (Z.to_nat 1) (sizes ex_a) /\
     storage_id result' = storage_id ex_a /\
     sizes ix = [1] /\ scalar_type ix = kLong /\
     elements w' ix = Some [0] /\
     extends ex_world w') /\
  (exists r w',
     get_item ex_a [TI_Boolean true] ex_world = (Ok r, w') /\
     sizes r = 1 :: sizes ex_a /\ elements w' r = elements ex_world ex_a) /\
  (exists r w',
     get_item ex_a [TI_Boolean false] ex_world = (Ok r, w') /\
     sizes r = 0 :: sizes ex_a /\ elements w' r = Some []).
Proof.
  apply (boolean_descriptor_spec ex_a 1 1 true ex_a 1 [] ex_a ex_world).
  - vm_compute. split; discriminate.
  - split; [vm_compute; lia | vm_compute; eauto].
  - repeat constructor; vm_compute; discriminate.
Defined.

(** ** Further properties of the dimension counter *)

Lemma spec_count_app l1 l2 : spec_count (l1 ++ l2) = spec_count l1 + spec_count l2.
Proof.
  unfold spec_count. induction l1 as [|obj l1 IH]; simpl; [reflexivity |].
  rewrite IH. lia.
Qed.

Lemma spec_count_nonneg l : 0 <= spec_count l.
Proof.
  unfold spec_count. induction l as [|obj l IH]; simpl; [lia |].
  assert (0 <= spec_consumed obj); [| lia].
  unfold spec_consumed, dim. destruct obj; try lia.
  destruct (is_mask_type _); lia.
Qed.

(** X1.  The dimension counter is additive over concatenation of descriptor
    lists and never negative, and a None, an Ellipsis or a Boolean inserted
    anywhere in a list leaves the count as it was. *)
Theorem count_specified_dimensions_app l1 l2 obj :
  count_specified_dimensions (l1 ++ l2)
    = count_specified_dimensions l1 + count_specified_dimensions l2 /\
  0 <= count_specified_dimensions l1 /\
  (match obj with TI_None | TI_Ellipsis | TI_Boolean _ => True | _ => False end ->
   count_specified_dimensions (l1 ++ obj :: l2) = count_specified_dimensions (l1 ++ l2)).
Proof.
  rewrite !count_specified_dimensions_spec, !spec_count_app.
  split; [reflexivity |]. split; [apply spec_count_nonneg |].
  intros Hobj. unfold spec_count at 2. simpl. fold (spec_count l2).
  destruct obj; try contradiction; simpl; lia.
Qed.

Lemma count_specified_dimensions_app_witness :
  count_specified_dimensions ([TI_Integer 0 None] ++ TI_Ellipsis :: [TI_Tensor ex_ix])
    = count_specified_dimensions ([TI_Integer 0 None] ++ [TI_Tensor ex_ix]).
Proof.
  apply (count_specified_dimensions_app [TI_Integer 0 None] [TI_Tensor ex_ix] TI_Ellipsis).
  exact I.
Defined.

(** ** Further properties of [slicePrefix1sSize] *)

Lemma numel_replicate_ones k l : numel (replicate k 1 ++ l) = numel l.
Proof.
  induction k as [|k IH]; simpl; [reflexivity |].
  change (foldr Z.mul 1 (replicate k 1 ++ l)) with (numel (replicate k 1 ++ l)).
  rewrite IH. destruct (numel l); reflexivity.
Qed.

Lemma first_non1_src_head l : head l <> Some 1 -> first_non1_src l = 0%nat.
Proof.
  destruct l as [|s l]; simpl; [reflexivity |].
  intros H. destruct (decide (s <> 1)) as [|Hs]; [reflexivity |].
  exfalso. apply H. f_equal. lia.
Qed.

Lemma first_non1_src_all_ones l :
  first_non1_src l = length l <-> Forall (eq 1) l.
Proof.
  induction l as [|s l IH]; simpl.
  - split; [constructor | reflexivity].
  - destruct (decide (s <> 1)) as [Hs|Hs].
    + split; [discriminate | inversion 1; subst; contradiction].
    + split.
      * intros H. constructor; [lia | apply IH; lia].
      * inversion 1; subst. f_equal. apply IH. assumption.
Qed.

(** X2.  [slicePrefix1sSize] is idempotent, keeps the number of elements
    of the shape, and returns the empty shape exactly for a shape made of
    1s only (the empty shape included). *)
Theorem slicePrefix1sSize_idempotent l :
  slicePrefix1sSize (slicePrefix1sSize l) = slicePrefix1sSize l /\
  numel (slicePrefix1sSize l) = numel l /\
  (slicePrefix1sSize l = [] <-> Forall (eq 1) l).
Proof.
  split; [| split].
  - unfold slicePrefix1sSize at 1.
    rewrite first_non1_src_head by apply head_slicePrefix1sSize. reflexivity.
  - destruct (slicePrefix1sSize_spec l) as [Hl _].
    rewrite Hl at 2. symmetry. apply numel_replicate_ones.
  - rewrite <- first_non1_src_all_ones. unfold slicePrefix1sSize.
    pose proof (first_non1_src_le l) as Hle. split.
    + intros H. apply (f_equal length) in H. rewrite length_drop in H. simpl in H. lia.
    + intros ->. apply drop_all.
Qed.

(** ** Index arrays already in place *)

(** X3.  When every defined entry of the pending index list is on the
    device of the basic view, [typeConvertIndices] returns the list itself,
    holding the very same tensor objects, and leaves the store exactly as
    it was: nothing is read, copied or allocated. *)
Theorem typeConvertIndices_same_device self indices w :
  Forall (fun ind => forall t, ind = Some t -> device t = device self) indices ->
  typeConvertIndices self indices w = (Ok indices, w).
Proof.
  induction 1 as [|ind rest Hind _ IH]; [reflexivity |].
  cbn [typeConvertIndices]. destruct ind as [t|].
  - rewrite (bind_ok _ _ w (Some t) w).
    + cbv beta. rewrite (bind_ok _ _ _ _ _ IH). reflexivity.
    + rewrite (bind_ok _ _ w t w); [reflexivity |].
      apply to_same_options. unfold options, with_device. simpl.
      rewrite (Hind t eq_refl). reflexivity.
  - unfold bind at 1. simpl. rewrite (bind_ok _ _ _ _ _ IH). reflexivity.
Qed.

Lemma typeConvertIndices_same_device_witness :
  typeConvertIndices ex_a [None; Some ex_ix] ex_world = (Ok [None; Some ex_ix], ex_world).
Proof.
  apply (typeConvertIndices_same_device ex_a [None; Some ex_ix] ex_world).
  constructor; [intros t H; discriminate |].
  constructor; [| constructor].
  intros t H. inversion H; subst. reflexivity.
Defined.

(** ** Rendering of descriptor lists *)

Lemma string_app_empty_r (s : string) : s +:+ "" = s.
Proof.
  induction s as [|a s IH]; [reflexivity |].
  change (String a s +:+ "") with (String a (s +:+ "")). rewrite IH. reflexivity.
Qed.

Lemma print_indices_loop_join print_tensor size : forall rest i,
  0 <= i -> i + Z.of_nat (length rest) = size -> size < 2 ^ 64 ->
  print_indices_loop print_tensor size i rest
  = String.concat ", " (print_TensorIndex print_tensor <$> rest).
Proof.
  induction rest as [|x rest IH]; intros i Hi Hsize Hbound; [reflexivity |].
  cbn [print_indices_loop]. cbn [length] in Hsize.
  rewrite IH by lia.
  assert (wrap_size_t (size - 1) = size - 1) as ->.
  { unfold wrap_size_t. apply Z.mod_small. lia. }
  destruct rest as [|y rest].
  - rewrite decide_False by (simpl in Hsize; lia).
    change (print_TensorIndex print_tensor x +:+ "" +:+ "" = print_TensorIndex print_tensor x).
    change ("" +:+ "") with "". apply string_app_empty_r.
  - rewrite decide_True by (simpl in Hsize; lia). reflexivity.
Qed.

(** X4.  For a list of fewer than 2^64 descriptors, the rendering is the
    renderings of the descriptors separated by ", " and enclosed in
    parentheses; the separator test against the unsigned [size() - 1] never
    runs for the empty list, which renders as "()". *)
Theorem print_indices_join print_tensor tensor_indices :
  Z.of_nat (length tensor_indices) < 2 ^ 64 ->
  print_indices print_tensor tensor_indices
  = "(" +:+ String.concat ", " (print_TensorIndex print_tensor <$> tensor_indices) +:+ ")".
Proof.
  intros Hbound. unfold print_indices.
  rewrite print_indices_loop_join by lia. reflexivity.
Qed.

Lemma print_indices_join_witness :
  print_indices (fun _ => "tensor") [TI_None; TI_Integer (-3) None; TI_Boolean true;
                                     TI_Slice (mkSlice 0 5 2 None None None); TI_Ellipsis]
  = "(None, -3, true, 0:5:2, ...)".
Proof.
  rewrite (print_indices_join (fun _ => "tensor")
             [TI_None; TI_Integer (-3) None; TI_Boolean true;
              TI_Slice (mkSlice 0 5 2 None None None); TI_Ellipsis]).
  - reflexivity.
  - vm_compute. reflexivity.
Defined.

(** ** The pending index list *)

Lemma omap_replicate_None {A} (k : nat) : omap id (replicate k (@None A)) = [].
Proof. induction k as [|k IH]; [reflexivity | exact IH]. Qed.

(** [handle_tensor] at a cursor that is not inside the pending index list:
    the list is only extended, and the new entry is its last one. *)
Lemma handle_tensor_pending tensor d out :
  0 <= d -> (length out <= Z.to_nat d)%nat ->
  (handle_tensor tensor d out).2
    = out ++ replicate (Z.to_nat d - length out) None ++ [Some tensor] /\
  (length (handle_tensor tensor d out).2 <= Z.to_nat (handle_tensor tensor d out).1)%nat /\
  (forall j x, out !! j = Some x -> (handle_tensor tensor d out).2 !! j = Some x) /\
  defined_count (handle_tensor tensor d out).2 = S (defined_count out).
Proof.
  intros Hd Hlen. unfold Tensor in *.
  assert ((handle_tensor tensor d out).2
          = out ++ replicate (Z.to_nat d - length out) None ++ [Some tensor]) as Heq.
  { unfold handle_tensor. cbn [snd].
    replace (Z.to_nat (d + 1)) with (S (Z.to_nat d)) by lia.
    rewrite resize_ge by lia.
    rewrite insert_app_r_alt by lia.
    rewrite insert_replicate_lt by lia.
    replace (S (Z.to_nat d) - length out - S (Z.to_nat d - length out))%nat with 0%nat by lia.
    reflexivity. }
  assert ((handle_tensor tensor d out).1 = d + 1) as Hfst by reflexivity.
  destruct (handle_tensor tensor d out) as [d1 out1]. cbn [fst snd] in *. subst d1 out1.
  split; [reflexivity |]. split; [| split].
  - rewrite !length_app, length_replicate. simpl. lia.
  - intros j x H. apply lookup_app_l_Some. exact H.
  - unfold defined_count. rewrite !omap_app, omap_replicate_None.
    rewrite !length_app. simpl. lia.
Qed.

Lemma is_advanced_tensor_select (t : TensorImpl) :
  bool_decide (dim t = 0) && isIntegralType (scalar_type t) true = true ->
  bool_decide (scalar_type t <> kByte) && bool_decide (scalar_type t <> kBool) = true ->
  is_advanced (TI_Tensor t) = false.
Proof. intros H1 H2. unfold is_advanced. rewrite H1, H2. reflexivity. Qed.

Lemma is_advanced_tensor_mask (t : TensorImpl) :
  bool_decide (scalar_type t <> kByte) && bool_decide (scalar_type t <> kBool) = false ->
  is_advanced (TI_Tensor t) = true.
Proof. intros H2. unfold is_advanced. rewrite H2, andb_false_r. reflexivity. Qed.

Lemma is_advanced_tensor_array (t : TensorImpl) :
  bool_decide (dim t = 0) && isIntegralType (scalar_type t) true = false ->
  is_advanced (TI_Tensor t) = true.
Proof. intros H1. unfold is_advanced. rewrite H1. reflexivity. Qed.

(** One step of the slicing applier, from a cursor that is not negative and
    not inside the pending index list. *)
Lemma applySlicing_step_pending self sd i obj result d out w result' d' out' w' :
  sd <= dim self -> 0 <= d -> (length out <= Z.to_nat d)%nat ->
  applySlicing_step self sd i obj (result, d, out) w = (Ok (result', d', out'), w') ->
  d <= d' /\ (length out' <= Z.to_nat d')%nat /\
  (forall j x, out !! j = Some x -> out' !! j = Some x) /\
  defined_count out' = (defined_count out + if is_advanced obj then 1 else 0)%nat /\
  (is_advanced obj = false -> out' = out).
Proof.
  intros Hsd Hd Hlen H.
  destruct (handle_tensor_pending result d out Hd Hlen) as (_ & _ & _ & _).
  assert (forall t, handle_tensor t d out = (d', out') ->
            d <= d' /\ (length out' <= Z.to_nat d')%nat /\
            (forall j x, out !! j = Some x -> out' !! j = Some x) /\
            defined_count out' = (defined_count out + 1)%nat) as Hhandle.
  { intros t Ht. destruct (handle_tensor_pending t d out Hd Hlen) as (_ & H1 & H2 & H3).
    rewrite Ht in H1, H2, H3. cbn [fst snd] in H1, H2, H3.
    assert (d' = d + 1) by (unfold handle_tensor in Ht; congruence).
    repeat split; auto; lia. }
  assert (forall e : Z, d <= e -> e = d' -> out = out' ->
            d <= d' /\ (length out' <= Z.to_nat d')%nat /\
            (forall j x, out !! j = Some x -> out' !! j = Some x) /\
            defined_count out' = (defined_count out + 0)%nat /\ out' = out) as Hsame.
  { intros e He <- <-. repeat split; auto; lia. }
  unfold applySlicing_step in H. destruct obj.
  - bind_inv_ok H. inversion H; subst.
    destruct (Hsame (d + 1)) as (? & ? & ? & ? & ?); [lia | reflexivity | reflexivity |]. cbn [is_advanced]. auto.
  - inversion H; subst.
    destruct (Hsame (d + (dim self - sd))) as (? & ? & ? & ? & ?); [lia | reflexivity | reflexivity |].
    cbn [is_advanced]. auto.
  - bind_inv_ok H. inversion H; subst.
    destruct (Hsame d') as (? & ? & ? & ? & ?); [lia | reflexivity | reflexivity |]. cbn [is_advanced]. auto.
  - bind_inv_ok H. bind_inv_ok H.
    destruct (handle_tensor a0 d out) as [d1 out1] eqn:Ht. inversion H; subst.
    destruct (Hhandle a0 Ht) as (? & ? & ? & ?). cbn [is_advanced].
    repeat split; auto. discriminate.
  - bind_inv_ok H. inversion H; subst.
    destruct (Hsame (d + 1)) as (? & ? & ? & ? & ?); [lia | reflexivity | reflexivity |]. cbn [is_advanced]. auto.
  - destruct (bool_decide (dim tensor = 0) && isIntegralType (scalar_type tensor) true) eqn:E1.
    + destruct (bool_decide (scalar_type tensor <> kByte)
                && bool_decide (scalar_type tensor <> kBool)) eqn:E2.
      * bind_inv_ok H. bind_inv_ok H. inversion H; subst.
        rewrite (is_advanced_tensor_select _ E1 E2).
        destruct (Hsame d') as (? & ? & ? & ? & ?); [lia | reflexivity | reflexivity |]. auto.
      * bind_inv_ok H. bind_inv_ok H. bind_inv_ok H.
        destruct (handle_tensor a1 d out) as [d1 out1] eqn:Ht. inversion H; subst.
        rewrite (is_advanced_tensor_mask _ E2).
        destruct (Hhandle a1 Ht) as (? & ? & ? & ?). repeat split; auto. discriminate.
    + destruct (handle_tensor tensor d out) as [d1 out1] eqn:Ht. inversion H; subst.
      rewrite (is_advanced_tensor_array _ E1).
      destruct (Hhandle tensor Ht) as (? & ? & ? & ?). repeat split; auto. discriminate.
Qed.

Lemma applySlicing_loop_pending self sd indices :
  forall i result d out w result' d' out' w',
    sd <= dim self -> 0 <= d -> (length out <= Z.to_nat d)%nat ->
    applySlicing_loop self sd i indices (result, d, out) w = (Ok (result', d', out'), w') ->
    d <= d' /\ (length out' <= Z.to_nat d')%nat /\
    (forall j x, out !! j = Some x -> out' !! j = Some x) /\
    defined_count out'
      = (defined_count out
         + sum_list_with (fun obj => if is_advanced obj then 1 else 0) indices)%nat /\
    (Forall (fun obj => is_advanced obj = false) indices -> out' = out).
Proof.
  induction indices as [|obj rest IH];
    intros i result d out w result' d' out' w' Hsd Hd Hlen H; simpl in H.
  - inversion H; subst. simpl. repeat split; auto; lia.
  - bind_inv_ok H. destruct a as [[r1 d1] o1].
    destruct (applySlicing_step_pending _ _ _ _ _ _ _ _ _ _ _ _ Hsd Hd Hlen H0)
      as (Hd1 & Hl1 & Hk1 & Hc1 & Hb1).
    destruct (IH _ _ _ _ _ _ _ _ _ Hsd (Z.le_trans _ _ _ Hd Hd1) Hl1 H)
      as (Hd2 & Hl2 & Hk2 & Hc2 & Hb2).
    split; [lia |]. split; [assumption |]. split; [auto |]. split.
    + rewrite Hc2, Hc1. simpl. lia.
    + intros Hall. inversion Hall; subst. rewrite Hb2, Hb1; auto.
Qed.

(** X5.  When [applySlicing], started on an empty pending index list,
    succeeds, the pending index list holds exactly one defined entry per
    descriptor that is a boolean or an index array (other than a
    0-dimensional integer array): no entry is overwritten or dropped.  The
    list is empty exactly when the descriptor list has no such descriptor. *)
Theorem applySlicing_pending_count self indices w sliced out w' :
  applySlicing self indices [] w = (Ok (sliced, out), w') ->
  defined_count out
    = sum_list_with (fun obj => if is_advanced obj then 1%nat else 0%nat) indices /\
  (out = [] <-> Forall (fun obj => is_advanced obj = false) indices).
Proof.
  unfold applySlicing. destruct (decide _) as [Hsd|]; [| discriminate].
  intros H. bind_inv_ok H. destruct a as [[r1 d1] o1]. inversion H; subst.
  apply applySlicing_loop_pending in H0 as (_ & _ & _ & Hc & Hb);
    [| exact Hsd | lia | simpl; lia].
  split; [exact Hc |]. split.
  - intros ->. simpl in Hc. apply Forall_forall. intros obj Hobj.
    destruct (is_advanced obj) eqn:E; [| reflexivity]. exfalso.
    apply list_elem_of_lookup in Hobj as [k Hk].
    rewrite <- (take_drop_middle _ _ _ Hk), sum_list_with_app in Hc.
    unfold defined_count in Hc. simpl in Hc. rewrite E in Hc. lia.
  - exact Hb.
Qed.

Lemma applySlicing_pending_count_witness :
  defined_count [None; Some ex_ix] = 1%nat /\
  ([None; Some ex_ix] = [] <->
   Forall (fun obj => is_advanced obj = false)
     [TI_Slice (mkSlice 0 2 1 None None None); TI_Tensor ex_ix]).
Proof.
  apply (applySlicing_pending_count ex_a
           [TI_Slice (mkSlice 0 2 1 None None None); TI_Tensor ex_ix] ex_world
           (mkTensor 10 0 0 [2; 3] [3; 1] kLong kCPU) [None; Some ex_ix]
           (mkWorld 11 (storages ex_world))).
  reflexivity.
Defined.

(** ** Basic indexing returns a view *)

Lemma alias_view t w r w' :
  alias t w = (Ok r, w') ->
  w' = mkWorld (S (next_id w)) (storages w) /\ impl_id r = next_id w /\
  options r = options t /\ dim r = dim t.
Proof. rewrite alias_run. intros H. inversion H; subst. auto. Qed.

Lemma length_insert_at {A} k (x : A) l : length (insert_at k x l) = S (length l).
Proof.
  unfold insert_at. rewrite length_app. simpl. rewrite length_take, length_drop. lia.
Qed.

Lemma length_remove_at {A} k (l : list A) :
  (k < length l)%nat -> S (length (remove_at k l)) = length l.
Proof.
  intros Hk. unfold remove_at. rewrite length_app, length_take, length_drop. lia.
Qed.

Lemma unsqueeze_view t d w r w' :
  unsqueeze t d w = (Ok r, w') ->
  w' = mkWorld (S (next_id w)) (storages w) /\ impl_id r = next_id w /\
  options r = options t /\ dim r = dim t + 1.
Proof.
  unfold unsqueeze, bind, lift_option, fresh, ret, throw.
  destruct (wrap_index d (dim t + 1)); simpl; intros H; inversion H; subst.
  split; [reflexivity |]. split; [reflexivity |]. split; [reflexivity |].
  unfold dim. simpl. rewrite length_insert_at. lia.
Qed.

Lemma applySelect_view t d i it rd w r w' :
  applySelect t d i it rd w = (Ok r, w') ->
  w' = mkWorld (S (next_id w)) (storages w) /\ impl_id r = next_id w /\
  options r = options t /\ dim r = dim t - 1.
Proof.
  unfold applySelect, select, bind, lift_option, fresh, ret, throw.
  destruct (decide (dim t = 0)); [discriminate |].
  destruct (wrap_index d (dim t)) as [k|]; simpl; [| discriminate].
  destruct (sizes t !! k) as [size|] eqn:Hk; simpl; [| discriminate].
  destruct (wrap_index i size); simpl; intros H; inversion H; subst.
  split; [reflexivity |]. split; [reflexivity |]. split; [reflexivity |].
  apply lookup_lt_Some in Hk. unfold dim. simpl.
  pose proof (length_remove_at k (sizes t) Hk). lia.
Qed.

Lemma applySlice_view t d a b c ta tb tc f w r w' :
  applySlice t d a b c ta tb tc f w = (Ok r, w') ->
  w' = mkWorld (S (next_id w)) (storages w) /\ impl_id r = next_id w /\
  options r = options t /\ dim r = dim t.
Proof.
  unfold applySlice, slice_view, bind, lift_option, fresh, ret, throw.
  destruct (decide (dim t = 0)); [discriminate |].
  destruct (wrap_index d (dim t)) as [k|]; simpl; [| discriminate].
  destruct (sizes t !! k) as [size|]; simpl; [| discriminate].
  destruct (decide (c <= 0)); simpl; intros H; inversion H; subst.
  split; [reflexivity |]. split; [reflexivity |]. split; [reflexivity |].
  unfold dim. simpl. rewrite length_insert. reflexivity.
Qed.

Lemma item_world t w r w' : item t w = (r, w') -> w' = w.
Proof.
  unfold item, bind, get_world, lift_option, ret, throw.
  destruct (decide _); [| intros H; inversion H; reflexivity].
  destruct (read_at w t _); intros H; inversion H; reflexivity.
Qed.

(** What one step of the slicing applier does to the running view: dtype
    and device stay, the rank changes by [rank_change], the view is the one
    before or a new object, and a descriptor that is not advanced leaves the
    storages alone. *)
Lemma applySlicing_step_view self sd i obj result d out w result' d' out' w' :
  applySlicing_step self sd i obj (result, d, out) w = (Ok (result', d', out'), w') ->
  options result' = options result /\
  dim result' = dim result + rank_change obj /\
  (result' = result \/ (next_id w <= impl_id result' < next_id w')%nat) /\
  (is_advanced obj = false -> storages w' = storages w).
Proof.
  intros H. pose proof (allocates_only_applySlicing_step _ _ _ _ _ _ _ _ H) as [Hn _].
  unfold applySlicing_step in H. destruct obj; cbn [rank_change].
  - bind_inv_ok H. inversion H; subst.
    apply unsqueeze_view in H0 as (-> & Hid & Ho & Hd). simpl in *.
    split; [exact Ho |]. split; [exact Hd |]. split; [right; lia | reflexivity].
  - inversion H; subst. split; [reflexivity |]. split; [lia |]. split; [left |]; reflexivity.
  - bind_inv_ok H. inversion H; subst.
    apply applySelect_view in H0 as (-> & Hid & Ho & Hd). simpl in *.
    split; [exact Ho |]. split; [lia |]. split; [right; lia | reflexivity].
  - bind_inv_ok H. bind_inv_ok H.
    destruct (handle_tensor a0 d out) as [d1 out1]. inversion H; subst.
    apply unsqueeze_view in H0 as (-> & Hid & Ho & Hd).
    apply allocates_only_boolToIndexingTensor in H1 as [Hn1 _]. simpl in *.
    split; [exact Ho |]. split; [exact Hd |]. split; [right; lia | discriminate].
  - bind_inv_ok H. inversion H; subst.
    apply applySlice_view in H0 as (-> & Hid & Ho & Hd). simpl in *.
    split; [exact Ho |]. split; [lia |]. split; [right; lia | reflexivity].
  - destruct (bool_decide (dim tensor = 0) && isIntegralType (scalar_type tensor) true) eqn:E1.
    + destruct (bool_decide (scalar_type tensor <> kByte)
                && bool_decide (scalar_type tensor <> kBool)) eqn:E2.
      * bind_inv_ok H. bind_inv_ok H. inversion H; subst.
        apply item_world in H0 as ->.
        apply applySelect_view in H1 as (-> & Hid & Ho & Hd). simpl in *.
        split; [exact Ho |]. split; [lia |]. split; [right; lia | reflexivity].
      * rewrite (is_advanced_tensor_mask _ E2).
        bind_inv_ok H. bind_inv_ok H. bind_inv_ok H.
        destruct (handle_tensor a1 d out) as [d1 out1]. inversion H; subst.
        apply unsqueeze_view in H0 as (-> & Hid & Ho & Hd).
        apply item_world in H1 as ->.
        apply allocates_only_boolToIndexingTensor in H2 as [Hn1 _]. simpl in *.
        split; [exact Ho |]. split; [exact Hd |]. split; [right; lia | discriminate].
    + destruct (handle_tensor tensor d out) as [d1 out1]. inversion H; subst.
      split; [reflexivity |]. split; [lia |]. split; [left; reflexivity |].
      rewrite (is_advanced_tensor_array _ E1). discriminate.
Qed.

Lemma applySlicing_loop_view self sd indices :
  forall i result d out w result' d' out' w',
    applySlicing_loop self sd i indices (result, d, out) w = (Ok (result', d', out'), w') ->
    options result' = options result /\
    dim result' = dim result + rank_changes indices /\
    (result' = result \/ (next_id w <= impl_id result' < next_id w')%nat) /\
    (Forall (fun obj => is_advanced obj = false) indices -> storages w' = storages w).
Proof.
  induction indices as [|obj rest IH]; intros i result d out w result' d' out' w' H;
    cbn [applySlicing_loop] in H.
  - inversion H; subst. unfold rank_changes. simpl.
    split; [reflexivity |]. split; [lia |]. auto.
  - bind_inv_ok H. destruct a as [[r1 d1] o1].
    pose proof (allocates_only_applySlicing_step _ _ _ _ _ _ _ _ H0) as [Hn0 _].
    pose proof (allocates_only_applySlicing_loop _ _ _ _ _ _ _ _ H) as [Hn1 _].
    apply applySlicing_step_view in H0 as (Ho0 & Hd0 & Hi0 & Hs0).
    apply IH in H as (Ho1 & Hd1 & Hi1 & Hs1).
    split; [congruence |]. split; [unfold rank_changes in *; simpl; lia |]. split.
    + destruct Hi1 as [-> | Hi1]; [destruct Hi0 as [-> | Hi0] |]; [left; reflexivity | |];
        right; lia.
    + intros Hall. inversion Hall; subst. rewrite Hs1, Hs0; auto.
Qed.

(** *** The no-op read *)

Lemma advanced_count_zero (indices : list TensorIndex) :
  sum_list_with (fun obj => if is_advanced obj then 1%nat else 0%nat) indices = 0%nat ->
  Forall (fun obj => is_advanced obj = false) indices.
Proof.
  induction indices as [|obj rest IH]; intros H; [constructor |].
  simpl in H. destruct (is_advanced obj) eqn:E; [lia |].
  constructor; [exact E | apply IH; lia].
Qed.

(** C3.  For a source that lives in the store, [get_item] with a no-op
    index expression - the single descriptor Ellipsis, or a list that takes
    the general path and for which the slicing applier returns the source
    object itself and no pending index - succeeds with a shallow alias of
    the source: an object that did not exist before the call, hence not
    the same object as the source, with the storage, offset, sizes,
    strides, dtype and device of the source; the call has written nothing
    and allocated no storage. *)
Theorem get_item_noop_alias a indices w :
  (impl_id a < next_id w)%nat ->
  indices = [TI_Ellipsis] \/
  (get_fast_path indices = false /\
   exists sliced w1,
     applySlicing a indices [] w = (Ok (sliced, []), w1) /\ is_same sliced a = true) ->
  exists r w',
    get_item a indices w = (Ok r, w') /\
    (next_id w <= impl_id r < next_id w')%nat /\
    is_same r a = false /\
    storage_id r = storage_id a /\ storage_offset r = storage_offset a /\
    sizes r = sizes a /\ strides r = strides a /\
    scalar_type r = scalar_type a /\ device r = device a /\
    storages w' = storages w.
Proof.
  intros Ha [-> | (Hg & sliced & w1 & Hs & Hsame)].
  - do 2 eexists. split; [apply alias_run |]. simpl.
    split; [lia |]. split; [apply (is_same_fresh _ _ w); simpl; lia |]. auto 10.
  - assert (sliced = a /\ storages w1 = storages w /\ (next_id w <= next_id w1)%nat)
      as (-> & Hst & Hn).
    { pose proof (allocates_only_applySlicing _ _ _ _ _ _ Hs) as [Hn _].
      unfold applySlicing in Hs. destruct (decide _) as [Hsd|]; [| discriminate].
      bind_inv_ok Hs. destruct a0 as [[r1 d1] o1]. inversion Hs; subst.
      pose proof H as Hp.
      apply applySlicing_loop_pending in Hp as (_ & _ & _ & Hc & _);
        [| exact Hsd | lia | simpl; lia].
      apply applySlicing_loop_view in H as (_ & _ & Hi & Hstor).
      split; [| split; [| exact Hn]].
      - destruct Hi as [-> | Hi]; [reflexivity |].
        unfold is_same in Hsame. apply Nat.eqb_eq in Hsame. lia.
      - apply Hstor. apply advanced_count_zero.
        unfold defined_count in Hc. simpl in Hc. lia. }
    do 2 eexists. split.
    + rewrite get_item_general by assumption.
      rewrite (bind_ok _ _ _ _ _ Hs). cbv beta iota. rewrite Hsame. apply alias_run.
    + simpl. split; [lia |]. split; [apply (is_same_fresh _ _ w); simpl; lia |].
      auto 10.
Qed.

Lemma get_item_noop_alias_witness :
  exists r w',
    get_item ex_a [TI_Ellipsis; TI_Ellipsis] ex_world = (Ok r, w') /\
    (next_id ex_world <= impl_id r < next_id w')%nat /\
    is_same r ex_a = false /\
    storage_id r = storage_id ex_a /\ storage_offset r = storage_offset ex_a /\
    sizes r = sizes ex_a /\ strides r = strides ex_a /\
    scalar_type r = scalar_type ex_a /\ device r = device ex_a /\
    storages w' = storages ex_world.
Proof.
  apply (get_item_noop_alias ex_a [TI_Ellipsis; TI_Ellipsis] ex_world).
  - vm_compute. lia.
  - right. split; [reflexivity |].
    exists ex_a, ex_world. split; reflexivity.
Defined.

(** X6.  The rank of the basic view: when [applySlicing] succeeds, the view
    it returns has the dtype and the device of the source and the rank of
    the source changed by one for every descriptor that inserts a dimension
    (None, a boolean, a 0-dimensional mask) or removes one (an integer, a
    0-dimensional integer array); it is the source itself or an object that
    did not exist before the call. *)
Theorem applySlicing_rank self indices out w sliced out' w' :
  applySlicing self indices out w = (Ok (sliced, out'), w') ->
  options sliced = options self /\
  dim sliced = dim self + rank_changes indices /\
  (sliced = self \/ (next_id w <= impl_id sliced < next_id w')%nat).
Proof.
  unfold applySlicing. destruct (decide _); [| discriminate].
  intros H. bind_inv_ok H. destruct a as [[r1 d1] o1]. inversion H; subst.
  apply applySlicing_loop_view in H0 as (Ho & Hd & Hi & _). auto.
Qed.

Lemma applySlicing_rank_witness :
  options (mkTensor 11 0 3 [1; 3] [1; 1] kLong kCPU) = options ex_a /\
  dim (mkTensor 11 0 3 [1; 3] [1; 1] kLong kCPU)
    = dim ex_a + rank_changes [TI_Integer 1 None; TI_None] /\
  (mkTensor 11 0 3 [1; 3] [1; 1] kLong kCPU = ex_a \/
   (next_id ex_world <= impl_id (mkTensor 11 0 3 [1%Z; 3%Z] [1%Z; 1%Z] kLong kCPU)
    < next_id (mkWorld 12 (storages ex_world)))%nat).
Proof.
  apply (applySlicing_rank ex_a [TI_Integer 1 None; TI_None] [] ex_world
           (mkTensor 11 0 3 [1; 3] [1; 1] kLong kCPU) [] (mkWorld 12 (storages ex_world))).
  reflexivity.
Defined.

(** X7.  Basic indexing returns a view.  When no descriptor is a boolean or
    an index array (other than a 0-dimensional integer array) and [get_item]
    succeeds on a source that lives in the store, the result is an object
    that did not exist before the call, hence never the source object
    itself; it shares the storage, the dtype and the device of the source;
    and the call has allocated no storage and written none. *)
Theorem get_item_basic_view self indices w r w' :
  (impl_id self < next_id w)%nat ->
  Forall (fun obj => is_advanced obj = false) indices ->
  get_item self indices w = (Ok r, w') ->
  (next_id w <= impl_id r < next_id w')%nat /\
  is_same r self = false /\
  storage_id r = storage_id self /\ options r = options self /\
  dim r = dim self + rank_changes indices /\
  storages w' = storages w.
Proof.
  intros Hself Hall H.
  assert ((next_id w <= impl_id r < next_id w')%nat ->
          storage_id r = storage_id self -> options r = options self ->
          dim r = dim self + rank_changes indices ->
          storages w' = storages w ->
          (next_id w <= impl_id r < next_id w')%nat /\
          is_same r self = false /\
          storage_id r = storage_id self /\ options r = options self /\
          dim r = dim self + rank_changes indices /\
          storages w' = storages w) as Hfin.
  { intros Hid Hs Ho Hd Hst. split; [exact Hid |].
    split; [apply (is_same_fresh _ _ w); lia |]. auto. }
  assert (get_item_general_path self indices w = (Ok r, w') ->
          (next_id w <= impl_id r < next_id w')%nat /\
          is_same r self = false /\
          storage_id r = storage_id self /\ options r = options self /\
          dim r = dim self + rank_changes indices /\
          storages w' = storages w) as Hgen.
  { clear H. intros H. unfold get_item_general_path in H. bind_inv_ok H.
    destruct a as [sliced out].
    pose proof (applySlicing_storage _ _ _ _ _ _ _ H0) as Hsid.
    pose proof (allocates_only_applySlicing _ _ _ _ _ _ H0) as [Hn _].
    unfold applySlicing in H0. destruct (decide _) as [Hsd|]; [| discriminate].
    bind_inv_ok H0. destruct a as [[r1 d1] o1]. inversion H0; subst.
    pose proof H1 as Hout.
    apply applySlicing_loop_pending in Hout as (_ & _ & _ & _ & Hout);
      [| exact Hsd | lia | simpl; lia].
    apply applySlicing_loop_view in H1 as (Ho & Hd & Hi & Hst).
    rewrite (Hout Hall) in H. specialize (Hst Hall).
    destruct Hi as [-> | Hi].
    - assert (is_same self self = true) as Hss by (unfold is_same; apply Nat.eqb_refl).
      rewrite Hss in H. clear Hss.
      rewrite alias_run in H. inversion H; subst. simpl in *.
      apply Hfin; simpl; auto; lia.
    - rewrite (is_same_fresh sliced self w) in H by lia. inversion H; subst.
      apply Hfin; auto. }
  destruct (get_fast_path indices) eqn:Hfast;
    [| apply Hgen; rewrite get_item_general in H by exact Hfast; exact H].
  clear Hgen.
  destruct indices as [|[] [|]]; try discriminate Hfast;
    unfold get_item in H; unfold rank_changes in *; cbn [foldr rank_change] in *.
  - pose proof (unsqueeze_storage _ _ _ _ _ H).
    apply unsqueeze_view in H as (-> & Hid & Ho & Hd). simpl. apply Hfin; simpl; auto; lia.
  - pose proof H as H'. rewrite alias_run in H'. inversion H'; subst. simpl.
    apply alias_view in H as (_ & Hid & Ho & Hd). apply Hfin; simpl; auto; lia.
  - pose proof (applySelect_storage _ _ _ _ _ _ _ _ H).
    apply applySelect_view in H as (-> & Hid & Ho & Hd). simpl. apply Hfin; simpl; auto; lia.
  - pose proof (applySlice_storage _ _ _ _ _ _ _ _ _ _ _ _ H).
    apply applySlice_view in H as (-> & Hid & Ho & Hd). simpl. apply Hfin; simpl; auto; lia.
Qed.

Lemma get_item_basic_view_witness :
  (next_id ex_world <= impl_id (mkTensor 11 0 3 [1%Z; 3%Z] [1%Z; 1%Z] kLong kCPU)
   < next_id (mkWorld 12 (storages ex_world)))%nat /\
  is_same (mkTensor 11 0 3 [1; 3] [1; 1] kLong kCPU) ex_a = false /\
  storage_id (mkTensor 11 0 3 [1; 3] [1; 1] kLong kCPU) = storage_id ex_a /\
  options (mkTensor 11 0 3 [1; 3] [1; 1] kLong kCPU) = options ex_a /\
  dim (mkTensor 11 0 3 [1; 3] [1; 1] kLong kCPU)
    = dim ex_a + rank_changes [TI_Integer 1 None; TI_None] /\
  storages (mkWorld 12 (storages ex_world)) = storages ex_world.
Proof.
  apply (get_item_basic_view ex_a [TI_Integer 1 None; TI_None] ex_world
           (mkTensor 11 0 3 [1; 3] [1; 1] kLong kCPU) (mkWorld 12 (storages ex_world))).
  - vm_compute. lia.
  - repeat constructor.
  - reflexivity.
Defined.

(** ** The fast path of the read *)

(** X8.  The fast path of [get_item] is a shortcut only: for a single
    None, Ellipsis, integer or slice that passes the arity check of the
    slicing applier, on a source that lives in the store, [get_item] returns
    what its general path (slicing applier, then the alias of an unchanged
    source) returns on that descriptor list, result or error, in the same
    store.  For a slice this rests on [applySlice] returning the narrowed
    view whatever its last argument, as modelled. *)
Theorem get_item_fast_path_general self indices w :
  (impl_id self < next_id w)%nat ->
  get_fast_path indices = true ->
  count_specified_dimensions indices <= dim self ->
  get_item self indices w = get_item_general_path self indices w.
Proof.
  intros Hself Hfast Hsd.
  assert (is_same self self = true) as Hss by (unfold is_same; apply Nat.eqb_refl).
  unfold get_item_general_path, applySlicing. rewrite decide_True by exact Hsd.
  destruct indices as [|[| | integer tensor | b | s | t] [|]]; try discriminate Hfast;
    unfold get_item; cbn [applySlicing_loop applySlicing_step].
  - rewrite unsqueeze_front. unfold bind, ret. rewrite unsqueeze_front.
    rewrite (is_same_fresh _ self w) by (simpl; lia). reflexivity.
  - unfold bind, ret. rewrite Hss. reflexivity.
  - unfold bind, ret.
    destruct (applySelect self 0 integer tensor 0 w) as [[r|e] w1] eqn:E; [| reflexivity].
    apply applySelect_view in E as (_ & Hid & _).
    rewrite (is_same_fresh r self w) by lia. reflexivity.
  - unfold bind, ret. unfold applySlice at 1.
    destruct (applySlice self 0 (start s) (stop s) (step s) (start_tensor s) (stop_tensor s)
                (step_tensor s) false w) as [[r|e] w1] eqn:E;
      unfold applySlice in E; rewrite E; [| reflexivity].
    apply (applySlice_view _ _ _ _ _ None None None false) in E as (_ & Hid & _).
    rewrite (is_same_fresh r self w) by lia. reflexivity.
Qed.

Lemma get_item_fast_path_general_witness :
  get_item ex_a [TI_Integer 1 None] ex_world
  = get_item_general_path ex_a [TI_Integer 1 None] ex_world.
Proof.
  apply (get_item_fast_path_general ex_a [TI_Integer 1 None] ex_world).
  - vm_compute. lia.
  - reflexivity.
  - vm_compute. discriminate.
Defined.

(** ** What a read leaves alone *)

Lemma allocates_only_typeConvertIndices self indices :
  allocates_only (typeConvertIndices self indices).
Proof.
  induction indices as [|ind rest IH]; cbn [typeConvertIndices]; [apply allocates_only_ret |].
  apply allocates_only_bind; [destruct ind; alloc_steps |].
  intros c. apply allocates_only_bind; [exact IH | intros; apply allocates_only_ret].
Qed.

Lemma allocates_only_index self indices : allocates_only (index self indices).
Proof. unfold index. alloc_steps. Qed.

Lemma allocates_only_dispatch_index self indices :
  allocates_only (dispatch_index self indices).
Proof.
  unfold dispatch_index. apply allocates_only_bind;
    [apply allocates_only_typeConvertIndices | intros; apply allocates_only_index].
Qed.

Lemma allocates_only_get_item self indices : allocates_only (get_item self indices).
Proof.
  assert (allocates_only (get_item_general_path self indices)) as Hgen.
  { unfold get_item_general_path. apply allocates_only_bind;
      [apply allocates_only_applySlicing |].
    intros [sliced [|t out]]; [destruct (is_same sliced self); alloc_steps |].
    apply allocates_only_dispatch_index. }
  destruct (get_fast_path indices) eqn:Hfast;
    [| rewrite get_item_general by exact Hfast; exact Hgen].
  destruct indices as [|[| | integer tensor | b | s | t] [|]]; try discriminate Hfast;
    unfold get_item; alloc_steps.
Qed.

(** X9.  A read never writes: whatever the descriptors and whatever the
    outcome (a result or any error), [Tensor::index] leaves the contents of
    every storage that existed before the call as they were; it only hands
    out new identities and allocates new storages.  In particular every
    tensor that could be read in full before the call still has the same
    elements. *)
Theorem Tensor_index_frame self indices w r w' t :
  Tensor_index self indices w = (r, w') ->
  (storage_id t < next_id w)%nat ->
  extends w w' /\ elements w' t = elements w t.
Proof.
  intros H Ht. apply allocates_only_get_item in H.
  split; [exact H |]. apply elements_extends; assumption.
Qed.

Lemma Tensor_index_frame_witness :
  extends ex_world
    (Tensor_index ex_a [TI_Slice (mkSlice 0 2 1 None None None); TI_Tensor ex_ix] ex_world).2 /\
  elements
    (Tensor_index ex_a [TI_Slice (mkSlice 0 2 1 None None None); TI_Tensor ex_ix] ex_world).2
    ex_a
  = elements ex_world ex_a.
Proof.
  apply (Tensor_index_frame ex_a
           [TI_Slice (mkSlice 0 2 1 None None None); TI_Tensor ex_ix] ex_world
           (Tensor_index ex_a
              [TI_Slice (mkSlice 0 2 1 None None None); TI_Tensor ex_ix] ex_world).1).
  - vm_compute. reflexivity.
  - vm_compute. lia.
Defined.

(** ** What a write leaves alone *)

Lemma touches_only_refl sid w : touches_only sid w w.
Proof. split; [lia | auto]. Qed.

Lemma touches_only_trans sid w1 w2 w3 :
  touches_only sid w1 w2 -> touches_only sid w2 w3 -> touches_only sid w1 w3.
Proof.
  intros [H1 H2] [H3 H4]. split; [lia |]. intros s Hs.
  destruct (H2 s Hs) as [Ha Hb]. destruct (H4 s ltac:(lia)) as [Hc Hd].
  split; [intros Hne; rewrite Hc, Ha; auto | congruence].
Qed.

Lemma extends_touches_only sid w w' : extends w w' -> touches_only sid w w'.
Proof.
  intros [H1 H2]. split; [exact H1 |]. intros s Hs.
  rewrite (H2 s Hs). auto.
Qed.

Lemma write_cell_touches sid loc v w w' :
  write_cell sid loc v w = Some w' -> touches_only sid w w'.
Proof.
  unfold write_cell.
  destruct (decide (0 <= loc)); [| discriminate].
  destruct (storages w !! sid) as [data|] eqn:Hl; simpl; [| discriminate].
  destruct (decide (Z.to_nat loc < length data)%nat); [| discriminate].
  intros H. inversion H; subst. split; simpl; [lia |]. intros s _. split.
  - intros Hne. apply lookup_insert_ne. congruence.
  - destruct (decide (s = sid)) as [-> | Hne].
    + rewrite lookup_insert_eq, Hl. simpl. rewrite length_insert. reflexivity.
    + rewrite lookup_insert_ne by congruence. reflexivity.
Qed.

Lemma write_cells_touches sid cells : forall w w',
  write_cells sid cells w = Some w' -> touches_only sid w w'.
Proof.
  induction cells as [|[loc v] cells IH]; intros w w' H; simpl in H.
  - inversion H; subst. apply touches_only_refl.
  - destruct (write_cell sid loc v w) as [w1|] eqn:H1; simpl in H; [| discriminate].
    eapply touches_only_trans; [eapply write_cell_touches | eapply IH]; eauto.
Qed.

Lemma writes_only_allocates {A} sid (m : M A) : allocates_only m -> writes_only sid m.
Proof. intros Hm w r w' H. apply extends_touches_only. eapply Hm; eauto. Qed.

(** Sequencing, where the continuation only has to behave on the results
    the first computation can return. *)
Lemma writes_only_bind {A B} sid (m : M A) (k : A -> M B) (P : A -> Prop) :
  (forall w a w', m w = (Ok a, w') -> P a) ->
  writes_only sid m -> (forall a, P a -> writes_only sid (k a)) ->
  writes_only sid (bind m k).
Proof.
  intros HP Hm Hk w r w' H. apply bind_inv in H as [(a & w1 & H1 & H2) | (e & H1 & _)].
  - eapply touches_only_trans; [eapply Hm | eapply Hk]; eauto.
  - eapply Hm; eauto.
Qed.

Lemma allocates_only_view t shape : allocates_only (view t shape).
Proof. unfold view. alloc_steps. Qed.

Lemma allocates_only_expand t shape : allocates_only (expand t shape).
Proof. unfold expand. alloc_steps. Qed.

Lemma allocates_only_expand_inplace t u : allocates_only (expand_inplace t u).
Proof. unfold expand_inplace. pose proof allocates_only_expand. alloc_steps. Qed.

Lemma writes_only_copy_ dst src : writes_only (storage_id dst) (copy_ dst src).
Proof.
  unfold copy_.
  apply (writes_only_bind _ _ _ (fun _ => True)); [auto | |].
  - apply writes_only_allocates, allocates_only_expand_inplace.
  - intros b _ w r w' H.
    destruct (elements w b) as [vals|]; simpl in H.
    + destruct (write_cells _ _ w) as [w1|] eqn:Hw; inversion H; subst;
        [eapply write_cells_touches; eauto | apply touches_only_refl].
    + inversion H; subst. apply touches_only_refl.
Qed.

Lemma writes_only_copy_to dst src : writes_only (storage_id dst) (copy_to dst src).
Proof.
  unfold copy_to.
  apply (writes_only_bind _ _ _ (fun _ => True)); [auto | |].
  { apply writes_only_allocates, allocates_only_view. }
  intros v _. apply (writes_only_bind _ _ _ (fun _ => True)); [auto | |].
  { apply writes_only_allocates, allocates_only_expand_inplace. }
  intros b _. apply (writes_only_bind _ _ _ (fun _ => True)); [auto | |].
  { apply writes_only_copy_. }
  intros _ _. apply writes_only_allocates, allocates_only_ret.
Qed.

Lemma writes_only_index_put_ self indices value :
  writes_only (storage_id self) (index_put_ self indices value).
Proof.
  unfold index_put_.
  apply (writes_only_bind _ _ _ (fun _ => True)); [auto | |].
  { apply writes_only_allocates, allocates_only_get_world. }
  intros w0 _. apply (writes_only_bind _ _ _ (fun _ => True)); [auto | |].
  { apply writes_only_allocates, allocates_only_lift_option. }
  intros p _. apply (writes_only_bind _ _ _ (fun _ => True)); [auto | |].
  { apply writes_only_allocates. destruct (decide _);
      [apply allocates_only_ret | apply allocates_only_expand]. }
  intros b _ w r w' H.
  destruct (elements w b) as [vals|]; simpl in H; [| inversion H; subst; apply touches_only_refl].
  destruct (mapM _ _) as [locs|]; simpl in H; [| inversion H; subst; apply touches_only_refl].
  destruct (write_cells _ _ w) as [w1|] eqn:Hw; inversion H; subst;
    [eapply write_cells_touches; eauto | apply touches_only_refl].
Qed.

Lemma writes_only_dispatch_index_put_ self indices value :
  writes_only (storage_id self) (dispatch_index_put_ self indices value).
Proof.
  unfold dispatch_index_put_.
  apply (writes_only_bind _ _ _ (fun _ => True)); [auto | |].
  - apply writes_only_allocates, allocates_only_typeConvertIndices.
  - intros c _. apply writes_only_index_put_.
Qed.

(** A view of [self] made by one primitive, then the copy into it. *)
Lemma writes_only_view_then_copy self (m : M TensorImpl) value :
  allocates_only m ->
  (forall w r w', m w = (Ok r, w') -> storage_id r = storage_id self) ->
  writes_only (storage_id self) (let* u := m in copy_to u value).
Proof.
  intros Hm Hs.
  apply (writes_only_bind _ _ _ (fun u => storage_id u = storage_id self)); [exact Hs | |].
  - apply writes_only_allocates, Hm.
  - intros u <-. apply writes_only_copy_to.
Qed.

Lemma writes_only_set_item self indices value :
  writes_only (storage_id self) (set_item self indices value).
Proof.
  destruct (set_fast_path indices) eqn:Hfast.
  - destruct indices as [|[| | integer tensor | b | s | t] [|]]; try discriminate Hfast;
      unfold set_item.
    + apply writes_only_view_then_copy; [apply allocates_only_unsqueeze |].
      intros ? ? ?. apply unsqueeze_storage.
    + apply writes_only_copy_to.
    + apply writes_only_view_then_copy; [apply allocates_only_applySelect |].
      intros ? ? ?. apply applySelect_storage.
    + destruct b.
      * apply writes_only_view_then_copy; [apply allocates_only_unsqueeze |].
        intros ? ? ?. apply unsqueeze_storage.
      * apply writes_only_allocates, allocates_only_ret.
    + apply writes_only_view_then_copy; [apply allocates_only_applySlice |].
      intros ? ? ?. apply applySlice_storage.
  - rewrite set_item_general by exact Hfast.
    apply (writes_only_bind _ _ _ (fun a => storage_id a.1 = storage_id self)).
    + intros w [sliced out] w' H. simpl. eapply applySlicing_storage; eauto.
    + apply writes_only_allocates, allocates_only_applySlicing.
    + intros [sliced [|t out]] Hs; simpl in Hs; rewrite <- Hs.
      * apply writes_only_copy_to.
      * apply (writes_only_bind _ _ _ (fun _ => True)); [auto | |].
        { apply writes_only_allocates. destruct (decide _);
            [apply allocates_only_view | apply allocates_only_ret]. }
        intros v _. apply (writes_only_bind _ _ _ (fun _ => True)); [auto | |].
        { apply writes_only_dispatch_index_put_. }
        intros _ _. apply writes_only_allocates, allocates_only_ret.
Qed.

Lemma writes_only_set_item_scalar self indices v :
  writes_only (storage_id self) (set_item_scalar self indices v).
Proof.
  unfold set_item_scalar.
  apply (writes_only_bind _ _ _ (fun _ => True)); [auto | |].
  - apply writes_only_allocates. unfold valueToTensor, scalar_tensor.
    destruct (isQIntType _); apply allocates_only_new_tensor.
  - intros value _. apply writes_only_set_item.
Qed.

(** X10.  An indexed assignment writes to the storage of its destination
    only.  Whatever the descriptors, the assigned tensor or scalar and the
    outcome (success or any error), [Tensor::index_put_] changes no cell of any other storage that existed
    before the call and the size of no storage; every tensor on another
    storage keeps its elements.  On success the call returns [*this]. *)
Theorem Tensor_index_put_frame self indices rhs (v : Scalar) w r w' :
  Tensor_index_put_ self indices rhs w = (r, w') \/
  Tensor_index_put_scalar self indices v w = (r, w') ->
  (forall t, r = Ok t -> t = self) /\
  touches_only (storage_id self) w w' /\
  (forall t, (storage_id t < next_id w)%nat -> storage_id t <> storage_id self ->
     elements w' t = elements w t).
Proof.
  intros H.
  assert ((forall t, r = Ok t -> t = self) /\ touches_only (storage_id self) w w')
    as [Hr Ht].
  { destruct H as [H | H].
    - unfold Tensor_index_put_ in H.
      apply bind_inv in H as [(a & w1 & H1 & H2) | (e & H1 & ->)].
      + inversion H2; subst. split; [intros t Ht; congruence |].
        eapply writes_only_set_item; eauto.
      + split; [discriminate |]. eapply writes_only_set_item; eauto.
    - unfold Tensor_index_put_scalar in H.
      apply bind_inv in H as [(a & w1 & H1 & H2) | (e & H1 & ->)].
      + inversion H2; subst. split; [intros t Ht; congruence |].
        eapply writes_only_set_item_scalar; eauto.
      + split; [discriminate |]. eapply writes_only_set_item_scalar; eauto. }
  split; [exact Hr |]. split; [exact Ht |].
  intros t Hlt Hne. apply elements_same_view; auto.
  destruct Ht as [_ Ht]. apply Ht; assumption.
Qed.

Lemma Tensor_index_put_frame_witness :
  (forall t,
     (Tensor_index_put_ ex_a [TI_Slice (mkSlice 0 2 1 None None None); TI_Tensor ex_ix]
        ex_scalar ex_world).1 = Ok t -> t = ex_a) /\
  touches_only (storage_id ex_a) ex_world
    (Tensor_index_put_ ex_a [TI_Slice (mkSlice 0 2 1 None None None); TI_Tensor ex_ix]
       ex_scalar ex_world).2 /\
  (forall t, (storage_id t < next_id ex_world)%nat -> storage_id t <> storage_id ex_a ->
     elements
       (Tensor_index_put_ ex_a [TI_Slice (mkSlice 0 2 1 None None None); TI_Tensor ex_ix]
          ex_scalar ex_world).2 t
     = elements ex_world t).
Proof.
  apply (Tensor_index_put_frame ex_a
           [TI_Slice (mkSlice 0 2 1 None None None); TI_Tensor ex_ix] ex_scalar 0 ex_world).
  left. vm_compute. reflexivity.
Defined.

(** ** 0-dimensional index tensors *)

Lemma item_extends t w w1 v :
  item t w = (Ok v, w) -> extends w w1 -> (storage_id t < next_id w)%nat ->
  item t w1 = (Ok v, w1).
Proof.
  unfold item, bind, get_world, lift_option, ret, throw, read_at, read_cell.
  intros H [_ He] Hlt.
  destruct (decide (numel (sizes t) = 1)); [| discriminate].
  rewrite (He _ Hlt).
  destruct (decide (0 <= _)); [| discriminate].
  destruct (storages w !! storage_id t ≫= _); inversion H; reflexivity.
Qed.

(** Replacing one descriptor by another that takes the same step in every
    store reached from [w] does not change the loop. *)
Lemma applySlicing_loop_replace self sd x y l2 (l1 : list TensorIndex) :
  forall i st w,
    (forall j st1 w1, extends w w1 ->
       applySlicing_step self sd j x st1 w1 = applySlicing_step self sd j y st1 w1) ->
    applySlicing_loop self sd i (l1 ++ x :: l2) st w
    = applySlicing_loop self sd i (l1 ++ y :: l2) st w.
Proof.
  induction l1 as [|a l1 IH]; intros i st w Hxy; cbn [app applySlicing_loop].
  - unfold bind. rewrite (Hxy i st w (extends_refl w)). reflexivity.
  - unfold bind.
    destruct (applySlicing_step self sd i a st w) as [[st1|e] w1] eqn:Ha; [| reflexivity].
    apply IH. intros j st2 w2 He. apply Hxy.
    eapply extends_trans; [| exact He].
    eapply allocates_only_applySlicing_step; eauto.
Qed.

Lemma applySlicing_replace self x y l1 l2 out w :
  spec_consumed x = spec_consumed y ->
  (forall sd j st1 w1, extends w w1 ->
     applySlicing_step self sd j x st1 w1 = applySlicing_step self sd j y st1 w1) ->
  applySlicing self (l1 ++ x :: l2) out w = applySlicing self (l1 ++ y :: l2) out w.
Proof.
  intros Hc Hxy. unfold applySlicing.
  assert (count_specified_dimensions (l1 ++ x :: l2)
          = count_specified_dimensions (l1 ++ y :: l2)) as ->.
  { rewrite !count_specified_dimensions_spec, !spec_count_app.
    unfold spec_count. simpl. rewrite Hc. reflexivity. }
  destruct (decide _); [| reflexivity].
  unfold bind. rewrite (applySlicing_loop_replace self _ x y); [reflexivity |].
  intros j st1 w1. apply Hxy.
Qed.

Lemma fast_paths_long (l1 l2 : list TensorIndex) x :
  l1 ++ l2 <> [] ->
  get_fast_path (l1 ++ x :: l2) = false /\ set_fast_path (l1 ++ x :: l2) = false.
Proof.
  intros Hne. destruct l1 as [|a [|b l1]]; simpl.
  - destruct l2; [contradiction |]. destruct x; auto.
  - destruct a; auto.
  - destruct a; auto.
Qed.

(** X11.  A 0-dimensional index tensor of an integral dtype other than byte
    and boolean stands for the integer it holds.  If the tensor lives in the
    store and holds [v], then anywhere in a descriptor list it can be
    replaced by the integer descriptor [v]: the slicing applier returns the
    same view, the same pending index list and the same store, or the same
    error; and so do the reads and the assignments of every descriptor list
    with at least one more descriptor. *)
Theorem index_tensor_0dim_is_integer self t v l1 l2 w :
  dim t = 0 -> isIntegralType (scalar_type t) true = true ->
  scalar_type t <> kByte -> scalar_type t <> kBool ->
  (storage_id t < next_id w)%nat -> item t w = (Ok v, w) ->
  (forall out,
     applySlicing self (l1 ++ TI_Tensor t :: l2) out w
     = applySlicing self (l1 ++ TI_Integer v (Some t) :: l2) out w) /\
  (l1 ++ l2 <> [] ->
   get_item self (l1 ++ TI_Tensor t :: l2) w
   = get_item self (l1 ++ TI_Integer v (Some t) :: l2) w /\
   forall value,
     set_item self (l1 ++ TI_Tensor t :: l2) value w
     = set_item self (l1 ++ TI_Integer v (Some t) :: l2) value w).
Proof.
  intros Hd Hint Hb1 Hb2 Hlt Hitem.
  assert (forall out,
            applySlicing self (l1 ++ TI_Tensor t :: l2) out w
            = applySlicing self (l1 ++ TI_Integer v (Some t) :: l2) out w) as Happ.
  { intros out. apply applySlicing_replace.
    - unfold spec_consumed, is_mask_type.
      rewrite !bool_decide_eq_false_2 by assumption. reflexivity.
    - intros sd j [[result d] o] w1 He. cbn [applySlicing_step].
      rewrite Hint, bool_decide_eq_true_2 by exact Hd.
      rewrite !bool_decide_eq_true_2 by assumption. cbn [andb].
      rewrite (bind_ok _ _ _ _ _ (item_extends _ _ _ _ Hitem He Hlt)). reflexivity. }
  split; [exact Happ |]. intros Hne.
  destruct (fast_paths_long l1 l2 (TI_Tensor t) Hne) as [Hg1 Hs1].
  destruct (fast_paths_long l1 l2 (TI_Integer v (Some t)) Hne) as [Hg2 Hs2].
  split.
  - rewrite !get_item_general by assumption. unfold bind. rewrite Happ. reflexivity.
  - intros value. rewrite !set_item_general by assumption. unfold bind.
    rewrite Happ. reflexivity.
Qed.

Lemma index_tensor_0dim_is_integer_witness :
  (forall out,
     applySlicing ex_a ([TI_None] ++ TI_Tensor ex_scalar :: []) out
       (mkWorld 6 {[ 0%nat := [10; 11; 12; 13; 14; 15]; 4%nat := [1] ]})
     = applySlicing ex_a ([TI_None] ++ TI_Integer 1 (Some ex_scalar) :: []) out
         (mkWorld 6 {[ 0%nat := [10; 11; 12; 13; 14; 15]; 4%nat := [1] ]})) /\
  ([TI_None] ++ [] <> [] ->
   get_item ex_a ([TI_None] ++ TI_Tensor ex_scalar :: [])
     (mkWorld 6 {[ 0%nat := [10; 11; 12; 13; 14; 15]; 4%nat := [1] ]})
   = get_item ex_a ([TI_None] ++ TI_Integer 1 (Some ex_scalar) :: [])
       (mkWorld 6 {[ 0%nat := [10; 11; 12; 13; 14; 15]; 4%nat := [1] ]}) /\
   forall value,
     set_item ex_a ([TI_None] ++ TI_Tensor ex_scalar :: []) value
       (mkWorld 6 {[ 0%nat := [10; 11; 12; 13; 14; 15]; 4%nat := [1] ]})
     = set_item ex_a ([TI_None] ++ TI_Integer 1 (Some ex_scalar) :: []) value
         (mkWorld 6 {[ 0%nat := [10; 11; 12; 13; 14; 15]; 4%nat := [1] ]})).
Proof.
  apply (index_tensor_0dim_is_integer ex_a ex_scalar 1 [TI_None] []
           (mkWorld 6 {[ 0%nat := [10; 11; 12; 13; 14; 15]; 4%nat := [1] ]})).
  - reflexivity.
  - reflexivity.
  - discriminate.
  - discriminate.
  - vm_compute. lia.
  - vm_compute. reflexivity.
Defined.

(** X12.  A 0-dimensional byte or boolean index tensor stands for the
    boolean "its value is not zero".  If the tensor lives in the store and
    holds [v], then anywhere in a descriptor list it can be replaced by the
    boolean descriptor [v != 0]: the slicing applier returns the same view,
    the same pending index list and the same store, or the same error, and
    so does the read. *)
Theorem index_tensor_0dim_is_boolean self t v l1 l2 w :
  dim t = 0 -> scalar_type t = kByte \/ scalar_type t = kBool ->
  (storage_id t < next_id w)%nat -> item t w = (Ok v, w) ->
  (forall out,
     applySlicing self (l1 ++ TI_Tensor t :: l2) out w
     = applySlicing self (l1 ++ TI_Boolean (bool_decide (v <> 0)) :: l2) out w) /\
  get_item self (l1 ++ TI_Tensor t :: l2) w
  = get_item self (l1 ++ TI_Boolean (bool_decide (v <> 0)) :: l2) w.
Proof.
  intros Hd Hty Hlt Hitem.
  assert (forall out,
            applySlicing self (l1 ++ TI_Tensor t :: l2) out w
            = applySlicing self (l1 ++ TI_Boolean (bool_decide (v <> 0)) :: l2) out w)
    as Happ.
  { intros out. apply applySlicing_replace.
    - unfold spec_consumed, is_mask_type. destruct Hty as [-> | ->]; simpl; exact Hd.
    - intros sd j [[result d] o] w1 He. cbn [applySlicing_step].
      rewrite bool_decide_eq_true_2 by exact Hd.
      assert (isIntegralType (scalar_type t) true = true) as ->
        by (destruct Hty as [-> | ->]; reflexivity).
      assert (bool_decide (scalar_type t <> kByte) && bool_decide (scalar_type t <> kBool)
              = false) as -> by (destruct Hty as [-> | ->]; reflexivity).
      cbn [andb].
      destruct (unsqueeze result d w1) as [[u|e] w2] eqn:Hu.
      + rewrite (bind_ok _ _ _ _ _ Hu). rewrite (bind_ok _ _ _ _ _ Hu). cbv beta.
        assert (extends w w2) as He2.
        { eapply extends_trans; [exact He |]. eapply allocates_only_unsqueeze; eauto. }
        rewrite (bind_ok _ _ _ _ _ (item_extends _ _ _ _ Hitem He2 Hlt)). reflexivity.
      + rewrite (bind_fail _ _ _ _ _ Hu). rewrite (bind_fail _ _ _ _ _ Hu). reflexivity. }
  split; [exact Happ |].
  assert (forall x, (exists tt', x = TI_Tensor tt') \/ (exists b, x = TI_Boolean b) ->
            get_fast_path (l1 ++ x :: l2) = false) as Hfast.
  { intros x Hx. destruct l1 as [|a [|b l1]]; simpl.
    - destruct Hx as [[? ->] | [? ->]]; reflexivity.
    - destruct a; reflexivity.
    - destruct a; reflexivity. }
  rewrite !get_item_general by (apply Hfast; eauto).
  unfold bind. rewrite Happ. reflexivity.
Qed.

Lemma index_tensor_0dim_is_boolean_witness :
  (forall out,
     applySlicing ex_a ([] ++ TI_Tensor (mkTensor 5 4 0 [] [] kBool kCPU) :: []) out
       (mkWorld 6 {[ 0%nat := [10; 11; 12; 13; 14; 15]; 4%nat := [1] ]})
     = applySlicing ex_a ([] ++ TI_Boolean (bool_decide (1 <> 0)) :: []) out
         (mkWorld 6 {[ 0%nat := [10; 11; 12; 13; 14; 15]; 4%nat := [1] ]})) /\
  get_item ex_a ([] ++ TI_Tensor (mkTensor 5 4 0 [] [] kBool kCPU) :: [])
    (mkWorld 6 {[ 0%nat := [10; 11; 12; 13; 14; 15]; 4%nat := [1] ]})
  = get_item ex_a ([] ++ TI_Boolean (bool_decide (1 <> 0)) :: [])
      (mkWorld 6 {[ 0%nat := [10; 11; 12; 13; 14; 15]; 4%nat := [1] ]}).
Proof.
  apply (index_tensor_0dim_is_boolean ex_a (mkTensor 5 4 0 [] [] kBool kCPU) 1 [] []
           (mkWorld 6 {[ 0%nat := [10; 11; 12; 13; 14; 15]; 4%nat := [1] ]})).
  - reflexivity.
  - right. reflexivity.
  - vm_compute. lia.
  - vm_compute. reflexivity.
Defined.

(** ** An integer descriptor peels off a dimension *)

(** The loop of the slicing applier depends on the source and on the
    number of specified dimensions only through the number of dimensions an
    Ellipsis stands for, and not on the position of the descriptors. *)
Lemma applySlicing_step_self self sd self' sd' i i' obj st w :
  dim self - sd = dim self' - sd' ->
  applySlicing_step self sd i obj st w = applySlicing_step self' sd' i' obj st w.
Proof.
  intros H. destruct st as [[result d] out].
  destruct obj; cbn [applySlicing_step]; rewrite ?H; reflexivity.
Qed.

Lemma applySlicing_loop_self self sd self' sd' indices :
  dim self - sd = dim self' - sd' ->
  forall i i' st w,
    applySlicing_loop self sd i indices st w = applySlicing_loop self' sd' i' indices st w.
Proof.
  intros H. induction indices as [|obj rest IH]; intros i i' st w; cbn [applySlicing_loop].
  - reflexivity.
  - unfold bind. rewrite (applySlicing_step_self self sd self' sd' i i' obj st w H).
    destruct (applySlicing_step self' sd' i' obj st w) as [[st1|e] w1]; [| reflexivity].
    apply IH.
Qed.

(** X13.  An integer descriptor in front peels off the first dimension:
    when the arity check passes, the slicing applier on [i, rest...] does
    what it does on [rest...] for the view selected by [i], with the same
    result, pending index list, store or error.  In particular the read
    [a[i, j]] is the read [a[i][j]] for a source of rank 2 or more that
    lives in the store. *)
Theorem applySlicing_integer_first a i ti rest w :
  1 + count_specified_dimensions rest <= dim a ->
  (forall out,
     applySlicing a (TI_Integer i ti :: rest) out w
     = (let* r := applySelect a 0 i ti 0 in applySlicing r rest out) w) /\
  (forall j tj,
     rest = [TI_Integer j tj] -> (impl_id a < next_id w)%nat ->
     get_item a [TI_Integer i ti; TI_Integer j tj] w
     = (let* r := get_item a [TI_Integer i ti] in get_item r [TI_Integer j tj]) w).
Proof.
  intros Hsd.
  assert (forall out,
            applySlicing a (TI_Integer i ti :: rest) out w
            = (let* r := applySelect a 0 i ti 0 in applySlicing r rest out) w) as Happ.
  { intros out. unfold applySlicing at 1.
    assert (count_specified_dimensions (TI_Integer i ti :: rest)
            = 1 + count_specified_dimensions rest) as Hc.
    { rewrite !count_specified_dimensions_spec. reflexivity. }
    rewrite Hc, decide_True by exact Hsd.
    cbn [applySlicing_loop applySlicing_step]. unfold bind.
    destruct (applySelect a 0 i ti 0 w) as [[r|e] w1] eqn:Hsel; [| reflexivity].
    pose proof (applySelect_view _ _ _ _ _ _ _ _ Hsel) as (_ & _ & _ & Hdim).
    unfold ret at 1. unfold applySlicing. rewrite decide_True by lia. unfold bind.
    rewrite (applySlicing_loop_self a (1 + count_specified_dimensions rest)
               r (count_specified_dimensions rest) rest ltac:(lia) (0 + 1) 0).
    reflexivity. }
  split; [exact Happ |]. intros j tj -> Hlt.
  rewrite get_item_general by reflexivity. unfold bind at 1. rewrite Happ.
  unfold get_item. unfold bind.
  destruct (applySelect a 0 i ti 0 w) as [[r|e] w1] eqn:Hsel; [| reflexivity].
  pose proof (applySelect_view _ _ _ _ _ _ _ _ Hsel) as (-> & Hid & _ & Hdim).
  unfold applySlicing. rewrite decide_True
    by (rewrite count_specified_dimensions_spec in *; unfold spec_count in *; simpl in *; lia).
  cbn [applySlicing_loop applySlicing_step]. unfold bind.
  destruct (applySelect r 0 j tj 0 _) as [[r2|e] w2] eqn:Hsel2; [| reflexivity].
  unfold ret.
  apply applySelect_view in Hsel2 as (_ & Hid2 & _).
  simpl in Hid2. rewrite (is_same_fresh r2 a w) by lia. reflexivity.
Qed.

Lemma applySlicing_integer_first_witness :
  (forall out,
     applySlicing ex_a (TI_Integer 1 None :: [TI_Integer 2 None]) out ex_world
     = (let* r := applySelect ex_a 0 1 None 0 in
        applySlicing r [TI_Integer 2 None] out) ex_world) /\
  (forall j tj,
     [TI_Integer 2 None] = [TI_Integer j tj] -> (impl_id ex_a < next_id ex_world)%nat ->
     get_item ex_a [TI_Integer 1 None; TI_Integer j tj] ex_world
     = (let* r := get_item ex_a [TI_Integer 1 None] in get_item r [TI_Integer j tj]) ex_world).
Proof.
  apply (applySlicing_integer_first ex_a 1 None [TI_Integer 2 None] ex_world).
  vm_compute. discriminate.
Defined.

(** ** The Ellipsis *)

(** X14.  An Ellipsis in front moves the cursor to the dimensions the
    remaining descriptors address, counted from the back: for a source that
    lives in the store, [a[..., None]] is the unsqueeze behind the last
    dimension, and for a source of rank 1 or more [a[..., i]] is the select
    and [a[..., lo:hi:st]] is the slice of the last dimension; the result,
    the store or the error are those of the primitive. *)
Theorem get_item_ellipsis_last a w :
  (impl_id a < next_id w)%nat ->
  get_item a [TI_Ellipsis; TI_None] w = unsqueeze a (dim a) w /\
  (1 <= dim a ->
   (forall i ti,
      get_item a [TI_Ellipsis; TI_Integer i ti] w = applySelect a (dim a - 1) i ti 1 w) /\
   (forall s,
      get_item a [TI_Ellipsis; TI_Slice s] w
      = applySlice a (dim a - 1) (start s) (stop s) (step s)
          (start_tensor s) (stop_tensor s) (step_tensor s) false w)).
Proof.
  intros Hlt.
  assert (forall x, count_specified_dimensions [TI_Ellipsis; x] = spec_consumed x) as Hc.
  { intros x. rewrite count_specified_dimensions_spec. unfold spec_count. simpl. lia. }
  split; [| intros Hd; split].
  - rewrite get_item_general by reflexivity. unfold applySlicing.
    rewrite Hc. cbn [spec_consumed]. rewrite decide_True by (unfold dim; lia).
    cbn [applySlicing_loop applySlicing_step]. unfold bind, ret.
    replace (0 + (dim a - 0)) with (dim a) by lia.
    cbn [applySlicing_step]. unfold bind, ret.
    destruct (unsqueeze a (dim a) w) as [[r|e] w1] eqn:E; [| reflexivity].
    apply unsqueeze_view in E as (_ & Hid & _).
    rewrite (is_same_fresh r a w) by lia. reflexivity.
  - intros i ti. rewrite get_item_general by reflexivity. unfold applySlicing.
    rewrite Hc. cbn [spec_consumed]. rewrite decide_True by exact Hd.
    cbn [applySlicing_loop applySlicing_step]. unfold bind, ret.
    replace (0 + (dim a - 1)) with (dim a - 1) by lia.
    cbn [applySlicing_step]. unfold bind, ret.
    change (applySelect a (dim a - 1) i ti (0 + 1)) with (applySelect a (dim a - 1) i ti 1).
    destruct (applySelect a (dim a - 1) i ti 1 w) as [[r|e] w1] eqn:E; [| reflexivity].
    apply applySelect_view in E as (_ & Hid & _).
    rewrite (is_same_fresh r a w) by lia. reflexivity.
  - intros s. rewrite get_item_general by reflexivity. unfold applySlicing.
    rewrite Hc. cbn [spec_consumed]. rewrite decide_True by exact Hd.
    cbn [applySlicing_loop applySlicing_step]. unfold bind, ret.
    replace (0 + (dim a - 1)) with (dim a - 1) by lia.
    cbn [applySlicing_step]. unfold bind, ret.
    destruct (applySlice a (dim a - 1) (start s) (stop s) (step s) (start_tensor s)
                (stop_tensor s) (step_tensor s) false w) as [[r|e] w1] eqn:E; [| reflexivity].
    apply applySlice_view in E as (_ & Hid & _).
    rewrite (is_same_fresh r a w) by lia. reflexivity.
Qed.

Lemma get_item_ellipsis_last_witness :
  get_item ex_a [TI_Ellipsis; TI_None] ex_world = unsqueeze ex_a (dim ex_a) ex_world /\
  (1 <= dim ex_a ->
   (forall i ti,
      get_item ex_a [TI_Ellipsis; TI_Integer i ti] ex_world
      = applySelect ex_a (dim ex_a - 1) i ti 1 ex_world) /\
   (forall s,
      get_item ex_a [TI_Ellipsis; TI_Slice s] ex_world
      = applySlice ex_a (dim ex_a - 1) (start s) (stop s) (step s)
          (start_tensor s) (stop_tensor s) (step_tensor s) false ex_world)).
Proof. apply (get_item_ellipsis_last ex_a ex_world). vm_compute. lia. Defined.

(** ** Advanced indexing returns a copy *)

(** What a gather that succeeds returns: a new row-major tensor on a new
    storage that holds the gathered elements. *)
Lemma index_inv self indices w r w' :
  index self indices w = (Ok r, w') ->
  exists p vals,
    index_plan w self indices = Some p /\
    mapM (fun m => plan_source p m ≫= read_at w self) (all_indices (plan_shape p))
    = Some vals /\
    r = mkTensor (S (next_id w)) (next_id w) 0 (plan_shape p)
          (contiguous_strides (plan_shape p)) (scalar_type self) (device self) /\
    w' = mkWorld (S (S (next_id w))) (<[next_id w := vals]> (storages w)).
Proof.
  unfold index, bind, get_world, lift_option, ret, throw. intros H.
  destruct (index_plan w self indices) as [p|]; simpl in H; [| discriminate].
  destruct (mapM _ _) as [vals|] eqn:Hv; simpl in H; [| discriminate].
  inversion H; subst. exists p, vals. auto.
Qed.

Lemma advanced_count_pos (indices : list TensorIndex) :
  Exists (fun obj => is_advanced obj = true) indices ->
  (0 < sum_list_with (fun obj => if is_advanced obj then 1 else 0) indices)%nat.
Proof.
  intros H. induction H as [obj rest Hobj | obj rest _ IH]; simpl.
  - rewrite Hobj. lia.
  - lia.
Qed.

(** X15.  Advanced indexing returns a copy.  When some descriptor is a
    boolean or an index array (other than a 0-dimensional integer array) and
    [get_item] succeeds, the slicing applier has returned a view [sliced]
    on the storage of the source and a pending index list that is not
    empty, and the result is what [dispatch_index] returns for them: with
    the index tensors converted by [typeConvertIndices], a new row-major
    tensor of the dtype and device of the source, on a storage that did
    not exist before the call and that holds exactly the elements gathered
    from [sliced] at the positions the converted index tensors give.  The
    call has only allocated. *)
Theorem get_item_advanced_copy self indices w r w' :
  Exists (fun obj => is_advanced obj = true) indices ->
  get_item self indices w = (Ok r, w') ->
  exists sliced out w1 converted w2 p vals,
    applySlicing self indices [] w = (Ok (sliced, out), w1) /\
    out <> [] /\ storage_id sliced = storage_id self /\
    dispatch_index sliced out w1 = (Ok r, w') /\
    typeConvertIndices sliced out w1 = (Ok converted, w2) /\
    index_plan w2 sliced converted = Some p /\
    mapM (fun m => plan_source p m ≫= read_at w2 sliced) (all_indices (plan_shape p))
    = Some vals /\
    r = mkTensor (S (next_id w2)) (next_id w2) 0 (plan_shape p)
          (contiguous_strides (plan_shape p)) (scalar_type self) (device self) /\
    w' = mkWorld (S (S (next_id w2))) (<[next_id w2 := vals]> (storages w2)) /\
    (next_id w <= next_id w2)%nat /\
    extends w w'.
Proof.
  intros Hadv H.
  pose proof (allocates_only_get_item _ _ _ _ _ H) as Hext.
  assert (get_fast_path indices = false) as Hfast.
  { destruct indices as [|[| | integer tensor | b | s | t] [|]]; try reflexivity;
      inversion Hadv as [? ? Hx | ? ? Hx]; subst;
      try discriminate Hx; inversion Hx. }
  rewrite get_item_general in H by exact Hfast.
  bind_inv_ok H. destruct a as [sliced out].
  pose proof (allocates_only_applySlicing _ _ _ _ _ _ H0) as [Hn0 _].
  pose proof (applySlicing_storage _ _ _ _ _ _ _ H0) as Hsid.
  assert (options sliced = options self /\ out <> []) as [Ho Hout].
  { pose proof H0 as Hs. unfold applySlicing in Hs.
    destruct (decide _) as [Hsd|]; [| discriminate].
    bind_inv_ok Hs. destruct a as [[r1 d1] o1]. inversion Hs; subst.
    pose proof H1 as Hp.
    apply applySlicing_loop_pending in Hp as (_ & _ & _ & Hc & _);
      [| exact Hsd | lia | simpl; lia].
    apply applySlicing_loop_view in H1 as (Ho & _).
    split; [exact Ho |]. intros ->.
    pose proof (advanced_count_pos _ Hadv). unfold defined_count in Hc. simpl in Hc. lia. }
  assert (dispatch_index sliced out w0 = (Ok r, w')) as Hdisp
    by (destruct out; [contradiction | exact H]).
  pose proof Hdisp as Hd. unfold dispatch_index in Hd. bind_inv_ok Hd.
  pose proof (allocates_only_typeConvertIndices _ _ _ _ _ H1) as [Hn1 _].
  apply index_inv in Hd as (p & vals & Hplan & Hvals & Hr & Hw).
  unfold options in Ho. inversion Ho as [[Hty Hdev]].
  exists sliced, out, w0, a, w1, p, vals.
  split; [exact H0 |]. split; [exact Hout |]. split; [exact Hsid |].
  split; [exact Hdisp |]. split; [exact H1 |]. split; [exact Hplan |].
  split; [exact Hvals |]. split; [rewrite Hr, Hty, Hdev; reflexivity |].
  split; [exact Hw |]. split; [lia | exact Hext].
Qed.

Lemma get_item_advanced_copy_witness :
  exists sliced out w1 converted w2 p vals,
    applySlicing ex_a [TI_Slice (mkSlice 0 2 1 None None None); TI_Tensor ex_ix] [] ex_world
    = (Ok (sliced, out), w1) /\
    out <> [] /\ storage_id sliced = storage_id ex_a /\
    dispatch_index sliced out w1
    = (Ok (mkTensor 12 11 0 [2; 2] [2; 1] kLong kCPU),
       mkWorld 13 (<[11%nat := [12; 10; 15; 13]]> (storages ex_world))) /\
    typeConvertIndices sliced out w1 = (Ok converted, w2) /\
    index_plan w2 sliced converted = Some p /\
    mapM (fun m => plan_source p m ≫= read_at w2 sliced) (all_indices (plan_shape p))
    = Some vals /\
    mkTensor 12 11 0 [2; 2] [2; 1] kLong kCPU
    = mkTensor (S (next_id w2)) (next_id w2) 0 (plan_shape p)
        (contiguous_strides (plan_shape p)) (scalar_type ex_a) (device ex_a) /\
    mkWorld 13 (<[11%nat := [12; 10; 15; 13]]> (storages ex_world))
    = mkWorld (S (S (next_id w2))) (<[next_id w2 := vals]> (storages w2)) /\
    (next_id ex_world <= next_id w2)%nat /\
    extends ex_world (mkWorld 13 (<[11%nat := [12; 10; 15; 13]]> (storages ex_world))).
Proof.
  apply (get_item_advanced_copy ex_a
           [TI_Slice (mkSlice 0 2 1 None None None); TI_Tensor ex_ix] ex_world).
  - apply Exists_cons_tl, Exists_cons_hd. reflexivity.
  - vm_compute. reflexivity.
Defined.

(** ** Filling a tensor with a scalar *)

Lemma cast_to_idem d v : cast_to d (cast_to d v) = cast_to d v.
Proof.
  assert (forall b, wrap_signed b (wrap_signed b v) = wrap_signed b v) as Hw.
  { intros b. unfold wrap_signed.
    replace ((v + 2 ^ (b - 1)) mod 2 ^ b - 2 ^ (b - 1) + 2 ^ (b - 1))
      with ((v + 2 ^ (b - 1)) mod 2 ^ b) by lia.
    rewrite Zmod_mod. reflexivity. }
  destruct d; simpl; try reflexivity; try apply Hw.
  - apply Zmod_mod.
  - destruct (decide (v = 0)); reflexivity.
Qed.

Lemma dot_zeros st : Forall (eq 0) st -> forall idx, dot idx st = 0.
Proof.
  induction 1 as [|s st <- _ IH]; intros [|i idx]; simpl; try reflexivity.
  rewrite IH. lia.
Qed.

Lemma mapM_const {A B} (f : A -> option B) (c : B) (l : list A) :
  Forall (fun x => f x = Some c) l -> mapM f l = Some (replicate (length l) c).
Proof.
  intros H. apply mapM_Some_2.
  induction H as [|x l Hx _ IH]; simpl; constructor; assumption.
Qed.

Lemma write_cell_ok sid loc v w :
  is_Some (read_cell w sid loc) -> is_Some (write_cell sid loc v w).
Proof.
  unfold read_cell, write_cell.
  destruct (decide (0 <= loc)); [| intros [? ?]; discriminate].
  destruct (storages w !! sid) as [data|]; simpl; [| intros [? ?]; discriminate].
  intros H. apply lookup_lt_is_Some in H. rewrite decide_True by exact H. eauto.
Qed.

Lemma write_cell_readable sid loc v w w' loc' :
  write_cell sid loc v w = Some w' ->
  is_Some (read_cell w sid loc') -> is_Some (read_cell w' sid loc').
Proof.
  intros H Hr. destruct (decide (loc' = loc)) as [-> | Hne].
  - rewrite (write_cell_read_eq _ _ _ _ _ H). eauto.
  - rewrite (write_cell_read_ne _ _ _ _ _ _ H Hne). exact Hr.
Qed.

(** Writing one value to cells that can be read succeeds, and afterwards
    every one of them holds the value, whether or not a cell is listed more
    than once. *)
Lemma write_cells_const sid x locs : forall w,
  Forall (fun loc => is_Some (read_cell w sid loc)) locs ->
  exists w',
    write_cells sid (zip locs (replicate (length locs) x)) w = Some w' /\
    Forall (fun loc => read_cell w' sid loc = Some x) locs.
Proof.
  induction locs as [|loc locs IH]; intros w Hr; simpl.
  - exists w. split; [reflexivity | constructor].
  - apply Forall_cons in Hr as [Hloc Hr].
    destruct (write_cell_ok sid loc x w Hloc) as [w1 H1]. rewrite H1. simpl.
    destruct (IH w1) as (w' & Hw & Hall).
    { eapply Forall_impl; [exact Hr |]. intros loc'. apply (write_cell_readable _ _ _ _ _ _ H1). }
    exists w'. split; [exact Hw |]. constructor; [| exact Hall].
    destruct (decide (loc ∈ locs)) as [Hin | Hnotin].
    + rewrite Forall_forall in Hall. apply Hall. exact Hin.
    + rewrite (write_cells_frame _ _ _ _ _ Hw).
      * eapply write_cell_read_eq; eauto.
      * rewrite fst_zip by (rewrite length_replicate; lia). exact Hnotin.
Qed.

(** A 0-dimensional tensor broadcasts to every shape, with strides 0. *)
Lemma expand_inplace_scalar dst s w :
  sizes s = [] -> strides s = [] ->
  exists b,
    expand_inplace dst s w = (Ok b, mkWorld (next_id (expand_inplace dst s w).2) (storages w)) /\
    sizes b = sizes dst /\ Forall (eq 0) (strides b) /\
    storage_id b = storage_id s /\ storage_offset b = storage_offset s.
Proof.
  intros Hs Hst. unfold expand_inplace.
  destruct (decide (sizes dst = sizes s)) as [Heq | Hne].
  - exists s. simpl. split; [destruct w; reflexivity |].
    split; [auto |]. rewrite Hst. auto.
  - unfold expand, expand_strides. rewrite Hs, Hst. simpl.
    rewrite Nat.sub_0_r, drop_all. simpl.
    eexists. split; [reflexivity |]. simpl. split; [reflexivity |].
    split; [| auto]. rewrite app_nil_r. apply Forall_replicate. reflexivity.
Qed.

(** The copy of a 0-dimensional value into a destination whose cells can
    be read: it succeeds and fills the destination. *)
Lemma copy_to_scalar_fill dst value c w :
  sizes value = [] -> strides value = [] ->
  read_cell w (storage_id value) (storage_offset value) = Some c ->
  is_Some (elements w dst) ->
  exists w',
    copy_to dst value w = (Ok tt, w') /\
    elements w' dst
    = Some (replicate (length (all_indices (sizes dst))) (cast_to (scalar_type dst) c)).
Proof.
  intros Hs Hst Hc Hread. unfold copy_to.
  pose proof (view_slicePrefix1sSize value w) as Hview.
  rewrite (bind_ok _ _ _ _ _ Hview). cbv beta.
  match type of Hview with
  | _ = (Ok ?s, ?w2) =>
    destruct (expand_inplace_scalar dst s w2) as (b & Hb & Hsz & Hzero & Hsid & Hoff);
    [simpl; rewrite Hs; reflexivity | simpl; rewrite Hs, Hst; reflexivity |];
    set (w3 := mkWorld (next_id (expand_inplace dst s w2).2) (storages w2)) in *
  end.
  rewrite (bind_ok _ _ _ _ _ Hb). cbv beta. simpl in Hsid, Hoff.
  assert (forall sid loc, read_cell w3 sid loc = read_cell w sid loc) as Hcell
    by reflexivity.
  assert (elements w3 b = Some (replicate (length (all_indices (sizes dst))) c)) as Hvals.
  { unfold elements. rewrite Hsz. apply mapM_const. apply Forall_forall. intros idx _.
    unfold read_at, location. rewrite (dot_zeros _ Hzero), Hsid, Hoff, Z.add_0_r, Hcell.
    exact Hc. }
  destruct (write_cells_const (storage_id dst) (cast_to (scalar_type dst) c)
              (location dst <$> all_indices (sizes dst)) w3) as (w' & Hw & Hall).
  { apply Forall_fmap. apply mapM_is_Some in Hread.
    eapply Forall_impl; [exact Hread |]. intros idx Hidx.
    unfold compose, read_at in *. rewrite Hcell. exact Hidx. }
  exists w'. split.
  - unfold bind at 1. rewrite copy_same_sizes by (symmetry; exact Hsz).
    rewrite Hvals. simpl. rewrite fmap_replicate.
    rewrite length_fmap in Hw. rewrite Hw. reflexivity.
  - unfold elements.
    rewrite <- (length_fmap (location dst)) at 1.
    rewrite (mapM_ext _ ((fun loc => read_cell w' (storage_id dst) loc) ∘ location dst))
      by reflexivity.
    rewrite <- mapM_fmap_compose. rewrite length_fmap.
    rewrite <- (length_fmap (location dst)). apply mapM_const. exact Hall.
Qed.

(** The scalar of an assignment as a tensor, converted once more to the
    dtype of the destination. *)
Lemma cast_to_scalar_value (a : TensorImpl) v :
  cast_to (scalar_type a)
    (cast_to (opt_dtype (if isQIntType (scalar_type a)
                         then mkOptions kFloat kCPU else options a)) v)
  = cast_to (scalar_type a) v.
Proof.
  destruct (isQIntType (scalar_type a)) eqn:Hq; simpl; [reflexivity | apply cast_to_idem].
Qed.

Lemma set_item_scalar_run a indices v w :
  set_item_scalar a indices v w
  = set_item a indices
      (mkTensor (S (next_id w)) (next_id w) 0 [] []
         (opt_dtype (if isQIntType (scalar_type a) then mkOptions kFloat kCPU else options a))
         (opt_device (if isQIntType (scalar_type a) then mkOptions kFloat kCPU else options a)))
      (mkWorld (S (S (next_id w)))
         (<[next_id w :=
              [cast_to (opt_dtype (if isQIntType (scalar_type a)
                                   then mkOptions kFloat kCPU else options a)) v]]>
            (storages w))).
Proof.
  unfold set_item_scalar. destruct (isQIntType (scalar_type a));
    rewrite (bind_ok _ _ _ _ _ (valueToTensor_run _ v w)); reflexivity.
Qed.

(** X16.  Filling with a scalar.  For a tensor whose elements can all be
    read, the assignment [a[...] = v] of a scalar succeeds, and afterwards
    every element of [a] is [v] converted to the dtype of [a]: the scalar
    becomes a 0-dimensional tensor, is viewed, broadcast to the shape of
    [a] and copied.  Cells that [a] addresses more than once are no
    obstacle. *)
Theorem set_item_scalar_fill a v w :
  readable w a ->
  exists w',
    set_item_scalar a [TI_Ellipsis] v w = (Ok tt, w') /\
    elements w' a
    = Some (replicate (length (all_indices (sizes a))) (cast_to (scalar_type a) v)).
Proof.
  intros [Hlt Hread]. rewrite set_item_scalar_run.
  rewrite <- (cast_to_scalar_value a v).
  change (set_item a [TI_Ellipsis]) with (copy_to a).
  apply copy_to_scalar_fill; try reflexivity.
  - unfold read_cell. simpl. rewrite lookup_insert_eq. reflexivity.
  - rewrite (elements_extends w); [exact Hread | apply extends_valueToTensor | exact Hlt].
Qed.

Lemma set_item_scalar_fill_witness :
  exists w',
    set_item_scalar ex_a [TI_Ellipsis] 5 ex_world = (Ok tt, w') /\
    elements w' ex_a
    = Some (replicate (length (all_indices (sizes ex_a))) (cast_to (scalar_type ex_a) 5)).
Proof.
  apply (set_item_scalar_fill ex_a 5 ex_world).
  split; [vm_compute; lia | vm_compute; eauto].
Defined.

(** ** Writing a scalar and reading it back *)

Lemma same_view_refl r : same_view r r.
Proof. unfold same_view. auto 10. Qed.

Lemma same_view_sym r r' : same_view r r' -> same_view r' r.
Proof. unfold same_view. intros (? & ? & ? & ? & ? & ?). auto 10. Qed.

Lemma same_view_trans r1 r2 r3 : same_view r1 r2 -> same_view r2 r3 -> same_view r1 r3.
Proof.
  unfold same_view. intros (? & ? & ? & ? & ? & ?) (? & ? & ? & ? & ? & ?).
  repeat split; congruence.
Qed.

Lemma same_view_elements w w' r r' :
  same_view r r' -> storages w' = storages w -> elements w' r' = elements w r.
Proof.
  intros (Hs & Ho & Hz & Ht & _) Hw. apply elements_same_view; congruence.
Qed.

Ltac same_view_subst r r' H :=
  destruct r, r'; unfold same_view in H; simpl in H;
  destruct H as (-> & -> & -> & -> & -> & ->).

(** The view primitives look at the view only: on the same view they
    succeed in every store, with the same view as result. *)
Lemma alias_same_view t w u w1 : alias t w = (Ok u, w1) -> same_view t u.
Proof.
  rewrite alias_run. intros H. inversion H; subst. unfold same_view. simpl. auto 10.
Qed.

Lemma unsqueeze_transfer r r' d w w' u w1 :
  same_view r r' -> unsqueeze r d w = (Ok u, w1) ->
  exists u',
    unsqueeze r' d w' = (Ok u', mkWorld (S (next_id w')) (storages w')) /\ same_view u u'.
Proof.
  intros Hv. same_view_subst r r' Hv.
  unfold unsqueeze, bind, lift_option, fresh, ret, throw, dim. simpl.
  destruct (wrap_index d _); simpl; intros H; inversion H; subst.
  eexists. split; [reflexivity |]. unfold same_view. simpl. auto 10.
Qed.

Lemma applySelect_transfer r r' d i it rd it' rd' w w' u w1 :
  same_view r r' -> applySelect r d i it rd w = (Ok u, w1) ->
  exists u',
    applySelect r' d i it' rd' w' = (Ok u', mkWorld (S (next_id w')) (storages w')) /\
    same_view u u'.
Proof.
  intros Hv. same_view_subst r r' Hv.
  unfold applySelect, select, bind, lift_option, fresh, ret, throw, dim. simpl.
  destruct (decide _); [discriminate |].
  destruct (wrap_index d _) as [k|]; simpl; [| discriminate].
  destruct (_ !! k) as [size|]; simpl; [| discriminate].
  destruct (wrap_index i size); simpl; intros H; inversion H; subst.
  eexists. split; [reflexivity |]. unfold same_view. simpl. auto 10.
Qed.

Lemma applySlice_transfer r r' d a b c ta tb tc f ta' tb' tc' f' w w' u w1 :
  same_view r r' -> applySlice r d a b c ta tb tc f w = (Ok u, w1) ->
  exists u',
    applySlice r' d a b c ta' tb' tc' f' w'
    = (Ok u', mkWorld (S (next_id w')) (storages w')) /\
    same_view u u'.
Proof.
  intros Hv. same_view_subst r r' Hv.
  unfold applySlice, slice_view, bind, lift_option, fresh, ret, throw, dim. simpl.
  destruct (decide _); [discriminate |].
  destruct (wrap_index d _) as [k|]; simpl; [| discriminate].
  destruct (_ !! k) as [size|]; simpl; [| discriminate].
  destruct (decide (c <= 0)); simpl; intros H; inversion H; subst.
  eexists. split; [reflexivity |]. unfold same_view. simpl. auto 10.
Qed.

Lemma applySlicing_step_transfer self sd i obj r r' d out w w' u d1 out1 w1 :
  is_plain obj = true -> same_view r r' ->
  applySlicing_step self sd i obj (r, d, out) w = (Ok (u, d1, out1), w1) ->
  out1 = out /\
  exists u' w1',
    applySlicing_step self sd i obj (r', d, out) w' = (Ok (u', d1, out), w1') /\
    same_view u u' /\ storages w1' = storages w'.
Proof.
  intros Hp Hv H. destruct obj as [| | integer tensor | b | s | t]; try discriminate Hp;
    cbn [applySlicing_step] in *.
  - bind_inv_ok H. inversion H; subst.
    destruct (unsqueeze_transfer _ _ _ _ w' _ _ Hv H0) as (u' & Hu & Hv').
    split; [reflexivity |]. do 2 eexists.
    rewrite (bind_ok _ _ _ _ _ Hu). split; [reflexivity |]. auto.
  - inversion H; subst. split; [reflexivity |]. do 2 eexists.
    split; [reflexivity |]. auto.
  - bind_inv_ok H. inversion H; subst.
    destruct (applySelect_transfer _ _ _ _ _ _ tensor i w w' _ _ Hv H0) as (u' & Hu & Hv').
    split; [reflexivity |]. do 2 eexists.
    rewrite (bind_ok _ _ _ _ _ Hu). split; [reflexivity |]. auto.
  - bind_inv_ok H. inversion H; subst.
    destruct (applySlice_transfer _ _ _ _ _ _ _ _ _ _ (start_tensor s) (stop_tensor s)
                (step_tensor s) false w w' _ _ Hv H0) as (u' & Hu & Hv').
    split; [reflexivity |]. do 2 eexists.
    rewrite (bind_ok _ _ _ _ _ Hu). split; [reflexivity |]. auto.
Qed.

Lemma applySlicing_loop_transfer self sd indices :
  Forall (fun obj => is_plain obj = true) indices ->
  forall i r r' d out w w' u d1 out1 w1,
    same_view r r' ->
    applySlicing_loop self sd i indices (r, d, out) w = (Ok (u, d1, out1), w1) ->
    out1 = out /\
    exists u' w1',
      applySlicing_loop self sd i indices (r', d, out) w' = (Ok (u', d1, out), w1') /\
      same_view u u' /\ storages w1' = storages w'.
Proof.
  induction 1 as [|obj rest Hobj _ IH]; intros i r r' d out w w' u d1 out1 w1 Hv H;
    cbn [applySlicing_loop] in *.
  - inversion H; subst. split; [reflexivity |]. do 2 eexists. split; [reflexivity |]. auto.
  - bind_inv_ok H. destruct a as [[r2 d2] o2].
    destruct (applySlicing_step_transfer _ _ _ _ _ _ _ _ _ w' _ _ _ _ Hobj Hv H0)
      as (-> & u2 & w2 & Hstep & Hv2 & Hst2).
    destruct (IH _ _ _ _ _ _ w2 _ _ _ _ Hv2 H) as (-> & u' & w1' & Hloop & Hv' & Hst').
    split; [reflexivity |]. exists u', w1'.
    rewrite (bind_ok _ _ _ _ _ Hstep). split; [exact Hloop |].
    split; [exact Hv' | congruence].
Qed.

Lemma applySlicing_plain_transfer a indices w w' sliced out w1 :
  Forall (fun obj => is_plain obj = true) indices ->
  applySlicing a indices [] w = (Ok (sliced, out), w1) ->
  out = [] /\ storage_id sliced = storage_id a /\ scalar_type sliced = scalar_type a /\
  exists sliced' w1',
    applySlicing a indices [] w' = (Ok (sliced', []), w1') /\
    same_view sliced sliced' /\ storages w1' = storages w'.
Proof.
  intros Hp H. pose proof (applySlicing_storage _ _ _ _ _ _ _ H) as Hsid.
  unfold applySlicing in *. destruct (decide _); [| discriminate].
  bind_inv_ok H. destruct a0 as [[r1 d1] o1]. inversion H; subst.
  pose proof (applySlicing_loop_view _ _ _ _ _ _ _ _ _ _ _ _ H0) as (Ho & _).
  destruct (applySlicing_loop_transfer _ _ _ Hp _ _ _ _ _ _ w' _ _ _ _
              (same_view_refl a) H0) as (-> & u' & w1' & Hloop & Hv & Hst).
  split; [reflexivity |]. split; [exact Hsid |].
  split; [unfold options in Ho; congruence |].
  exists u', w1'. rewrite (bind_ok _ _ _ _ _ Hloop). auto.
Qed.

Lemma plain_fast_paths indices :
  Forall (fun obj => is_plain obj = true) indices ->
  set_fast_path indices = get_fast_path indices.
Proof.
  intros H. destruct indices as [|[] [|]]; try reflexivity.
  inversion H as [|? ? Hx]; discriminate Hx.
Qed.

(** A read with plain descriptors that succeeds in one store succeeds in
    every store, with the same view as result. *)
Lemma get_item_plain_transfer a indices w w' r w0 :
  Forall (fun obj => is_plain obj = true) indices ->
  get_item a indices w = (Ok r, w0) ->
  storage_id r = storage_id a /\ scalar_type r = scalar_type a /\
  storages w0 = storages w /\
  exists r' w0',
    get_item a indices w' = (Ok r', w0') /\ same_view r r' /\ storages w0' = storages w'.
Proof.
  intros Hp H.
  assert (forall w', exists r' w0',
            get_item a indices w' = (Ok r', w0') /\ same_view r r' /\
            storages w0' = storages w') as Hall.
  { clear w'. intros w'. destruct (get_fast_path indices) eqn:Hfast.
    - destruct indices as [|[| | integer tensor | b | s | t] [|]]; try discriminate Hfast;
        unfold get_item in *.
      + destruct (unsqueeze_transfer _ _ _ _ w' _ _ (same_view_refl a) H) as (u' & Hu & Hv).
        eauto 10.
      + rewrite alias_run in H. inversion H; subst. do 2 eexists.
        split; [apply alias_run |]. split; [| reflexivity].
        unfold same_view. simpl. auto 10.
      + destruct (applySelect_transfer _ _ _ _ _ _ tensor 0 _ w' _ _ (same_view_refl a) H)
          as (u' & Hu & Hv).
        eauto 10.
      + destruct (applySlice_transfer _ _ _ _ _ _ _ _ _ _ (start_tensor s) (stop_tensor s)
                    (step_tensor s) true _ w' _ _ (same_view_refl a) H) as (u' & Hu & Hv).
        eauto 10.
    - rewrite get_item_general in * by exact Hfast.
      bind_inv_ok H. destruct a0 as [sliced out].
      destruct (applySlicing_plain_transfer _ _ _ w' _ _ _ Hp H0)
        as (-> & _ & _ & sliced' & w1' & Hs & Hv & Hst).
      rewrite (bind_ok _ _ _ _ _ Hs). cbv beta iota.
      assert (same_view sliced r) as Hr.
      { destruct (is_same sliced a).
        - eapply alias_same_view; eauto.
        - inversion H; subst. apply same_view_refl. }
      destruct (is_same sliced' a).
      + do 2 eexists. split; [apply alias_run |].
        split; [| simpl; exact Hst].
        eapply same_view_trans; [apply same_view_sym; exact Hr |].
        eapply same_view_trans; [exact Hv |]. eapply alias_same_view. apply alias_run.
      + do 2 eexists. split; [reflexivity |]. split; [| exact Hst].
        eapply same_view_trans; [apply same_view_sym; exact Hr | exact Hv]. }
  destruct (Hall w) as (r1 & w1 & H1 & _ & Hst1).
  assert (w1 = w0) by congruence. subst w1.
  split; [| split; [| split; [exact Hst1 | apply Hall]]].
  - destruct (get_fast_path indices) eqn:Hfast.
    + destruct indices as [|[| | integer tensor | b | s | t] [|]]; try discriminate Hfast;
        unfold get_item in H.
      * eapply unsqueeze_storage; eauto.
      * rewrite alias_run in H. inversion H; reflexivity.
      * eapply applySelect_storage; eauto.
      * eapply applySlice_storage; eauto.
    + rewrite get_item_general in H by exact Hfast.
      bind_inv_ok H. destruct a0 as [sliced out].
      destruct (applySlicing_plain_transfer _ _ _ w _ _ _ Hp H0) as (-> & Hsid & _).
      destruct (is_same sliced a);
        [rewrite alias_run in H |]; inversion H; subst; exact Hsid.
  - destruct (get_fast_path indices) eqn:Hfast.
    + destruct indices as [|[| | integer tensor | b | s | t] [|]]; try discriminate Hfast;
        unfold get_item in H.
      * apply unsqueeze_view in H as (_ & _ & Ho & _). unfold options in Ho. congruence.
      * rewrite alias_run in H. inversion H; reflexivity.
      * apply applySelect_view in H as (_ & _ & Ho & _). unfold options in Ho. congruence.
      * apply applySlice_view in H as (_ & _ & Ho & _). unfold options in Ho. congruence.
    + rewrite get_item_general in H by exact Hfast.
      bind_inv_ok H. destruct a0 as [sliced out].
      destruct (applySlicing_plain_transfer _ _ _ w _ _ _ Hp H0) as (-> & _ & Hty & _).
      destruct (is_same sliced a);
        [rewrite alias_run in H |]; inversion H; subst; exact Hty.
Qed.

(** An assignment with plain descriptors, where the read succeeds, is the
    copy into the view that the read returns. *)
Lemma set_item_plain_view a indices value w w' r w0 :
  Forall (fun obj => is_plain obj = true) indices ->
  get_item a indices w = (Ok r, w0) ->
  exists u w1',
    set_item a indices value w' = copy_to u value w1' /\
    same_view r u /\ storages w1' = storages w'.
Proof.
  intros Hp H. pose proof (plain_fast_paths _ Hp) as Hsf.
  destruct (get_fast_path indices) eqn:Hfast.
  - destruct indices as [|[| | integer tensor | b | s | t] [|]]; try discriminate Hfast;
      unfold get_item in H; unfold set_item.
    + destruct (unsqueeze_transfer _ _ _ _ w' _ _ (same_view_refl a) H) as (u' & Hu & Hv).
      do 2 eexists. rewrite (bind_ok _ _ _ _ _ Hu). split; [reflexivity |]. auto.
    + apply alias_same_view in H. do 2 eexists.
      split; [reflexivity |]. split; [| reflexivity]. apply same_view_sym. exact H.
    + destruct (applySelect_transfer _ _ _ _ _ _ tensor 0 _ w' _ _ (same_view_refl a) H)
        as (u' & Hu & Hv).
      do 2 eexists. rewrite (bind_ok _ _ _ _ _ Hu). split; [reflexivity |]. auto.
    + destruct (applySlice_transfer _ _ _ _ _ _ _ _ _ _ (start_tensor s) (stop_tensor s)
                  (step_tensor s) false _ w' _ _ (same_view_refl a) H) as (u' & Hu & Hv).
      do 2 eexists. rewrite (bind_ok _ _ _ _ _ Hu). split; [reflexivity |]. auto.
  - rewrite get_item_general in H by exact Hfast.
    rewrite set_item_general by exact Hsf.
    bind_inv_ok H. destruct a0 as [sliced out].
    destruct (applySlicing_plain_transfer _ _ _ w' _ _ _ Hp H0)
      as (-> & _ & _ & sliced' & w1' & Hs & Hv & Hst).
    exists sliced', w1'. rewrite (bind_ok _ _ _ _ _ Hs). split; [reflexivity |].
    split; [| exact Hst].
    eapply same_view_trans; [| exact Hv]. apply same_view_sym.
    destruct (is_same sliced a).
    + eapply alias_same_view; eauto.
    + inversion H; subst. apply same_view_refl.
Qed.

(** X17.  Writing a scalar and reading it back.  Let the descriptors be
    None, Ellipsis, integers and slices only, and let the read [a[idx]]
    succeed with a view all of whose elements can be read.  Then the
    assignment [a[idx] = v] of a scalar succeeds, and a read [a[idx]]
    after it succeeds with the same view, every element of which is [v]
    converted to the dtype of [a].  Read and assignment address the same
    cells although they take different paths: their fast paths differ, and
    only the read makes an alias of an unchanged source. *)
Theorem set_item_scalar_get_item a indices v w r w0 :
  Forall (fun obj => is_plain obj = true) indices ->
  (storage_id a < next_id w)%nat ->
  get_item a indices w = (Ok r, w0) ->
  is_Some (elements w r) ->
  exists w1,
    set_item_scalar a indices v w = (Ok tt, w1) /\
    exists r' w2,
      get_item a indices w1 = (Ok r', w2) /\ same_view r r' /\
      elements w2 r'
      = Some (replicate (length (all_indices (sizes r))) (cast_to (scalar_type a) v)).
Proof.
  intros Hp Hlt H Hread. rewrite set_item_scalar_run.
  match goal with
  | |- context [set_item a indices ?value ?wv] =>
    destruct (set_item_plain_view a indices value w wv r w0 Hp H)
      as (u & w1' & Hset & Hv & Hst)
  end.
  rewrite Hset.
  destruct (get_item_plain_transfer a indices w w r w0 Hp H) as (Hsid & Hty & _).
  destruct Hv as (Hv1 & Hv2 & Hv3 & Hv4 & Hv5 & Hv6).
  assert (same_view r u) as Hv by (unfold same_view; auto 10).
  match goal with
  | |- context [copy_to u ?value w1'] =>
    destruct (copy_to_scalar_fill u value
                (cast_to (opt_dtype (if isQIntType (scalar_type a)
                                     then mkOptions kFloat kCPU else options a)) v) w1')
      as (w1 & Hcopy & Hel)
  end.
  - reflexivity.
  - reflexivity.
  - unfold read_cell. rewrite Hst. simpl. rewrite lookup_insert_eq. reflexivity.
  - rewrite (elements_same_view w w1' r u); try congruence.
    rewrite Hst. simpl. rewrite lookup_insert_ne by lia. congruence.
  - exists w1. split; [exact Hcopy |].
    destruct (get_item_plain_transfer a indices w w1 r w0 Hp H)
      as (_ & _ & _ & r' & w2 & Hget & Hv' & Hst2).
    exists r', w2. split; [exact Hget |]. split; [exact Hv' |].
    rewrite (same_view_elements w1 w2 u r');
      [| eapply same_view_trans; [apply same_view_sym; exact Hv | exact Hv'] | exact Hst2].
    rewrite Hel, <- Hv3, <- Hv5, Hty, cast_to_scalar_value. reflexivity.
Qed.

Lemma set_item_scalar_get_item_witness :
  exists w1,
    set_item_scalar ex_a [TI_Integer 1 None; TI_Slice (mkSlice 0 2 1 None None None)] 5 ex_world
    = (Ok tt, w1) /\
    exists r' w2,
      get_item ex_a [TI_Integer 1 None; TI_Slice (mkSlice 0 2 1 None None None)] w1
      = (Ok r', w2) /\
      same_view (mkTensor 11 0 3 [2] [1] kLong kCPU) r' /\
      elements w2 r'
      = Some (replicate (length (all_indices (sizes (mkTensor 11 0 3 [2] [1] kLong kCPU))))
                (cast_to (scalar_type ex_a) 5)).
Proof.
  apply (set_item_scalar_get_item ex_a
           [TI_Integer 1 None; TI_Slice (mkSlice 0 2 1 None None None)] 5 ex_world
           (mkTensor 11 0 3 [2] [1] kLong kCPU) (mkWorld 12 (storages ex_world))).
  - repeat constructor.
  - vm_compute. lia.
  - reflexivity.
  - vm_compute. eauto.
Defined.

(** ** The cursor stays inside the view *)

(** One step uses up at most the dimensions its descriptor specifies, or
    the dimensions an Ellipsis stands for, of those the view has behind the
    cursor. *)
Lemma applySlicing_step_room self sd i obj result d out w result' d' out' w' :
  applySlicing_step self sd i obj (result, d, out) w = (Ok (result', d', out'), w') ->
  dim result - d - spec_consumed obj
    - match obj with TI_Ellipsis => dim self - sd | _ => 0 end
  <= dim result' - d'.
Proof.
  intros H. pose proof (applySlicing_step_view _ _ _ _ _ _ _ _ _ _ _ _ H) as (_ & Hd & _).
  rewrite Hd. clear Hd. unfold applySlicing_step in H.
  destruct obj as [| | integer tensor | b | s | t]; cbn [rank_change spec_consumed].
  - bind_inv_ok H. inversion H; subst. lia.
  - inversion H; subst. lia.
  - bind_inv_ok H. inversion H; subst. lia.
  - bind_inv_ok H. bind_inv_ok H. unfold handle_tensor in H. inversion H; subst. lia.
  - bind_inv_ok H. inversion H; subst. lia.
  - unfold is_mask_type.
    destruct (bool_decide (dim t = 0) && isIntegralType (scalar_type t) true) eqn:E1.
    + apply andb_true_iff in E1 as [Hd0 _]. apply bool_decide_eq_true_1 in Hd0.
      destruct (bool_decide (scalar_type t <> kByte)
                && bool_decide (scalar_type t <> kBool)) eqn:E2.
      * bind_inv_ok H. bind_inv_ok H. inversion H; subst.
        apply andb_true_iff in E2 as [Hb1 Hb2].
        apply bool_decide_eq_true_1 in Hb1. apply bool_decide_eq_true_1 in Hb2.
        rewrite !bool_decide_eq_false_2 by assumption. simpl. lia.
      * bind_inv_ok H. bind_inv_ok H. bind_inv_ok H. unfold handle_tensor in H.
        inversion H; subst.
        destruct (bool_decide (scalar_type t = kByte) || bool_decide (scalar_type t = kBool));
          lia.
    + unfold handle_tensor in H. inversion H; subst.
      destruct (bool_decide (scalar_type t = kByte) || bool_decide (scalar_type t = kBool))
        eqn:Hm; [| lia].
      assert (isIntegralType (scalar_type t) true = true) as Hint.
      { apply orb_true_iff in Hm as [Hm | Hm]; apply bool_decide_eq_true_1 in Hm;
          rewrite Hm; reflexivity. }
      rewrite Hint, andb_true_r in E1. apply bool_decide_eq_false_1 in E1.
      unfold dim in *. lia.
Qed.

Lemma applySlicing_loop_room self sd indices :
  forall i result d out w result' d' out' w',
    applySlicing_loop self sd i indices (result, d, out) w = (Ok (result', d', out'), w') ->
    dim result - d - spec_count indices - Z.of_nat (ellipsis_count indices) * (dim self - sd)
    <= dim result' - d'.
Proof.
  induction indices as [|obj rest IH]; intros i result d out w result' d' out' w' H;
    cbn [applySlicing_loop] in H.
  - inversion H; subst. unfold spec_count, ellipsis_count. simpl. lia.
  - bind_inv_ok H. destruct a as [[r1 d1] o1].
    apply applySlicing_step_room in H0. apply IH in H.
    unfold spec_count, ellipsis_count in *. cbn [foldr sum_list_with].
    destruct obj; lia.
Qed.

(** X18.  The cursor stays inside the view.  With at most one Ellipsis
    among the descriptors, when [applySlicing] succeeds the pending index
    list has no more entries than the returned view has dimensions: the
    arity check leaves every pending index a dimension of the view to
    apply to. *)
Theorem applySlicing_pending_within self indices w sliced out w' :
  (ellipsis_count indices <= 1)%nat ->
  applySlicing self indices [] w = (Ok (sliced, out), w') ->
  Z.of_nat (length out) <= dim sliced.
Proof.
  intros Hone H. unfold applySlicing in H.
  destruct (decide _) as [Hsd|]; [| discriminate].
  bind_inv_ok H. destruct a as [[r1 d1] o1]. inversion H; subst.
  pose proof H0 as Hp.
  apply applySlicing_loop_pending in Hp as (Hd & Hlen & _);
    [| exact Hsd | lia | simpl; lia].
  apply applySlicing_loop_room in H0.
  rewrite count_specified_dimensions_spec in *.
  assert (Z.of_nat (ellipsis_count indices)
            * (dim self - spec_count indices) <= dim self - spec_count indices).
  { destruct (ellipsis_count indices) as [|[|k]]; lia. }
  lia.
Qed.

Lemma applySlicing_pending_within_witness :
  Z.of_nat (length [None; Some ex_ix]) <= dim (mkTensor 10 0 0 [2; 3] [3; 1] kLong kCPU).
Proof.
  apply (applySlicing_pending_within ex_a
           [TI_Slice (mkSlice 0 2 1 None None None); TI_Tensor ex_ix] ex_world
           (mkTensor 10 0 0 [2; 3] [3; 1] kLong kCPU) [None; Some ex_ix]
           (mkWorld 11 (storages ex_world))).
  - vm_compute. lia.
  - reflexivity.
Defined.

(** ** The boolean true: write through a view, read through a gather *)

Lemma elements_unsqueezed_front w w' a u :
  storages w' !! storage_id a = storages w !! storage_id a ->
  storage_id u = storage_id a -> storage_offset u = storage_offset a ->
  sizes u = 1 :: sizes a -> strides u = 1 :: strides a ->
  elements w' u = elements w a.
Proof.
  intros Hst Hsid Hoff Hsz Hstr. unfold elements.
  rewrite Hsz, all_indices_unit, mapM_fmap_compose.
  apply mapM_ext. intros m. unfold compose.
  apply read_at_unsqueezed_front; assumption.
Qed.

(** X19.  The boolean true.  [set_item] answers a single [true] on its
    fast path, by a copy into the unsqueezed view, while [get_item] answers
    it on the general path, by a gather with the index tensor [[0]].  Both
    address all of the tensor: for a tensor of non-negative sizes whose
    elements can all be read, [a[True] = v] for a scalar [v] succeeds and
    sets every element of [a] to [v] converted to the dtype of [a], and the
    read [a[True]] after it succeeds with a tensor of shape [1 :: sizes a]
    that holds these elements. *)
Theorem set_item_true_get_item a v w :
  readable w a -> Forall (fun s => 0 <= s) (sizes a) ->
  exists w1,
    set_item_scalar a [TI_Boolean true] v w = (Ok tt, w1) /\
    elements w1 a
    = Some (replicate (length (all_indices (sizes a))) (cast_to (scalar_type a) v)) /\
    exists r w2,
      get_item a [TI_Boolean true] w1 = (Ok r, w2) /\
      sizes r = 1 :: sizes a /\
      elements w2 r = elements w1 a.
Proof.
  intros [Hlt Hread] Hsizes. rewrite set_item_scalar_run.
  match goal with
  | |- context [set_item a [TI_Boolean true] ?value ?wv0] =>
    set (val := value); set (wv := wv0);
    pose proof (unsqueeze_front a wv) as Hu
  end.
  match type of Hu with
  | _ = (Ok ?u0, ?wu0) => set (u := u0) in *; set (wu := wu0) in *
  end.
  assert (set_item a [TI_Boolean true] val wv = copy_to u val wu) as ->.
  { unfold set_item. rewrite (bind_ok _ _ _ _ _ Hu). reflexivity. }
  assert (storages wu !! storage_id a = storages w !! storage_id a) as Hst.
  { simpl. apply lookup_insert_ne. lia. }
  destruct (copy_to_scalar_fill u val
              (cast_to (opt_dtype (if isQIntType (scalar_type a)
                                   then mkOptions kFloat kCPU else options a)) v) wu)
    as (w1 & Hcopy & Hel).
  - reflexivity.
  - reflexivity.
  - unfold read_cell. simpl. rewrite lookup_insert_eq. reflexivity.
  - rewrite (elements_unsqueezed_front w wu a u) by (assumption || reflexivity).
    exact Hread.
  - exists w1. split; [exact Hcopy |].
    pose proof (writes_only_copy_to _ _ _ _ _ Hcopy) as [Hn _].
    assert (elements w1 a
            = Some (replicate (length (all_indices (sizes a)))
                      (cast_to (scalar_type a) v))) as Ha.
    { rewrite <- (elements_unsqueezed_front w1 w1 a u) by reflexivity.
      rewrite Hel. cbn [sizes scalar_type u].
      rewrite all_indices_unit, length_fmap, cast_to_scalar_value. reflexivity. }
    split; [exact Ha |].
    assert (storage_id a < next_id w1)%nat as Hlt1 by (simpl in Hn; lia).
    rewrite (get_item_boolean_run a true w1 _ Hlt1 Ha).
    match goal with
    | |- context [new_tensor ?shape ?vals ?o ?w0] =>
      destruct (elements_new_tensor shape vals o w0)
        as (t & w2 & Hnew & _ & Hsz & _ & _ & _ & Helt)
    end.
    + constructor; [lia | assumption].
    + rewrite length_replicate.
      rewrite all_indices_count by assumption.
      change (numel (1 :: sizes a)) with (1 * numel (sizes a)). f_equal. lia.
    + exists t, w2. split; [exact Hnew |]. split; [exact Hsz |]. congruence.
Qed.

Lemma set_item_true_get_item_witness :
  exists w1,
    set_item_scalar ex_a [TI_Boolean true] 5 ex_world = (Ok tt, w1) /\
    elements w1 ex_a
    = Some (replicate (length (all_indices (sizes ex_a))) (cast_to (scalar_type ex_a) 5)) /\
    exists r w2,
      get_item ex_a [TI_Boolean true] w1 = (Ok r, w2) /\
      sizes r = 1 :: sizes ex_a /\
      elements w2 r = elements w1 ex_a.
Proof.
  apply (set_item_true_get_item ex_a 5 ex_world).
  - split; [vm_compute; lia | vm_compute; eauto].
  - repeat constructor; discriminate.
Defined.

(** ** Writing a tensor and reading it back *)

Lemma expand_aligned_same sz : forall st,
  length st = length sz -> expand_aligned sz st sz = Some st.
Proof.
  induction sz as [|a sz IH]; intros [|s st] Hlen; simpl in *; try discriminate;
    [reflexivity |].
  rewrite IH by lia. simpl. rewrite decide_True by reflexivity. reflexivity.
Qed.

(** Positions of a shape with [k] leading dimensions of size 1 do not see
    the strides of these dimensions. *)
Lemma dot_leading_ones k : forall st rest idx,
  (k <= length st)%nat -> idx ∈ all_indices (replicate k 1 ++ rest) ->
  dot idx (replicate k 0 ++ drop k st) = dot idx st.
Proof.
  induction k as [|k IH]; intros st rest idx Hk Hin.
  - rewrite drop_0. reflexivity.
  - destruct st as [|s st]; [simpl in Hk; lia |].
    change (replicate (S k) 1 ++ rest) with (1 :: (replicate k 1 ++ rest)) in Hin.
    rewrite all_indices_unit in Hin. apply list_elem_of_fmap in Hin as (m & -> & Hm).
    simpl. rewrite (IH st rest m) by (simpl in Hk; lia || exact Hm). lia.
Qed.

Lemma write_cells_ok sid locs : forall vals w,
  length vals = length locs ->
  Forall (fun loc => is_Some (read_cell w sid loc)) locs ->
  is_Some (write_cells sid (zip locs vals) w).
Proof.
  induction locs as [|loc locs IH]; intros [|v vals] w Hlen Hr; simpl in *;
    try discriminate; [eauto |].
  apply Forall_cons in Hr as [Hloc Hr].
  destruct (write_cell_ok sid loc v w Hloc) as [w1 H1]. rewrite H1. simpl.
  apply IH; [lia |].
  eapply Forall_impl; [exact Hr |]. intros loc'. apply (write_cell_readable _ _ _ _ _ _ H1).
Qed.

(** The value of an assignment, trimmed of its leading dimensions of size
    1 and expanded to a destination of the shape of the value, has the
    elements of the value. *)
Lemma expand_trimmed_elements value dst id w w2 vals :
  sizes value = sizes dst -> length (strides value) = length (sizes value) ->
  storages w2 = storages w -> elements w value = Some vals ->
  exists b wb,
    expand_inplace dst
      (mkTensor id (storage_id value) (storage_offset value)
         (slicePrefix1sSize (sizes value))
         (drop (first_non1_src (sizes value)) (strides value))
         (scalar_type value) (device value)) w2 = (Ok b, wb) /\
    sizes b = sizes dst /\ storages wb = storages w2 /\ elements wb b = Some vals.
Proof.
  intros Hsz Hlen Hst Hvals.
  pose proof (first_non1_src_le (sizes value)) as Hk.
  destruct (slicePrefix1sSize_spec (sizes value)) as [Hspec _].
  set (k := first_non1_src (sizes value)) in *.
  unfold expand_inplace. cbn [sizes].
  destruct (decide (sizes dst = slicePrefix1sSize (sizes value))) as [Heq | Hne].
  - do 2 eexists. split; [reflexivity |]. split; [simpl; congruence |].
    split; [reflexivity |].
    assert (k = 0)%nat as Hk0.
    { assert (length (sizes value) = length (slicePrefix1sSize (sizes value))) as Hl
        by congruence.
      unfold slicePrefix1sSize in Hl. rewrite length_drop in Hl. fold k in Hl. lia. }
    rewrite <- Hvals. apply elements_same_view; simpl; try congruence.
    rewrite Hk0. apply drop_0.
  - unfold expand, expand_strides. cbn [sizes strides].
    assert (length (slicePrefix1sSize (sizes value)) = (length (sizes value) - k)%nat) as Hlt
      by (unfold slicePrefix1sSize; apply length_drop).
    assert (length (sizes dst) = length (sizes value)) as Hld by congruence.
    rewrite decide_True by lia.
    replace (length (sizes dst) - length (slicePrefix1sSize (sizes value)))%nat with k by lia.
    rewrite <- Hsz. change (drop k (sizes value)) with (slicePrefix1sSize (sizes value)).
    rewrite expand_aligned_same by (rewrite length_drop; lia). simpl.
    do 2 eexists. split; [reflexivity |]. split; [reflexivity |]. split; [reflexivity |].
    rewrite <- Hvals. unfold elements. cbn [sizes].
    apply Forall_mapM_ext. apply Forall_forall. intros idx Hin.
    unfold read_at, location, read_cell. cbn [storage_id storage_offset strides storages].
    rewrite Hst. rewrite Hspec in Hin.
    rewrite (dot_leading_ones k (strides value) _ idx) by (lia || exact Hin).
    reflexivity.
Qed.

(** The copy of a value of the shape of the destination: it succeeds when
    the value and the destination can be read, and a destination of
    distinct cells then holds the elements of the value, converted. *)
Lemma copy_to_same_shape dst value w vals :
  sizes value = sizes dst -> length (strides value) = length (sizes value) ->
  elements w value = Some vals -> is_Some (elements w dst) ->
  NoDup (location dst <$> all_indices (sizes dst)) ->
  exists w',
    copy_to dst value w = (Ok tt, w') /\
    elements w' dst = Some (cast_to (scalar_type dst) <$> vals).
Proof.
  intros Hsz Hlen Hvals Hread Hnd. unfold copy_to.
  rewrite (bind_ok _ _ _ _ _ (view_slicePrefix1sSize value w)). cbv beta.
  destruct (expand_trimmed_elements value dst (next_id w) w
              (mkWorld (S (next_id w)) (storages w)) vals Hsz Hlen eq_refl Hvals)
    as (b & wb & Hb & Hbs & Hst & Hel).
  rewrite (bind_ok _ _ _ _ _ Hb). cbv beta. simpl in Hst.
  assert (length vals = length (all_indices (sizes dst))) as Hlv.
  { apply length_mapM in Hel. rewrite Hbs in Hel. congruence. }
  destruct (write_cells_ok (storage_id dst) (location dst <$> all_indices (sizes dst))
              (cast_to (scalar_type dst) <$> vals) wb) as [w' Hw].
  { rewrite !length_fmap. exact Hlv. }
  { apply Forall_fmap. apply mapM_is_Some in Hread.
    eapply Forall_impl; [exact Hread |]. intros idx Hidx.
    unfold compose, read_at, read_cell in *. rewrite Hst. exact Hidx. }
  assert (match
            vals ← elements wb b;
            write_cells (storage_id dst)
              (zip (location dst <$> all_indices (sizes dst))
                   (cast_to (scalar_type dst) <$> vals)) wb
          with
          | Some w' => (Ok tt, w')
          | None => (Fail PrimitiveError, wb)
          end = (Ok tt, w')) as Hmatch.
  { rewrite Hel. simpl. rewrite Hw. reflexivity. }
  exists w'. split.
  - unfold bind at 1. rewrite copy_same_sizes by (symmetry; exact Hbs).
    rewrite Hel. simpl. rewrite Hw. reflexivity.
  - destruct (copy_result_elements dst b wb w' Hbs Hmatch Hnd) as (vals' & Hv' & Hres).
    rewrite Hres. congruence.
Qed.

(** X20.  Writing a tensor and reading it back.  Let the descriptors be
    None, Ellipsis, integers and slices only, let the read [a[idx]] succeed
    with a view of distinct cells that can all be read, and let [value] be
    a readable tensor of the shape of that view on another storage.  Then
    the assignment [a[idx] = value] succeeds, and a read [a[idx]] after it
    succeeds with the same view, which holds the elements of [value]
    converted to the dtype of [a]. *)
Theorem set_item_get_item a indices value w r w0 vals :
  Forall (fun obj => is_plain obj = true) indices ->
  (storage_id a < next_id w)%nat ->
  get_item a indices w = (Ok r, w0) ->
  is_Some (elements w r) ->
  NoDup (location r <$> all_indices (sizes r)) ->
  sizes value = sizes r -> length (strides value) = length (sizes value) ->
  storage_id value <> storage_id a ->
  elements w value = Some vals ->
  exists w1,
    set_item a indices value w = (Ok tt, w1) /\
    exists r' w2,
      get_item a indices w1 = (Ok r', w2) /\ same_view r r' /\
      elements w2 r' = Some (cast_to (scalar_type a) <$> vals).
Proof.
  intros Hp Hlt H Hread Hnd Hsz Hlen _ Hvals.
  destruct (set_item_plain_view a indices value w w r w0 Hp H)
    as (u & w1' & Hset & Hv & Hst).
  rewrite Hset.
  destruct (get_item_plain_transfer a indices w w r w0 Hp H) as (Hsid & Hty & _).
  destruct Hv as (Hv1 & Hv2 & Hv3 & Hv4 & Hv5 & Hv6).
  assert (same_view r u) as Hv by (unfold same_view; auto 10).
  destruct (copy_to_same_shape u value w1' vals) as (w1 & Hcopy & Hel).
  - congruence.
  - exact Hlen.
  - rewrite <- Hvals. apply elements_same_view; congruence.
  - rewrite (same_view_elements w w1' r u Hv Hst). exact Hread.
  - unfold location. rewrite <- Hv2, <- Hv3, <- Hv4. exact Hnd.
  - exists w1. split; [exact Hcopy |].
    destruct (get_item_plain_transfer a indices w w1 r w0 Hp H)
      as (_ & _ & _ & r' & w2 & Hget & Hv' & Hst2).
    exists r', w2. split; [exact Hget |]. split; [exact Hv' |].
    rewrite (same_view_elements w1 w2 u r');
      [| eapply same_view_trans; [apply same_view_sym; exact Hv | exact Hv'] | exact Hst2].
    rewrite Hel, <- Hv5, Hty. reflexivity.
Qed.

Lemma set_item_get_item_witness :
  exists w1,
    set_item ex_a [TI_Integer 1 None] (mkTensor 9 8 0 [3] [1] kLong kCPU) ex_world
    = (Ok tt, w1) /\
    exists r' w2,
      get_item ex_a [TI_Integer 1 None] w1 = (Ok r', w2) /\
      same_view (mkTensor 10 0 3 [3] [1] kLong kCPU) r' /\
      elements w2 r' = Some (cast_to (scalar_type ex_a) <$> [20; 21; 22]).
Proof.
  apply (set_item_get_item ex_a [TI_Integer 1 None] (mkTensor 9 8 0 [3] [1] kLong kCPU)
           ex_world (mkTensor 10 0 3 [3] [1] kLong kCPU) (mkWorld 11 (storages ex_world))
           [20; 21; 22]).
  - repeat constructor.
  - vm_compute. lia.
  - reflexivity.
  - vm_compute. eauto.
  - apply (bool_decide_unpack _). vm_compute. exact I.
  - reflexivity.
  - reflexivity.
  - vm_compute. lia.
  - vm_compute. reflexivity.
Defined.

(** ** An assignment that does not broadcast *)

(** X21.  A value that does not fit.  Let the descriptors be None,
    Ellipsis, integers and slices only and let the read [a[idx]] succeed
    with a view [r].  If the shape of [value], trimmed of its leading
    dimensions of size 1, does not broadcast to the shape of [r], the
    assignment [a[idx] = value] fails with the shape-broadcast error and
    has written nothing. *)
Theorem set_item_broadcast_error a indices value w r w0 :
  Forall (fun obj => is_plain obj = true) indices ->
  get_item a indices w = (Ok r, w0) ->
  ~ broadcastable (slicePrefix1sSize (sizes value)) (sizes r) ->
  exists w',
    set_item a indices value w = (Fail ShapeBroadcastError, w') /\
    storages w' = storages w.
Proof.
  intros Hp H Hnb.
  destruct (set_item_plain_view a indices value w w r w0 Hp H)
    as (u & w1' & Hset & (_ & _ & Hsz & _) & Hst).
  rewrite Hset. unfold copy_to.
  rewrite (bind_ok _ _ _ _ _ (view_slicePrefix1sSize value w1')). cbv beta.
  eexists. split.
  - apply bind_fail. unfold expand_inplace. cbn [sizes].
    rewrite decide_False.
    + unfold expand. cbn [sizes strides].
      destruct (expand_strides _ _ (sizes u)) as [st|] eqn:Hes; [| reflexivity].
      exfalso. apply Hnb. rewrite Hsz. eapply expand_strides_is_Some. eauto.
    + intros Heq. apply Hnb. rewrite Hsz, Heq. apply broadcastable_refl.
  - simpl. exact Hst.
Qed.

Lemma set_item_broadcast_error_witness :
  exists w',
    set_item ex_a [TI_Integer 1 None] ex_ix ex_world = (Fail ShapeBroadcastError, w') /\
    storages w' = storages ex_world.
Proof.
  apply (set_item_broadcast_error ex_a [TI_Integer 1 None] ex_ix ex_world
           (mkTensor 10 0 3 [3] [1] kLong kCPU) (mkWorld 11 (storages ex_world))).
  - repeat constructor.
  - reflexivity.
  - intros [_ Hb]. vm_compute in Hb. inversion Hb as [|? ? ? ? [Hx | Hx]]; discriminate Hx.
Defined.
